(** * supakeys: the passkey relying party, embedded in Rocq

    Two parts of the repository are modelled.

    - [ClientErrors]: the client library's error mapper
      (packages/client/src/lib/errors.ts).
    - [RateLimit] and [EdgeFunction]: the SQL function
      [check_passkey_rate_limit] of the migration and the request handler of
      the edge function, both as the init command writes them out
      (getMigrationSQL, getEdgeFunctionCode).

    The handler is a function from the durable store, the per-request
    environment (clock and random draws) and the request to the new store and
    the HTTP response; the cryptographic verifier, the identity provider
    (its page of users, its test of an email address, its link
    generation) and PostgreSQL's reading of an inet value are parameters
    of it. Column types that refuse a value (VARCHAR(n), INTEGER, INET)
    are modelled with the refusal. [Samples] fixes
    concrete primitives, stores and requests. The properties follow in
    [ClientErrorsFacts], [RateLimitFacts], [EdgeFunctionFacts] and
    [Scenarios].

    Further parts of the same files are modelled after these.

    - [Housekeeping]: [cleanup_expired_passkey_challenges] of the
      migration, the uniqueness constraints, runs of requests.
    - [JsText] and [Validation]: trimming and regular expressions, then
      [isValidEmail], the three validators and [getErrorMessage] of
      errors.ts.
    - [Helpers]: [getClientIP], [uint8ArrayToHex], [hexToUint8Array] and
      [uint8ArrayToBase64Url] of the edge function.

    Strings are sequences of code units below 256. Their properties follow
    in [HandlerInvariants], [HandlerBehaviour], [HandlerRuns],
    [RateLimitWindows], [JsTextFacts], [ValidationFacts] and
    [HelpersFacts], with instances in [Walkthroughs]. *)

From stdpp Require Import base option numbers strings list gmap fin_maps sorting.
From Stdlib Require Import ZArith Lia Ascii.

Local Open Scope Z_scope.
Local Set Warnings "-register-all,-clear-no-such-hyp".

(* ===================================================================== *)
(** ** JavaScript strings and values *)
(* ===================================================================== *)

Module Js.

(** [String.prototype.toLowerCase] on one code unit below 256: the ASCII
    capitals and the Latin-1 capitals (U+00C0 to U+00DE, the multiplication
    sign U+00D7 apart) move up by 32, everything else stays. *)
Definition lower_ascii (c : ascii) : ascii :=
  let n := N_of_ascii c in
  if ((65 <=? n) && (n <=? 90))%N then ascii_of_N (n + 32)
  else if ((192 <=? n) && (n <=? 222) && negb (n =? 215))%N then ascii_of_N (n + 32)
  else c.

Fixpoint toLowerCase (s : string) : string :=
  match s with
  | EmptyString => EmptyString
  | String c s' => String (lower_ascii c) (toLowerCase s')
  end.

(** [s.includes(sub)]: [sub] occurs in [s] at some offset. *)
Fixpoint includes (s sub : string) : bool :=
  String.prefix sub s ||
  match s with
  | EmptyString => false
  | String _ s' => includes s' sub
  end.

(** The values a [catch] clause or an [unknown] parameter can hold.
    [Error name message] is an instance of [Error] (or of a subclass such
    as [TypeError] or [DOMException]); its own [name] and [message] are
    strings, as lib.d.ts types them. *)
Inductive value :=
| Null
| Undefined
| Bool (b : bool)
| Number (n : Z)
| Str (s : string)
| Error (name message : string)
| Object (fields : list (string * value)).

(** ['k' in o] for a plain object. *)
Fixpoint has_key (k : string) (fields : list (string * value)) : bool :=
  match fields with
  | [] => false
  | (k', _) :: rest => if String.eqb k k' then true else has_key k rest
  end.

(** [o[k]]; a missing property reads as [undefined]. *)
Fixpoint get (k : string) (fields : list (string * value)) : value :=
  match fields with
  | [] => Undefined
  | (k', v) :: rest => if String.eqb k k' then v else get k rest
  end.

Definition typeof_string (v : value) : bool :=
  match v with Str _ => true | _ => false end.

End Js.

(* ===================================================================== *)
(** ** packages/client/src/lib/errors.ts *)
(* ===================================================================== *)

Module ClientErrors.
Import Js.

(** The union type [PasskeyErrorCode] of types/index.ts. *)
Definition PasskeyErrorCode : list string :=
  [ "NOT_SUPPORTED"; "INVALID_INPUT"; "CANCELLED"; "TIMEOUT"; "INVALID_STATE";
    "SECURITY_ERROR"; "CHALLENGE_EXPIRED"; "CHALLENGE_MISMATCH";
    "VERIFICATION_FAILED"; "CREDENTIAL_NOT_FOUND"; "USER_NOT_FOUND";
    "CREDENTIAL_EXISTS"; "RATE_LIMITED"; "NETWORK_ERROR"; "UNKNOWN_ERROR" ].

(** [createError(code, message, cause)] returns [{ code, message, cause }]. *)
Definition createError (code message : string) (cause : value) : value :=
  Object [ ("code", Str code); ("message", Str message); ("cause", cause) ].

Definition mapWebAuthnError (error : value) : value :=
  let fallback :=
    createError "UNKNOWN_ERROR"
      (match error with
       | Error _ message => message
       | _ => "An unknown error occurred."
       end)
      error in
  match error with
  | Error name message =>
      if String.eqb name "NotSupportedError" then
        createError "NOT_SUPPORTED"
          "WebAuthn is not supported in this browser or context." error
      else if String.eqb name "NotAllowedError" then
        if includes (toLowerCase message) "timeout" then
          createError "TIMEOUT" "The operation timed out. Please try again." error
        else createError "CANCELLED" "The operation was cancelled." error
      else if String.eqb name "InvalidStateError" then
        createError "INVALID_STATE"
          "A passkey for this account already exists on this device." error
      else if String.eqb name "SecurityError" then
        createError "SECURITY_ERROR"
          "The operation was blocked due to security restrictions." error
      else if String.eqb name "AbortError" then
        createError "CANCELLED" "The operation was aborted." error
      else if String.eqb name "TypeError" then
        if includes (toLowerCase message) "fetch" then
          createError "NETWORK_ERROR"
            "Network request failed. Please check your connection." error
        else fallback
      else fallback
  | _ => fallback
  end.

Definition isPasskeyError (error : value) : bool :=
  match error with
  | Object fields =>
      has_key "code" fields && has_key "message" fields
      && typeof_string (get "code" fields)
      && typeof_string (get "message" fields)
  | _ => false
  end.

(** The names [mapWebAuthnError] has a case for. *)
Definition recognized_names : list string :=
  [ "NotSupportedError"; "NotAllowedError"; "InvalidStateError";
    "SecurityError"; "AbortError"; "TypeError" ].

(** The inputs that fall through the switch to the final [createError]. *)
Definition falls_through (error : value) : Prop :=
  match error with
  | Error name message =>
      name ∉ recognized_names
      ∨ (name = "TypeError" ∧ includes (toLowerCase message) "fetch" = false)
  | _ => True
  end.

(** The [message] property of a mapped error. *)
Definition message_of (v : value) : value :=
  match v with
  | Object fields => get "message" fields
  | _ => Undefined
  end.

End ClientErrors.

(* ===================================================================== *)
(** ** The migration: [check_passkey_rate_limit] *)
(* ===================================================================== *)

Module RateLimit.

(** [identifier_type VARCHAR(10) CHECK (identifier_type IN ('ip', 'email'))]:
    no other value can be stored, so the column is an enumeration. *)
Inductive identifier_type := ip | email.

#[global] Instance identifier_type_eq_dec : EqDecision identifier_type.
Proof. solve_decision. Defined.

#[global] Instance identifier_type_countable : Countable identifier_type.
Proof.
  refine (inj_countable' (λ t, match t with ip => false | email => true end)
                         (λ b, if b then email else ip) _).
  by intros [].
Defined.

(** A row of [passkey_rate_limits] is found by the columns of
    [unique_rate_limit_window]:
    (identifier, identifier_type, endpoint, window_start); the value is
    [attempt_count]. *)
Abbreviation window_key := (string * identifier_type * string * Z)%type.
Abbreviation table := (gmap window_key Z).

(** PostgreSQL's INTEGER: an addition past [INT_MAX] raises "integer out
    of range" and the statement has no effect; an argument outside the
    range is refused before the function runs. *)
Definition INT_MIN : Z := -2147483648.
Definition INT_MAX : Z := 2147483647.

Definition is_INTEGER (n : Z) : bool := (INT_MIN <=? n) && (n <=? INT_MAX).

(** Every character of [s] is a space. *)
Fixpoint spaces (s : string) : bool :=
  match s with
  | EmptyString => true
  | String c s' => Ascii.eqb c " " && spaces s'
  end.

(** Assignment to a [VARCHAR(n)] column: a value of at most [n] characters
    is stored as it is; a longer one is cut to its first [n] characters when
    all the characters beyond them are spaces, and is refused otherwise. *)
Fixpoint varchar (n : nat) (s : string) : option string :=
  match s, n with
  | EmptyString, _ => Some EmptyString
  | String c s', S n' => String c <$> varchar n' s'
  | String _ _, O => if spaces s then Some EmptyString else None
  end.

#[global] Arguments varchar : simpl never.

(** A value that the column [endpoint VARCHAR(50)] takes as it is. *)
Definition endpoint_fits (p_endpoint : string) : bool :=
  (String.length p_endpoint <=? 50)%nat.

(** Timestamps are milliseconds since the epoch.
    [date_trunc('minute', NOW())]. *)
Definition date_trunc_minute (now : Z) : Z := now - now `mod` 60000.

(** [check_passkey_rate_limit(p_identifier, p_identifier_type, p_endpoint,
    p_max_attempts)]: one upsert that inserts the window's row with count 1
    or adds 1 to it and reads the new count back, then the comparison with
    the ceiling. The row carries the endpoint as the column stores it (the
    length of the parameter's type is not enforced on the argument). The
    result is the new table and [Some blocked], or the unchanged table and
    [None] when the call raises: the ceiling is no INTEGER, the endpoint
    does not fit its column, or the count overflows.
    ([p_window_minutes] is not used by the function body.) *)
Definition check_passkey_rate_limit (tbl : table) (now : Z)
    (p_identifier : string) (p_identifier_type : identifier_type)
    (p_endpoint : string) (p_max_attempts : Z) : table * option bool :=
  let v_window_start := date_trunc_minute now in
  match varchar 50 p_endpoint with
  | None => (tbl, None)
  | Some endpoint =>
      let key := (p_identifier, p_identifier_type, endpoint, v_window_start) in
      let v_current_count :=
        match tbl !! key with
        | None => 1
        | Some attempt_count => attempt_count + 1
        end in
      if negb (is_INTEGER p_max_attempts) then (tbl, None)
      else if INT_MAX <? v_current_count then (tbl, None)
      else (<[key := v_current_count]> tbl,
            Some (p_max_attempts <? v_current_count))
  end.

(** What the handler makes of the rpc result:
    [ipBlocked.error || ipBlocked.data]. *)
Definition rejected (r : option bool) : bool :=
  match r with
  | None => true
  | Some data => data
  end.

(** Successive calls for one (identifier, kind, endpoint), one per clock
    reading; the results in order. *)
Fixpoint attempts (tbl : table) (times : list Z)
    (p_identifier : string) (p_identifier_type : identifier_type)
    (p_endpoint : string) (p_max_attempts : Z) : list (option bool) :=
  match times with
  | [] => []
  | now :: rest =>
      let '(tbl', r) :=
        check_passkey_rate_limit tbl now p_identifier p_identifier_type
          p_endpoint p_max_attempts in
      r :: attempts tbl' rest p_identifier p_identifier_type p_endpoint
             p_max_attempts
  end.

(** The attempts counted so far in the window that starts at [w]. *)
Definition count_in (ident : string) (ty : identifier_type) (ep : string)
    (w : Z) (tbl : table) : Z :=
  default 0 (tbl !! (ident, ty, ep, w)).

End RateLimit.

(* ===================================================================== *)
(** ** The edge function: data model *)
(* ===================================================================== *)

Module EdgeFunction.
Export RateLimit.

(** *** Tables of the migration *)

(** [type VARCHAR(20) CHECK (type IN ('registration', 'authentication'))]. *)
Inductive challenge_type := registration | authentication.

#[global] Instance challenge_type_eq_dec : EqDecision challenge_type.
Proof. solve_decision. Defined.

(** A row of [passkey_challenges]; the primary key [id] is the key of the
    map that holds the rows. *)
Record Challenge := {
  ch_challenge : string;
  ch_email : option string;
  ch_webauthn_user_id : option string;
  ch_type : challenge_type;
  ch_expires_at : Z;
}.

Inductive device_type := singleDevice | multiDevice.

(** A row of [passkey_credentials], keyed by [id]. The public key is kept
    as the text that is stored. *)
Record Credential := {
  cr_user_id : string;
  cr_webauthn_user_id : string;
  cr_public_key : string;
  cr_counter : Z;
  cr_device_type : device_type;
  cr_backed_up : bool;
  cr_transports : list string;
  cr_authenticator_name : option string;
  cr_created_at : Z;
  cr_last_used_at : option Z;
}.

(** The enum [passkey_audit_event]. *)
Inductive passkey_audit_event :=
| registration_started | registration_completed | registration_failed
| authentication_started | authentication_completed | authentication_failed
| passkey_removed | passkey_updated
| rate_limit_exceeded | challenge_expired | counter_mismatch.

#[global] Instance passkey_audit_event_eq_dec : EqDecision passkey_audit_event.
Proof. solve_decision. Defined.

(** A row of [passkey_audit_log], with the columns the handler fills. *)
Record AuditEvent := {
  event_type : passkey_audit_event;
  p_user_id : option string;
  p_credential_id : option string;
  p_email : option string;
  p_ip_address : option string;
  p_origin : option string;
  p_error_message : option string;
}.

(** A user of the identity provider ([auth.users]). *)
Record User := { u_id : string; u_email : string }.

(** The durable state all requests share. *)
Record Store := {
  passkey_challenges : gmap string Challenge;
  passkey_credentials : gmap string Credential;
  passkey_rate_limits : gmap window_key Z;
  passkey_audit_log : list AuditEvent;
  auth_users : list User;
}.

Definition set_challenges (s : Store) (m : gmap string Challenge) : Store :=
  {| passkey_challenges := m;
     passkey_credentials := passkey_credentials s;
     passkey_rate_limits := passkey_rate_limits s;
     passkey_audit_log := passkey_audit_log s;
     auth_users := auth_users s |}.

Definition set_credentials (s : Store) (m : gmap string Credential) : Store :=
  {| passkey_challenges := passkey_challenges s;
     passkey_credentials := m;
     passkey_rate_limits := passkey_rate_limits s;
     passkey_audit_log := passkey_audit_log s;
     auth_users := auth_users s |}.

Definition set_rate_limits (s : Store) (m : gmap window_key Z) : Store :=
  {| passkey_challenges := passkey_challenges s;
     passkey_credentials := passkey_credentials s;
     passkey_rate_limits := m;
     passkey_audit_log := passkey_audit_log s;
     auth_users := auth_users s |}.

Definition set_users (s : Store) (us : list User) : Store :=
  {| passkey_challenges := passkey_challenges s;
     passkey_credentials := passkey_credentials s;
     passkey_rate_limits := passkey_rate_limits s;
     passkey_audit_log := passkey_audit_log s;
     auth_users := us |}.

(** The argument [p_ip_address INET] of [log_passkey_audit_event] is
    given as text; [inet_in] is PostgreSQL's reading of a text as an inet
    value, [true] when it accepts the text. An absent address is NULL. *)
Definition ip_address_accepted (inet_in : string → bool) (ev : AuditEvent) : bool :=
  match p_ip_address ev with
  | Some text => inet_in text
  | None => true
  end.

(** [rpc('log_passkey_audit_event', {...})], whose result the handler does
    not look at: one row appended to the log, or nothing at all when the
    address is no inet value and the call fails. *)
Definition log_passkey_audit_event (inet_in : string → bool)
    (s : Store) (ev : AuditEvent) : Store :=
  {| passkey_challenges := passkey_challenges s;
     passkey_credentials := passkey_credentials s;
     passkey_rate_limits := passkey_rate_limits s;
     passkey_audit_log :=
       if ip_address_accepted inet_in ev
       then passkey_audit_log s ++ [ev]
       else passkey_audit_log s;
     auth_users := auth_users s |}.

(** The number of rows of the log with a given event type. *)
Definition count_events (ty : passkey_audit_event) (log : list AuditEvent) : nat :=
  length (filter (λ ev, event_type ev = ty) log).

(** *** Requests, environment and responses *)

(** The authenticator's response as the handler sees it: the credential
    [id] it reads itself, the signature counter carried in the
    authenticator data, and the rest, which only the verifier reads. *)
Record AuthenticatorResponse := {
  ar_id : string;
  ar_signCount : Z;
  ar_payload : string;
}.

(** A parsed request (the model starts after [req.json()] of a POST; the
    CORS preflight and a body that does not parse are left out):
    [{ endpoint, data }] with the fields of [data] the handler
    destructures, the client IP and origin taken from the headers,
    and [caller], the user that [userClient.auth.getUser()] resolves the
    bearer token to. A [challengeId] or [credentialId] that is missing
    reaches the query filter as text that matches no well-formed row. *)
Record Request := {
  endpoint : string;
  clientIP : string;
  origin : string;
  caller : option string;
  rpId : string;
  rpName : string;
  email : option string;
  challengeId : string;
  authResponse : option AuthenticatorResponse;
  authenticatorName : option string;
  credentialId : string;
}.

(** What one request draws from outside the store: the clock, and the
    random values of [generateWebAuthnUserId], of the option builders
    (the nonce), of [gen_random_uuid()] for the challenge row and of the
    identity provider for a new user. *)
Record Env := {
  now : Z;
  webauthnUserId : string;
  nonce : string;
  uuid : string;
  new_user_id : string;
}.

Record RegistrationOptions := {
  ro_challenge : string;
  ro_rpName : string;
  ro_rpID : string;
  ro_userName : option string;
  ro_userID : string;
  ro_excludeCredentials : list string;
}.

Record AuthenticationOptions := {
  ao_challenge : string;
  ao_rpID : string;
  ao_allowCredentials : option (list string);
}.

(** The public view of a credential that the responses carry. *)
Record Passkey := {
  pk_id : string;
  pk_authenticatorName : option string;
  pk_deviceType : device_type;
  pk_backedUp : bool;
  pk_createdAt : Z;
  pk_lastUsedAt : option Z;
}.

Inductive Data :=
| RegisterStarted (options : RegistrationOptions) (challengeId : string)
| RegisterFinished (tokenHash : option string) (passkey : option Passkey)
| LoginStarted (options : AuthenticationOptions) (challengeId : string)
| LoginFinished (tokenHash : option string) (email : option string)
| Passkeys (passkeys : list Passkey)
| Removed
| Updated (id : string) (passkey : Credential).

(** [ApiResponse], built by [success(data)] and [error(code, message)]. *)
Inductive ApiResponse :=
| success (data : Data)
| error (code message : string).

(** The HTTP response: status and JSON body. *)
Record Response := { status : Z; body : ApiResponse }.

Definition ok (r : ApiResponse) : Response := {| status := 200; body := r |}.

(** The outer [catch]: status 500, UNKNOWN_ERROR. *)
Definition internal_error : Response :=
  {| status := 500; body := error "UNKNOWN_ERROR" "Internal server error" |}.

Definition error_code (r : Response) : option string :=
  match body r with
  | error code _ => Some code
  | success _ => None
  end.

(** *** Constants *)

Definition CHALLENGE_TTL_MINUTES : Z := 5.
Definition RATE_LIMITS_ip_maxAttempts : Z := 5.
Definition RATE_LIMITS_email_maxAttempts : Z := 10.

(** *** External primitives

    The cryptographic verifier (npm:@simplewebauthn/server), the identity
    provider (its listing of users, its test of an email address, its link
    generation) and PostgreSQL's reading of an inet value are outside the
    repository; the handler is parameterised by them. A call of the
    verifier either throws or returns. *)

Inductive outcome (A : Type) :=
| Throws (message : string)
| Returns (a : A).
Arguments Throws {A} message.
Arguments Returns {A} a.

(** [verification.registrationInfo]: the new credential and its flags. *)
Record RegistrationInfo := {
  ri_id : string;
  ri_publicKey : string;
  ri_counter : Z;
  ri_transports : list string;
  ri_deviceType : device_type;
  ri_backedUp : bool;
}.

Record VerifiedRegistrationResponse := {
  vr_verified : bool;
  vr_registrationInfo : option RegistrationInfo;
}.

(** [{ verified, authenticationInfo: { newCounter } }]. *)
Record VerifiedAuthenticationResponse := {
  va_verified : bool;
  va_newCounter : Z;
}.

(** The message of the TypeError raised by reading [property] of
    [null]. *)
Definition TypeError (property : string) : string :=
  "Cannot read properties of null (reading '" +:+ property +:+ "')".

(** *** The [try] blocks: state and exceptions *)

Definition Try (A : Type) : Type := Store → Store * outcome A.

#[global] Instance Try_ret : MRet Try := λ A a s, (s, Returns a).
#[global] Instance Try_bind : MBind Try := λ A B f m s,
  match m s with
  | (s', Returns a) => f a s'
  | (s', Throws e) => (s', Throws e)
  end.

Definition throw {A} (message : string) : Try A := λ s, (s, Throws message).
Definition lift {A} (o : outcome A) : Try A := λ s, (s, o).
Definition read : Try Store := λ s, (s, Returns s).
Definition write (f : Store → Store) : Try unit := λ s, (f s, Returns tt).

(** *** Queries *)

(** [.from('passkey_challenges').select('*').eq('id', id).eq('type', ty)
    .single()]. *)
Definition select_challenge (s : Store) (id : string) (ty : challenge_type)
    : option Challenge :=
  match passkey_challenges s !! id with
  | Some row => if decide (ch_type row = ty) then Some row else None
  | None => None
  end.

(** [.from('passkey_challenges').delete().eq('id', id)]. *)
Definition delete_challenge (s : Store) (id : string) : Store :=
  set_challenges s (delete id (passkey_challenges s)).

(** [.insert({...}).select().single()] on [passkey_challenges]: the row
    gets the generated [id]; the insert is refused, and yields no row, when
    the primary key or the UNIQUE [challenge] value is already there. *)
Definition insert_challenge (s : Store) (id : string) (row : Challenge)
    : Store * option string :=
  if bool_decide (is_Some (passkey_challenges s !! id))
     || existsb (λ kv, String.eqb (ch_challenge kv.2) (ch_challenge row))
          (map_to_list (passkey_challenges s))
  then (s, None)
  else (set_challenges s (<[id := row]> (passkey_challenges s)), Some id).

(** [users.find((u) => u.email === email)] over [listUsers()]. The call
    has no paging arguments, so what comes back is the one page of users
    that the identity provider lists first; [listUsers] is that page, as a
    function of all the users. *)
Definition find_user_by_email (listUsers : list User → list User)
    (s : Store) (email : option string) : option User :=
  List.find (λ u, bool_decide (Some (u_email u) = email))
    (listUsers (auth_users s)).

(** A nullable [VARCHAR(n)] column. *)
Definition nullable_varchar (n : nat) (v : option string)
    : option (option string) :=
  match v with
  | Some text => Some <$> varchar n text
  | None => Some None
  end.

(** [auth.admin.getUserById(id)]. *)
Definition getUserById (s : Store) (id : string) : option User :=
  List.find (λ u, bool_decide (u_id u = id)) (auth_users s).

(** The rows of [passkey_credentials] that satisfy a filter, with their
    keys. *)
Definition select_credentials (s : Store) (P : string → Credential → bool)
    : list (string * Credential) :=
  List.filter (λ kv, P kv.1 kv.2) (map_to_list (passkey_credentials s)).

Definition to_passkey (id : string) (c : Credential) : Passkey :=
  {| pk_id := id;
     pk_authenticatorName := cr_authenticator_name c;
     pk_deviceType := cr_device_type c;
     pk_backedUp := cr_backed_up c;
     pk_createdAt := cr_created_at c;
     pk_lastUsedAt := cr_last_used_at c |}.

(** [.update({ counter, last_used_at })]. *)
Definition with_counter (newCounter now : Z) (c : Credential) : Credential :=
  {| cr_user_id := cr_user_id c;
     cr_webauthn_user_id := cr_webauthn_user_id c;
     cr_public_key := cr_public_key c;
     cr_counter := newCounter;
     cr_device_type := cr_device_type c;
     cr_backed_up := cr_backed_up c;
     cr_transports := cr_transports c;
     cr_authenticator_name := cr_authenticator_name c;
     cr_created_at := cr_created_at c;
     cr_last_used_at := Some now |}.

(** [.update({ authenticator_name })]. *)
Definition with_authenticator_name (name : string) (c : Credential) : Credential :=
  {| cr_user_id := cr_user_id c;
     cr_webauthn_user_id := cr_webauthn_user_id c;
     cr_public_key := cr_public_key c;
     cr_counter := cr_counter c;
     cr_device_type := cr_device_type c;
     cr_backed_up := cr_backed_up c;
     cr_transports := cr_transports c;
     cr_authenticator_name := Some name;
     cr_created_at := cr_created_at c;
     cr_last_used_at := cr_last_used_at c |}.

(** A JavaScript string is truthy unless it is empty; [undefined] is not. *)
Definition truthy (v : option string) : bool :=
  match v with
  | Some x => negb (String.eqb x EmptyString)
  | None => false
  end.

(** [a || b] on optional strings. *)
Definition or_else (a b : option string) : option string :=
  if truthy a then a else b.

(** [generateRegistrationOptions({...})]: the builder returns its inputs
    together with a fresh nonce as [challenge]. *)
Definition generateRegistrationOptions (env : Env) (rpName rpID : string)
    (userName : option string) (userID : string)
    (excludeCredentials : list string) : RegistrationOptions :=
  {| ro_challenge := nonce env; ro_rpName := rpName; ro_rpID := rpID;
     ro_userName := userName; ro_userID := userID;
     ro_excludeCredentials := excludeCredentials |}.

Definition generateAuthenticationOptions (env : Env) (rpID : string)
    (allowCredentials : option (list string)) : AuthenticationOptions :=
  {| ao_challenge := nonce env; ao_rpID := rpID;
     ao_allowCredentials := allowCredentials |}.

(** [new Date(Date.now() + CHALLENGE_TTL_MINUTES * 60 * 1000)]. *)
Definition expiresAt (env : Env) : Z := now env + CHALLENGE_TTL_MINUTES * 60 * 1000.

(** [ORDER BY created_at DESC]. *)
Definition created_desc (a b : string * Credential) : Prop :=
  cr_created_at b.2 ≤ cr_created_at a.2.

#[global] Instance created_desc_dec : RelDecision created_desc.
Proof. intros a b. unfold created_desc. apply _. Defined.

(** *** The handler *)

Section Handler.

(** PostgreSQL's input function of the type INET, see
    [log_passkey_audit_event]. *)
Variable inet_in : string → bool.

(** The identity provider: the page of users that [listUsers()] returns,
    and whether [createUser] takes a text for an email address. *)
Variable listUsers : list User → list User.
Variable valid_email : string → bool.

(** [verifyRegistrationResponse({ response, expectedChallenge,
    expectedOrigin, expectedRPID })]. *)
Variable verifyRegistrationResponse :
  option AuthenticatorResponse → string → string → string →
  outcome VerifiedRegistrationResponse.

(** [verifyAuthenticationResponse({ response, expectedChallenge,
    expectedOrigin, expectedRPID, credential: { id, publicKey, counter } })]. *)
Variable verifyAuthenticationResponse :
  AuthenticatorResponse → string → string → string →
  string → string → Z → outcome VerifiedAuthenticationResponse.

(** [auth.admin.generateLink({ type: 'magiclink', email })]: [None] when
    no link data comes back, else [properties?.hashed_token]. *)
Variable generateLink : option string → option (option string).

(** [case '/register/start']. *)
Definition register_start (s : Store) (env : Env) (req : Request)
    : Store * Response :=
  let '(limits, ipBlocked) :=
    check_passkey_rate_limit (passkey_rate_limits s) (now env)
      (clientIP req) ip (endpoint req) RATE_LIMITS_ip_maxAttempts in
  let s := set_rate_limits s limits in
  if rejected ipBlocked then (s, ok (error "RATE_LIMITED" "Too many requests"))
  else
    let webauthnUserId := webauthnUserId env in
    let existingUser :=
      take 1 (select_credentials s
                (λ _ c, String.eqb (cr_webauthn_user_id c) webauthnUserId)) in
    let excludeCredentials := map fst existingUser in
    let options :=
      generateRegistrationOptions env (rpName req) (rpId req) (email req)
        webauthnUserId excludeCredentials in
    let '(s, challenge) :=
      insert_challenge s (uuid env)
        {| ch_challenge := ro_challenge options;
           ch_email := email req;
           ch_webauthn_user_id := Some webauthnUserId;
           ch_type := registration;
           ch_expires_at := expiresAt env |} in
    let s :=
      log_passkey_audit_event inet_in s
        {| event_type := registration_started; p_user_id := None;
           p_credential_id := None; p_email := email req;
           p_ip_address := Some (clientIP req);
           p_origin := Some (origin req); p_error_message := None |} in
    match challenge with
    | Some id => (s, ok (success (RegisterStarted options id)))
    | None => (s, internal_error)
    end.

(** [auth.admin.createUser({ email, email_confirm: true })] followed by
    [newUser.user!.id]. The provider creates no user without an email,
    for a text it does not take for an email address, or for an email that
    a user already has; then [newUser.user] is [null] and the read
    throws. *)
Definition createUser (env : Env) (email : option string) : Try string :=
  λ s,
    match email with
    | Some e =>
        if valid_email e && negb (bool_decide (e ∈ u_email <$> auth_users s))
        then
          (set_users s
             (auth_users s ++ [{| u_id := new_user_id env; u_email := e |}]),
           Returns (new_user_id env))
        else (s, Throws (TypeError "id"))
    | None => (s, Throws (TypeError "id"))
    end.

(** [.from('passkey_credentials').insert({...}).select().single()]: no
    row comes back when the primary key is taken, the NOT NULL
    [webauthn_user_id] is missing, or the label does not fit
    [authenticator_name VARCHAR(255)]. *)
Definition insert_credential (env : Env) (challenge : Challenge)
    (userId : string) (authenticatorName : option string)
    (info : RegistrationInfo) : Try (option Passkey) :=
  λ s,
    match passkey_credentials s !! ri_id info, ch_webauthn_user_id challenge,
          nullable_varchar 255 authenticatorName with
    | None, Some handle, Some authenticator_name =>
        let row :=
          {| cr_user_id := userId;
             cr_webauthn_user_id := handle;
             cr_public_key := ri_publicKey info;
             cr_counter := ri_counter info;
             cr_device_type := ri_deviceType info;
             cr_backed_up := ri_backedUp info;
             cr_transports := ri_transports info;
             cr_authenticator_name := authenticator_name;
             cr_created_at := now env;
             cr_last_used_at := None |} in
        (set_credentials s (<[ri_id info := row]> (passkey_credentials s)),
         Returns (Some (to_passkey (ri_id info) row)))
    | _, _, _ => (s, Returns None)
    end.

(** The [try] block of [case '/register/finish']. *)
Definition register_finish_try (env : Env) (req : Request)
    (challenge : Challenge) : Try ApiResponse :=
  verification ← lift (verifyRegistrationResponse (authResponse req)
                         (ch_challenge challenge) (origin req) (rpId req));
  info ← match vr_verified verification, vr_registrationInfo verification with
         | true, Some info => mret info
         | _, _ => throw "Verification failed"
         end;
  s ← read;
  userId ← match find_user_by_email listUsers s (ch_email challenge) with
           | Some existingUser => mret (u_id existingUser)
           | None => createUser env (ch_email challenge)
           end;
  let authenticatorName := or_else (authenticatorName req) None in
  insertedCred ← insert_credential env challenge userId authenticatorName info;
  let linkData := generateLink (ch_email challenge) in
  _ ← write (λ s, log_passkey_audit_event inet_in s
             {| event_type := registration_completed;
                p_user_id := Some userId;
                p_credential_id := Some (ri_id info);
                p_email := ch_email challenge;
                p_ip_address := Some (clientIP req);
                p_origin := None; p_error_message := None |});
  match linkData with
  | Some hashed_token => mret (success (RegisterFinished hashed_token insertedCred))
  | None => throw (TypeError "properties")
  end.

(** [case '/register/finish']. *)
Definition register_finish (s : Store) (env : Env) (req : Request)
    : Store * Response :=
  let challenge := select_challenge s (challengeId req) registration in
  let s := delete_challenge s (challengeId req) in
  match challenge with
  | None => (s, ok (error "CHALLENGE_MISMATCH" "Invalid or expired challenge"))
  | Some challenge =>
      if ch_expires_at challenge <? now env then
        (log_passkey_audit_event inet_in s
           {| event_type := challenge_expired; p_user_id := None;
              p_credential_id := None; p_email := ch_email challenge;
              p_ip_address := Some (clientIP req);
              p_origin := None; p_error_message := None |},
         ok (error "CHALLENGE_EXPIRED" "Challenge has expired"))
      else
        match register_finish_try env req challenge s with
        | (s, Returns result) => (s, ok result)
        | (s, Throws e) =>
            (log_passkey_audit_event inet_in s
               {| event_type := registration_failed; p_user_id := None;
                  p_credential_id := None; p_email := ch_email challenge;
                  p_ip_address := Some (clientIP req);
                  p_origin := None; p_error_message := Some e |},
             ok (error "VERIFICATION_FAILED" "Registration verification failed"))
        end
  end.

(** [case '/login/start']. *)
Definition login_start (s : Store) (env : Env) (req : Request)
    : Store * Response :=
  let '(limits, ipBlocked) :=
    check_passkey_rate_limit (passkey_rate_limits s) (now env)
      (clientIP req) ip (endpoint req) RATE_LIMITS_ip_maxAttempts in
  let s := set_rate_limits s limits in
  if rejected ipBlocked then (s, ok (error "RATE_LIMITED" "Too many requests"))
  else
    let userEmail := email req in
    let continue (allowCredentials : option (list string)) :=
      let options := generateAuthenticationOptions env (rpId req) allowCredentials in
      let '(s, challenge) :=
        insert_challenge s (uuid env)
          {| ch_challenge := ao_challenge options;
             ch_email := userEmail;
             ch_webauthn_user_id := None;
             ch_type := authentication;
             ch_expires_at := expiresAt env |} in
      let s :=
        log_passkey_audit_event inet_in s
          {| event_type := authentication_started; p_user_id := None;
             p_credential_id := None; p_email := userEmail;
             p_ip_address := Some (clientIP req);
             p_origin := None; p_error_message := None |} in
      match challenge with
      | Some id => (s, ok (success (LoginStarted options id)))
      | None => (s, internal_error)
      end in
    if truthy (email req) then
      match find_user_by_email listUsers s (email req) with
      | None => (s, ok (error "CREDENTIAL_NOT_FOUND" "No passkey found for this email"))
      | Some user =>
          let credentials :=
            select_credentials s (λ _ c, String.eqb (cr_user_id c) (u_id user)) in
          match credentials with
          | [] => (s, ok (error "CREDENTIAL_NOT_FOUND" "No passkey found for this email"))
          | _ => continue (Some (map fst credentials))
          end
      end
    else continue None.

(** The [try] block of [case '/login/finish']. *)
Definition login_finish_try (env : Env) (req : Request)
    (challenge : Challenge) (response : AuthenticatorResponse)
    (credentialId : string) (credential : Credential) : Try ApiResponse :=
  verification ← lift (verifyAuthenticationResponse response
                         (ch_challenge challenge) (origin req) (rpId req)
                         credentialId (cr_public_key credential)
                         (cr_counter credential));
  _ ← (if va_verified verification then mret tt
       else throw "Verification failed");
  _ ← write (λ s, set_credentials s
             (alter (with_counter (va_newCounter verification) (now env))
                credentialId (passkey_credentials s)));
  s ← read;
  let userEmail :=
    or_else (u_email <$> getUserById s (cr_user_id credential))
            (ch_email challenge) in
  let linkData := generateLink userEmail in
  _ ← write (λ s, log_passkey_audit_event inet_in s
             {| event_type := authentication_completed;
                p_user_id := Some (cr_user_id credential);
                p_credential_id := Some credentialId;
                p_email := None;
                p_ip_address := Some (clientIP req);
                p_origin := None; p_error_message := None |});
  match linkData with
  | Some hashed_token => mret (success (LoginFinished hashed_token userEmail))
  | None => throw (TypeError "properties")
  end.

(** [case '/login/finish']. *)
Definition login_finish (s : Store) (env : Env) (req : Request)
    : Store * Response :=
  let challenge := select_challenge s (challengeId req) authentication in
  let s := delete_challenge s (challengeId req) in
  match challenge with
  | None => (s, ok (error "CHALLENGE_MISMATCH" "Invalid or expired challenge"))
  | Some challenge =>
      if ch_expires_at challenge <? now env then
        (s, ok (error "CHALLENGE_EXPIRED" "Challenge has expired"))
      else
        match authResponse req with
        | None => (s, internal_error)
        | Some response =>
            let credentialId := ar_id response in
            match passkey_credentials s !! credentialId with
            | None => (s, ok (error "CREDENTIAL_NOT_FOUND" "Credential not found"))
            | Some credential =>
                match login_finish_try env req challenge response
                        credentialId credential s with
                | (s, Returns result) => (s, ok result)
                | (s, Throws e) =>
                    (log_passkey_audit_event inet_in s
                       {| event_type := authentication_failed;
                          p_user_id := None;
                          p_credential_id := Some credentialId;
                          p_email := None;
                          p_ip_address := Some (clientIP req);
                          p_origin := None; p_error_message := Some e |},
                     ok (error "VERIFICATION_FAILED"
                           "Authentication verification failed"))
                end
            end
        end
  end.

(** [case '/passkeys/list']. *)
Definition passkeys_list (s : Store) (req : Request) : Store * Response :=
  match caller req with
  | None => (s, ok (error "UNAUTHORIZED" "Authentication required"))
  | Some user =>
      let credentials :=
        merge_sort created_desc
          (select_credentials s (λ _ c, String.eqb (cr_user_id c) user)) in
      (s, ok (success (Passkeys (map (λ kv, to_passkey kv.1 kv.2) credentials))))
  end.

(** [.delete().eq('id', id).eq('user_id', user)]. *)
Definition delete_credential (s : Store) (id user : string) : Store :=
  match passkey_credentials s !! id with
  | Some row =>
      if String.eqb (cr_user_id row) user
      then set_credentials s (delete id (passkey_credentials s))
      else s
  | None => s
  end.

(** [case '/passkeys/remove']. *)
Definition passkeys_remove (s : Store) (req : Request) : Store * Response :=
  match caller req with
  | None => (s, ok (error "UNAUTHORIZED" "Authentication required"))
  | Some user =>
      let removeCredId := credentialId req in
      let s := delete_credential s removeCredId user in
      let s :=
        log_passkey_audit_event inet_in s
          {| event_type := passkey_removed; p_user_id := Some user;
             p_credential_id := Some removeCredId; p_email := None;
             p_ip_address := Some (clientIP req);
             p_origin := None; p_error_message := None |} in
      (s, ok (success Removed))
  end.

(** [.update({ authenticator_name }).eq('id', id).eq('user_id', user)
    .select().single()]: the updated row, if one matched. A patch whose
    only field is [undefined] is empty and updates no row, and neither
    does a label that does not fit [authenticator_name VARCHAR(255)]. *)
Definition update_credential (s : Store) (id user : string)
    (authenticatorName : option string) : Store * option Credential :=
  match passkey_credentials s !! id, authenticatorName with
  | Some row, Some name =>
      if String.eqb (cr_user_id row) user then
        match varchar 255 name with
        | Some authenticator_name =>
            let row' := with_authenticator_name authenticator_name row in
            (set_credentials s (<[id := row']> (passkey_credentials s)),
             Some row')
        | None => (s, None)
        end
      else (s, None)
  | _, _ => (s, None)
  end.

(** [case '/passkeys/update']. *)
Definition passkeys_update (s : Store) (req : Request) : Store * Response :=
  match caller req with
  | None => (s, ok (error "UNAUTHORIZED" "Authentication required"))
  | Some user =>
      let updateCredId := credentialId req in
      let '(s, updated) :=
        update_credential s updateCredId user (authenticatorName req) in
      match updated with
      | None => (s, ok (error "CREDENTIAL_NOT_FOUND" "Passkey not found"))
      | Some row =>
          let s :=
            log_passkey_audit_event inet_in s
              {| event_type := passkey_updated; p_user_id := Some user;
                 p_credential_id := Some updateCredId; p_email := None;
                 p_ip_address := Some (clientIP req);
                 p_origin := None; p_error_message := None |} in
          (s, ok (success (Updated updateCredId row)))
      end
  end.

(** The [switch (endpoint)] of the handler. *)
Definition serve (s : Store) (env : Env) (req : Request) : Store * Response :=
  if String.eqb (endpoint req) "/register/start" then register_start s env req
  else if String.eqb (endpoint req) "/register/finish" then register_finish s env req
  else if String.eqb (endpoint req) "/login/start" then login_start s env req
  else if String.eqb (endpoint req) "/login/finish" then login_finish s env req
  else if String.eqb (endpoint req) "/passkeys/list" then passkeys_list s req
  else if String.eqb (endpoint req) "/passkeys/remove" then passkeys_remove s req
  else if String.eqb (endpoint req) "/passkeys/update" then passkeys_update s req
  else (s, ok (error "NOT_FOUND" ("Unknown endpoint: " +:+ endpoint req))).

(** A run of requests, each with its environment, from a store; the
    final store. *)
Fixpoint run (s : Store) (trace : list (Env * Request)) : Store :=
  match trace with
  | [] => s
  | (env, req) :: rest => run (serve s env req).1 rest
  end.

End Handler.

(** *** Predicates used in the statements *)

(** The two finish endpoints and the two begin endpoints. *)
Definition is_finish (ep : string) : Prop :=
  ep = "/register/finish" ∨ ep = "/login/finish".

Definition is_start (ep : string) : Prop :=
  ep = "/register/start" ∨ ep = "/login/start".

(** The IP-scoped check of a begin endpoint. *)
Definition ip_check (s : Store) (env : Env) (req : Request)
    : gmap window_key Z * option bool :=
  check_passkey_rate_limit (passkey_rate_limits s) (now env) (clientIP req)
    ip (endpoint req) RATE_LIMITS_ip_maxAttempts.

(** The email resolves to no account, or to an account that owns no
    stored credential. *)
Definition no_credentials_for (listUsers : list User → list User)
    (s : Store) (email : option string) : Prop :=
  match find_user_by_email listUsers s email with
  | None => True
  | Some user =>
      ∀ id c, passkey_credentials s !! id = Some c → cr_user_id c ≠ u_id user
  end.

End EdgeFunction.

(* ===================================================================== *)
(** ** Sample primitives, stores and requests *)
(* ===================================================================== *)

Module Samples.
Import EdgeFunction.

(** An inet reading for the scenarios: it accepts the dotted quads
    [a.b.c.d] of decimal numbers up to 255 and nothing else (PostgreSQL
    accepts more, a netmask and the IPv6 forms among it). [fields] counts
    the dots passed, [current] is the number being read. *)
Fixpoint dotted_quad (fields : nat) (current : option Z) (text : string) : bool :=
  match text with
  | EmptyString =>
      match current with
      | Some _ => Nat.eqb fields 3
      | None => false
      end
  | String c rest =>
      let n := Z.of_N (N_of_ascii c) in
      if (48 <=? n) && (n <=? 57) then
        let value := 10 * default 0 current + (n - 48) in
        if 255 <? value then false else dotted_quad fields (Some value) rest
      else if Ascii.eqb c "." then
        match current with
        | Some _ => dotted_quad (S fields) None rest
        | None => false
        end
      else false
  end.

Definition inet_in (text : string) : bool := dotted_quad 0 None text.

(** An identity provider for the scenarios: [listUsers()] returns the
    first fifty users, and an email address is a text with an [@]. *)
Definition listUsers (users : list User) : list User := take 50 users.

Definition valid_email (text : string) : bool := Js.includes text "@".

(** A verifier for the scenarios: a response is accepted when its payload
    is the expected challenge and, at authentication, its counter passes
    the verifier's test. The test is the one of @simplewebauthn/server: a
    counter that is not above the stored one is refused unless both are 0,
    the value of an authenticator that keeps no counter. *)
Definition verifyRegistration (response : option AuthenticatorResponse)
    (expectedChallenge expectedOrigin expectedRPID : string)
    : outcome VerifiedRegistrationResponse :=
  match response with
  | Some r =>
      if String.eqb (ar_payload r) expectedChallenge then
        Returns {| vr_verified := true;
                   vr_registrationInfo :=
                     Some {| ri_id := ar_id r; ri_publicKey := "a5010203";
                             ri_counter := ar_signCount r; ri_transports := [];
                             ri_deviceType := multiDevice; ri_backedUp := false |} |}
      else Throws "Unexpected registration response challenge"
  | None => Throws (TypeError "id")
  end.

Definition verifyAuthentication (r : AuthenticatorResponse)
    (expectedChallenge expectedOrigin expectedRPID id publicKey : string)
    (counter : Z) : outcome VerifiedAuthenticationResponse :=
  if ((0 <? ar_signCount r) || (0 <? counter)) && (ar_signCount r <=? counter)
  then Throws "Response counter value was lower than expected"
  else if String.eqb (ar_payload r) expectedChallenge then
    Returns {| va_verified := true; va_newCounter := ar_signCount r |}
  else Throws "Unexpected authentication response challenge".

Definition generateLink (email : option string) : option (option string) :=
  match email with
  | Some e => Some (Some ("token-" +:+ e))
  | None => None
  end.

(** The handler with these primitives. *)
Definition handle : Store → Env → Request → Store * Response :=
  serve inet_in listUsers valid_email
    verifyRegistration verifyAuthentication generateLink.


Definition alice : User := {| u_id := "user-a"; u_email := "alice@example.com" |}.
Definition bob : User := {| u_id := "user-b"; u_email := "bob@example.com" |}.
Definition carol : User := {| u_id := "user-c"; u_email := "carol@example.com" |}.

Definition credential_of (user handle name : string) (counter : Z) : Credential :=
  {| cr_user_id := user; cr_webauthn_user_id := handle;
     cr_public_key := "a5010203"; cr_counter := counter;
     cr_device_type := multiDevice; cr_backed_up := false;
     cr_transports := []; cr_authenticator_name := Some name;
     cr_created_at := 1000; cr_last_used_at := None |}.

Definition challenge_of (ty : challenge_type) (nonce : string) (expires : Z)
    : Challenge :=
  {| ch_challenge := nonce; ch_email := Some "alice@example.com";
     ch_webauthn_user_id := Some "handle-a2"; ch_type := ty;
     ch_expires_at := expires |}.

(** Alice and Bob each own one credential, Carol owns none; one
    registration and one authentication challenge are pending until
    t = 400000, and one of each kind expired at t = 100000. *)
Definition store : Store :=
  {| passkey_challenges :=
       <["ch-reg" := challenge_of registration "nonce-1" 400000]>
       (<["ch-auth" := challenge_of authentication "nonce-2" 400000]>
       (<["ch-reg-old" := challenge_of registration "nonce-3" 100000]>
       (<["ch-auth-old" := challenge_of authentication "nonce-4" 100000]> ∅)));
     passkey_credentials :=
       <["cred-a" := credential_of "user-a" "handle-a" "Alice's key" 7]>
       (<["cred-b" := credential_of "user-b" "handle-b" "Bob's key" 0]> ∅);
     passkey_rate_limits := ∅;
     passkey_audit_log := [];
     auth_users := [alice; bob; carol] |}.

Definition env : Env :=
  {| now := 200000; webauthnUserId := "handle-new"; nonce := "nonce-9";
     uuid := "ch-new"; new_user_id := "user-new" |}.

Definition request (ep : string) : Request :=
  {| endpoint := ep; clientIP := "10.0.0.1"; origin := "https://app.example";
     caller := None; rpId := "app.example"; rpName := "App";
     email := None; challengeId := "undefined"; authResponse := None;
     authenticatorName := None; credentialId := "undefined" |}.

Definition with_email (e : string) (r : Request) : Request :=
  {| endpoint := endpoint r; clientIP := clientIP r; origin := origin r;
     caller := caller r; rpId := rpId r; rpName := rpName r;
     email := Some e; challengeId := challengeId r;
     authResponse := authResponse r;
     authenticatorName := authenticatorName r; credentialId := credentialId r |}.

Definition with_challenge (id : string) (resp : option AuthenticatorResponse)
    (r : Request) : Request :=
  {| endpoint := endpoint r; clientIP := clientIP r; origin := origin r;
     caller := caller r; rpId := rpId r; rpName := rpName r;
     email := email r; challengeId := id; authResponse := resp;
     authenticatorName := authenticatorName r; credentialId := credentialId r |}.

Definition as_caller (user id : string) (name : option string) (r : Request)
    : Request :=
  {| endpoint := endpoint r; clientIP := clientIP r; origin := origin r;
     caller := Some user; rpId := rpId r; rpName := rpName r;
     email := email r; challengeId := challengeId r;
     authResponse := authResponse r;
     authenticatorName := name; credentialId := id |}.

Definition response_of (id payload : string) (signCount : Z) : AuthenticatorResponse :=
  {| ar_id := id; ar_signCount := signCount; ar_payload := payload |}.

(** The same store after the client at 10.0.0.1 has used up its five
    attempts of the current minute on each endpoint. *)
Definition flooded : Store :=
  set_rate_limits store
    (<[("10.0.0.1", ip, "/register/start", 180000) := 5]>
    (<[("10.0.0.1", ip, "/register/finish", 180000) := 5]>
    (<[("10.0.0.1", ip, "/login/start", 180000) := 5]>
    (<[("10.0.0.1", ip, "/login/finish", 180000) := 5]> ∅)))).

(** *** Requests *)

Definition finish_login_fresh : Request :=
  with_challenge "ch-auth" (Some (response_of "cred-a" "nonce-2" 8))
    (request "/login/finish").

Definition finish_login_stale : Request :=
  with_challenge "ch-auth" (Some (response_of "cred-a" "nonce-2" 7))
    (request "/login/finish").

(** A response for Bob's credential, stored with counter 0, that carries
    counter 0. *)
Definition finish_login_zero : Request :=
  with_challenge "ch-auth" (Some (response_of "cred-b" "nonce-2" 0))
    (request "/login/finish").

Definition finish_login_expired : Request :=
  with_challenge "ch-auth-old" (Some (response_of "cred-a" "nonce-4" 8))
    (request "/login/finish").

Definition finish_register_expired : Request :=
  with_challenge "ch-reg-old" (Some (response_of "cred-n" "nonce-3" 0))
    (request "/register/finish").

Definition finish_register : Request :=
  with_challenge "ch-reg" (Some (response_of "cred-n" "nonce-1" 0))
    (request "/register/finish").

Definition finish_login_on_registration : Request :=
  with_challenge "ch-reg" (Some (response_of "cred-a" "nonce-1" 8))
    (request "/login/finish").

Definition start_register_alice : Request :=
  with_email "alice@example.com" (request "/register/start").

Definition start_login_carol : Request :=
  with_email "carol@example.com" (request "/login/start").

Definition start_login_dave : Request :=
  with_email "dave@example.com" (request "/login/start").

Definition alice_removes_bobs : Request :=
  as_caller "user-a" "cred-b" None (request "/passkeys/remove").

Definition alice_renames_bobs : Request :=
  as_caller "user-a" "cred-b" (Some "Mine") (request "/passkeys/update").

End Samples.

(* ===================================================================== *)
(** ** The migration: [cleanup_expired_passkey_challenges]; runs of requests *)
(* ===================================================================== *)

Module Housekeeping.
Import EdgeFunction.

(** [DELETE FROM public.passkey_challenges WHERE expires_at < NOW()], with
    [GET DIAGNOSTICS deleted_count = ROW_COUNT]: the store without the rows
    that have expired, and the number of rows deleted. *)
Definition cleanup_expired_passkey_challenges (s : Store) (now : Z)
    : Store * Z :=
  let expired := filter (λ kv, ch_expires_at kv.2 < now) (passkey_challenges s) in
  let kept := filter (λ kv, ¬ ch_expires_at kv.2 < now) (passkey_challenges s) in
  (set_challenges s kept, Z.of_nat (size expired)).

(** The UNIQUE constraint on [passkey_challenges.challenge]: no two rows
    carry the same nonce. *)
Definition nonces_unique (s : Store) : Prop :=
  ∀ i j ri rj,
    passkey_challenges s !! i = Some ri →
    passkey_challenges s !! j = Some rj →
    ch_challenge ri = ch_challenge rj → i = j.

(** No two users of the identity provider share an email. *)
Definition emails_unique (s : Store) : Prop :=
  NoDup (u_email <$> auth_users s).

(** What a request leaves of a stored credential: the row is still there
    with the same owner, key, handle and creation time, or it has been
    removed through the remove endpoint by its owner. *)
Definition credential_kept_or_removed_by_owner (req : Request)
    (id : string) (c : Credential) (after : option Credential) : Prop :=
  match after with
  | Some c' =>
      cr_user_id c' = cr_user_id c
      ∧ cr_public_key c' = cr_public_key c
      ∧ cr_webauthn_user_id c' = cr_webauthn_user_id c
      ∧ cr_created_at c' = cr_created_at c
  | None =>
      endpoint req = "/passkeys/remove"
      ∧ caller req = Some (cr_user_id c)
      ∧ credentialId req = id
  end.

(** [l'] is [l] with at most [n] rows appended. *)
Definition appended (n : nat) (l l' : list AuditEvent) : Prop :=
  ∃ evs, l' = l ++ evs ∧ (length evs ≤ n)%nat.

Section Runs.

Variable inet_in : string → bool.
Variable listUsers : list User → list User.
Variable valid_email : string → bool.
Variable verifyRegistrationResponse :
  option AuthenticatorResponse → string → string → string →
  outcome VerifiedRegistrationResponse.
Variable verifyAuthenticationResponse :
  AuthenticatorResponse → string → string → string →
  string → string → Z → outcome VerifiedAuthenticationResponse.
Variable generateLink : option string → option (option string).

(** The responses of a run of requests, in order. *)
Fixpoint responses (s : Store) (trace : list (Env * Request)) : list Response :=
  match trace with
  | [] => []
  | (env, req) :: rest =>
      let '(s', r) :=
        serve inet_in listUsers valid_email verifyRegistrationResponse verifyAuthenticationResponse
          generateLink s env req in
      r :: responses s' rest
  end.

End Runs.

End Housekeeping.

(* ===================================================================== *)
(** ** JavaScript text: white space, trimming, splitting, regular expressions *)
(* ===================================================================== *)

Module JsText.

(** WhiteSpace and LineTerminator code units below 256: TAB, LF, VT, FF,
    CR, SP and NBSP. The same set is [\s] in a regular expression. *)
Definition is_whitespace (c : ascii) : bool :=
  let n := N_of_ascii c in
  ((9 <=? n) && (n <=? 13) || (n =? 32) || (n =? 160))%N.

Fixpoint trimStart (s : string) : string :=
  match s with
  | EmptyString => EmptyString
  | String c s' => if is_whitespace c then trimStart s' else s
  end.

(** [s] without its longest suffix of characters that satisfy [p]. *)
Fixpoint strip_trailing (p : ascii → bool) (s : string) : string :=
  match s with
  | EmptyString => EmptyString
  | String c s' =>
      match strip_trailing p s' with
      | EmptyString => if p c then EmptyString else String c EmptyString
      | t => String c t
      end
  end.

Definition trimEnd (s : string) : string := strip_trailing is_whitespace s.

(** [s.trim()]. *)
Definition trim (s : string) : string := trimEnd (trimStart s).

(** [s.split(sep)[0]] for a one-character separator: the part before its
    first occurrence, or all of [s]. *)
Fixpoint split_first (sep : ascii) (s : string) : string :=
  match s with
  | EmptyString => EmptyString
  | String c s' =>
      if Ascii.eqb c sep then EmptyString else String c (split_first sep s')
  end.

(** The last character of [s]. *)
Fixpoint last_char (s : string) : option ascii :=
  match s with
  | EmptyString => None
  | String c EmptyString => Some c
  | String _ s' => last_char s'
  end.

(** Every character of [s] satisfies [p]. *)
Fixpoint all_chars (p : ascii → bool) (s : string) : bool :=
  match s with
  | EmptyString => true
  | String c s' => p c && all_chars p s'
  end.

(** [s.replace(pattern, replacement)] with a string pattern: the first
    occurrence is replaced. *)
Fixpoint drop_chars (n : nat) (s : string) : string :=
  match n, s with
  | S n', String _ s' => drop_chars n' s'
  | _, _ => s
  end.

Fixpoint replace_first (pattern replacement s : string) : string :=
  if String.prefix pattern s
  then replacement +:+ drop_chars (String.length pattern) s
  else match s with
       | EmptyString => EmptyString
       | String c s' => String c (replace_first pattern replacement s')
       end.

(** Regular expressions without captures, as far as the sources use them:
    character classes, sequence, alternative, repetition. *)
Inductive regex :=
| Void
| Eps
| Class (p : ascii → bool)
| Cat (r1 r2 : regex)
| Alt (r1 r2 : regex)
| Star (r : regex).

(** [r+]. *)
Definition Plus (r : regex) : regex := Cat r (Star r).

Fixpoint nullable (r : regex) : bool :=
  match r with
  | Void => false
  | Eps => true
  | Class _ => false
  | Cat r1 r2 => nullable r1 && nullable r2
  | Alt r1 r2 => nullable r1 || nullable r2
  | Star _ => true
  end.

(** The derivative of [r] by the character [c]. *)
Fixpoint deriv (c : ascii) (r : regex) : regex :=
  match r with
  | Void => Void
  | Eps => Void
  | Class p => if p c then Eps else Void
  | Cat r1 r2 =>
      if nullable r1
      then Alt (Cat (deriv c r1) r2) (deriv c r2)
      else Cat (deriv c r1) r2
  | Alt r1 r2 => Alt (deriv c r1) (deriv c r2)
  | Star r1 => Cat (deriv c r1) (Star r1)
  end.

(** [/^r$/.test(s)]: the whole of [s] matches [r]. *)
Fixpoint test (r : regex) (s : string) : bool :=
  match s with
  | EmptyString => nullable r
  | String c s' => test (deriv c r) s'
  end.

(** The strings a regular expression denotes. *)
Inductive matches : regex → string → Prop :=
| matches_eps : matches Eps EmptyString
| matches_class p c : p c = true → matches (Class p) (String c EmptyString)
| matches_cat r1 r2 s1 s2 :
    matches r1 s1 → matches r2 s2 → matches (Cat r1 r2) (s1 +:+ s2)
| matches_alt_l r1 r2 s : matches r1 s → matches (Alt r1 r2) s
| matches_alt_r r1 r2 s : matches r2 s → matches (Alt r1 r2) s
| matches_star_nil r : matches (Star r) EmptyString
| matches_star_cons r s1 s2 :
    matches r s1 → matches (Star r) s2 → matches (Star r) (s1 +:+ s2).

End JsText.

(* ===================================================================== *)
(** ** packages/client/src/lib/errors.ts: validation and the message catalog *)
(* ===================================================================== *)

Module Validation.
Import Js JsText.

(** [[^\s@]]. *)
Definition not_space_or_at (c : ascii) : bool :=
  negb (is_whitespace c) && negb (Ascii.eqb c "@").

(** [EMAIL_REGEX = /^[^\s@]+@[^\s@]+\.[^\s@]+$/]. *)
Definition EMAIL_REGEX : regex :=
  Cat (Plus (Class not_space_or_at))
    (Cat (Class (Ascii.eqb "@"))
       (Cat (Plus (Class not_space_or_at))
          (Cat (Class (Ascii.eqb "."))
             (Plus (Class not_space_or_at))))).

Definition isValidEmail (email : string) : bool := test EMAIL_REGEX email.

(** A non-empty run of characters other than white space and [@]. *)
Definition plain (s : string) : Prop :=
  s ≠ EmptyString ∧ all_chars not_space_or_at s = true.

(** [{ valid: true } | { valid: false; message }]. *)
Inductive validation :=
| valid
| invalid (message : string).

Definition validateEmail (email : value) : validation :=
  match email with
  | Null | Undefined => invalid "Email is required"
  | Str s =>
      if String.eqb (trim s) EmptyString then invalid "Email cannot be empty"
      else if negb (isValidEmail s) then invalid "Invalid email format"
      else valid
  | _ => invalid "Email must be a string"
  end.

Definition validateCredentialId (credentialId : value) : validation :=
  match credentialId with
  | Null | Undefined => invalid "Credential ID is required"
  | Str s =>
      if String.eqb (trim s) EmptyString
      then invalid "Credential ID cannot be empty"
      else valid
  | _ => invalid "Credential ID must be a string"
  end.

Definition validateAuthenticatorName (name : value) : validation :=
  match name with
  | Null | Undefined => invalid "Authenticator name is required"
  | Str s =>
      if String.eqb (trim s) EmptyString
      then invalid "Authenticator name cannot be empty"
      else valid
  | _ => invalid "Authenticator name must be a string"
  end.

(** The object literal [messages] of [getErrorMessage]. *)
Definition messages : list (string * string) :=
  [ ("NOT_SUPPORTED", "Passkeys are not supported on this device or browser.");
    ("INVALID_INPUT", "Invalid input provided.");
    ("CANCELLED", "The operation was cancelled.");
    ("TIMEOUT", "The operation timed out. Please try again.");
    ("INVALID_STATE", "A passkey for this account already exists on this device.");
    ("SECURITY_ERROR", "The operation was blocked due to security restrictions.");
    ("CHALLENGE_EXPIRED", "Your session has expired. Please try again.");
    ("CHALLENGE_MISMATCH", "Verification failed. Please try again.");
    ("VERIFICATION_FAILED", "Authentication failed. Please try again.");
    ("CREDENTIAL_NOT_FOUND", "Passkey not found. It may have been removed.");
    ("USER_NOT_FOUND", "Account not found.");
    ("CREDENTIAL_EXISTS", "This passkey is already registered.");
    ("RATE_LIMITED", "Too many attempts. Please wait a moment and try again.");
    ("NETWORK_ERROR", "Network error. Please check your connection.");
    ("UNKNOWN_ERROR", "An unexpected error occurred. Please try again.") ].

(** The property names every object inherits from [Object.prototype]; a
    read of one of them on the literal yields that member, which is not a
    string. *)
Definition Object_prototype_members : list string :=
  [ "constructor"; "__defineGetter__"; "__defineSetter__"; "hasOwnProperty";
    "__lookupGetter__"; "__lookupSetter__"; "isPrototypeOf";
    "propertyIsEnumerable"; "toString"; "valueOf"; "__proto__";
    "toLocaleString" ].

Fixpoint own (key : string) (table : list (string * string)) : option string :=
  match table with
  | [] => None
  | (k, v) :: rest => if String.eqb key k then Some v else own key rest
  end.

(** [messages[code] || messages.UNKNOWN_ERROR]: [Some] of the string
    returned, or [None] when the read yields an inherited member. *)
Definition getErrorMessage (code : string) : option string :=
  match own code messages with
  | Some message =>
      if String.eqb message EmptyString then own "UNKNOWN_ERROR" messages
      else Some message
  | None =>
      if bool_decide (code ∈ Object_prototype_members) then None
      else own "UNKNOWN_ERROR" messages
  end.

(** The [code] property of a mapped error. *)
Definition code_of (v : value) : option string :=
  match v with
  | Object fields =>
      match get "code" fields with
      | Str code => Some code
      | _ => None
      end
  | _ => None
  end.

End Validation.

(* ===================================================================== *)
(** ** The edge function: helpers for headers and byte strings *)
(* ===================================================================== *)

Module Helpers.
Import JsText.

(** The three headers [getClientIP] reads; [None] when a header is absent. *)
Record Headers := {
  x_forwarded_for : option string;
  x_real_ip : option string;
  cf_connecting_ip : option string;
}.

(** [v || k] for an optional string [v] and a string [k]. *)
Definition or_string (v : option string) (k : string) : string :=
  match v with
  | Some x => if String.eqb x EmptyString then k else x
  | None => k
  end.

(** [request.headers.get('x-forwarded-for')?.split(',')[0]?.trim() ||
    request.headers.get('x-real-ip') ||
    request.headers.get('cf-connecting-ip') || '0.0.0.0']. *)
Definition getClientIP (h : Headers) : string :=
  or_string ((λ v, trim (split_first "," v)) <$> x_forwarded_for h)
    (or_string (x_real_ip h)
       (or_string (cf_connecting_ip h) "0.0.0.0")).

(** A [Uint8Array] is a list of integers from 0 to 255. *)
Definition is_byte (b : Z) : Prop := 0 ≤ b < 256.

Definition hex_digits : string := "0123456789abcdef".

Definition hex_digit (n : Z) : ascii :=
  default "0"%char (String.get (Z.to_nat n) hex_digits).

(** [b.toString(16)] for a byte: one or two digits, lower case. *)
Definition toString16 (b : Z) : string :=
  if b <? 16 then String (hex_digit b) EmptyString
  else String (hex_digit (b `div` 16))
         (String (hex_digit (b `mod` 16)) EmptyString).

Fixpoint repeat_char (c : ascii) (n : nat) : string :=
  match n with
  | O => EmptyString
  | S n' => String c (repeat_char c n')
  end.

(** [s.padStart(n, c)] for a one-character filler. *)
Definition padStart (n : nat) (c : ascii) (s : string) : string :=
  repeat_char c (n - String.length s) +:+ s.

(** [parts.join('')]. *)
Fixpoint join (parts : list string) : string :=
  match parts with
  | [] => EmptyString
  | p :: rest => p +:+ join rest
  end.

(** [Array.from(bytes).map((b) => b.toString(16).padStart(2, '0')).join('')]. *)
Definition uint8ArrayToHex (bytes : list Z) : string :=
  join (map (λ b, padStart 2 "0" (toString16 b)) bytes).

(** The value of a hexadecimal digit, in either case. *)
Definition hex_value (c : ascii) : option Z :=
  let n := Z.of_N (N_of_ascii c) in
  if (48 <=? n) && (n <=? 57) then Some (n - 48)
  else if (97 <=? n) && (n <=? 102) then Some (n - 87)
  else if (65 <=? n) && (n <=? 70) then Some (n - 55)
  else None.

(** The number denoted by the longest prefix of hexadecimal digits of
    [s], starting from [acc]; [None] if there is no digit at all. *)
Fixpoint parse_digits (acc : option Z) (s : string) : option Z :=
  match s with
  | EmptyString => acc
  | String c s' =>
      match hex_value c with
      | Some d => parse_digits (Some (16 * default 0 acc + d)) s'
      | None => acc
      end
  end.

(** [Number.parseInt(s, 16)]: leading white space is skipped, then an
    optional sign, then an optional [0x] or [0X], then as many digits as
    there are; [None] is NaN. *)
Definition parseInt16 (s : string) : option Z :=
  let s := trimStart s in
  let '(sign, s) :=
    match s with
    | String "-" s' => (-1, s')
    | String "+" s' => (1, s')
    | _ => (1, s)
    end in
  let s :=
    match s with
    | String "0" (String "x" s') => s'
    | String "0" (String "X" s') => s'
    | _ => s
    end in
  (λ n, sign * n) <$> parse_digits None s.

(** The conversion of a number stored into a [Uint8Array]: NaN gives 0,
    an integer is taken modulo 256. *)
Definition ToUint8 (v : option Z) : Z :=
  match v with
  | Some n => n `mod` 256
  | None => 0
  end.

(** The loop of [hexToUint8Array] from index [i]. An assignment past the
    end of a typed array has no effect, as [<[_:=_]>] on a list. *)
Fixpoint hex_loop (fuel i : nat) (hex : string) (bytes : list Z) : list Z :=
  match fuel with
  | O => bytes
  | S fuel' =>
      if (i <? String.length hex)%nat then
        hex_loop fuel' (i + 2) hex
          (<[(i / 2)%nat := ToUint8 (parseInt16 (String.substring i 2 hex))]> bytes)
      else bytes
  end.

(** [hexToUint8Array(hex)]: [new Uint8Array(hex.length / 2)] has the
    integer part of the quotient as its length. *)
Definition hexToUint8Array (hex : string) : list Z :=
  hex_loop (String.length hex) 0 hex
    (replicate (String.length hex / 2)%nat 0).

(** The stored form of a public key, ['\\x' + uint8ArrayToHex(bytes)], and
    its reading, [hexToUint8Array(stored.replace('\\x', ''))]. *)
Definition store_public_key (bytes : list Z) : string :=
  "\x" +:+ uint8ArrayToHex bytes.

Definition load_public_key (stored : string) : list Z :=
  hexToUint8Array (replace_first "\x" EmptyString stored).

(** [String.fromCharCode(...bytes)]. *)
Definition fromCharCode (bytes : list Z) : string :=
  fold_right (λ b s, String (ascii_of_N (Z.to_N b)) s) EmptyString bytes.

Definition base64_alphabet : string :=
  "ABCDEFGHIJKLMNOPQRSTUVWXYZabcdefghijklmnopqrstuvwxyz0123456789+/".

Definition base64_char (n : Z) : ascii :=
  default "="%char (String.get (Z.to_nat n) base64_alphabet).

Definition code (c : ascii) : Z := Z.of_N (N_of_ascii c).

(** [btoa(s)]: each group of three characters gives four sextets; a rest
    of one or two characters is padded with zero bits and [=]. *)
Fixpoint btoa (s : string) : string :=
  match s with
  | String a (String b (String c rest)) =>
      let n := 65536 * code a + 256 * code b + code c in
      String (base64_char (n `div` 262144))
        (String (base64_char ((n `div` 4096) `mod` 64))
           (String (base64_char ((n `div` 64) `mod` 64))
              (String (base64_char (n `mod` 64)) (btoa rest))))
  | String a (String b EmptyString) =>
      let n := 4 * (256 * code a + code b) in
      String (base64_char (n `div` 4096))
        (String (base64_char ((n `div` 64) `mod` 64))
           (String (base64_char (n `mod` 64)) (String "=" EmptyString)))
  | String a EmptyString =>
      let n := 16 * code a in
      String (base64_char (n `div` 64))
        (String (base64_char (n `mod` 64))
           (String "=" (String "=" EmptyString)))
  | EmptyString => EmptyString
  end.

(** [s.replace(/c/g, d)] for single characters. *)
Fixpoint replace_all (c d : ascii) (s : string) : string :=
  match s with
  | EmptyString => EmptyString
  | String x s' => String (if Ascii.eqb x c then d else x) (replace_all c d s')
  end.

(** [btoa(String.fromCharCode(...bytes)).replace(/\+/g, '-')
    .replace(/\//g, '_').replace(/=+$/, '')]. *)
Definition uint8ArrayToBase64Url (bytes : list Z) : string :=
  strip_trailing (Ascii.eqb "=")
    (replace_all "/" "_" (replace_all "+" "-" (btoa (fromCharCode bytes)))).

(** The characters of the URL-safe base64 alphabet. *)
Definition is_base64url (c : ascii) : bool :=
  let n := code c in
  (65 <=? n) && (n <=? 90) || (97 <=? n) && (n <=? 122)
  || (48 <=? n) && (n <=? 57) || (n =? 45) || (n =? 95).

(** What the two character replacements make of one character, and the
    three replacements applied to the base64 text of a string. *)
Definition url (c : ascii) : ascii :=
  let c1 := if Ascii.eqb c "+" then "-"%char else c in
  if Ascii.eqb c1 "/" then "_"%char else c1.

Definition base64url_of (s : string) : string :=
  strip_trailing (Ascii.eqb "=")
    (replace_all "/" "_" (replace_all "+" "-" (btoa s))).

(** The checks that are run over all 256 bytes and all 64 sextets: the
    text of byte [n] has two characters and reads back as [n]; sextet [n]
    is written as a character of the URL-safe alphabet other than [=]. *)
Definition byte_text_ok (n : nat) : bool :=
  let text := padStart 2 "0" (toString16 (Z.of_nat n)) in
  match text with
  | String _ (String _ EmptyString) =>
      ToUint8 (parseInt16 text) =? Z.of_nat n
  | _ => false
  end.

Definition sextet_ok (n : nat) : bool :=
  let c := url (base64_char (Z.of_nat n)) in
  is_base64url c && negb (Ascii.eqb "=" c).

End Helpers.

(* ===================================================================== *)
(** ** More scenarios: later requests, owners' calls, sample bytes *)
(* ===================================================================== *)

Module Journeys.
Import EdgeFunction Samples Helpers.

(** One minute after [env], and long after every pending challenge has
    expired. *)
Definition later : Env :=
  {| now := 260000; webauthnUserId := "handle-later"; nonce := "nonce-10";
     uuid := "ch-later"; new_user_id := "user-later" |}.

Definition much_later : Env :=
  {| now := 900000; webauthnUserId := "handle-last"; nonce := "nonce-11";
     uuid := "ch-last"; new_user_id := "user-last" |}.

Definition alice_lists : Request :=
  as_caller "user-a" "undefined" None (request "/passkeys/list").

Definition alice_removes_own : Request :=
  as_caller "user-a" "cred-a" None (request "/passkeys/remove").

Definition alice_renames_own : Request :=
  as_caller "user-a" "cred-a" (Some "Laptop") (request "/passkeys/update").

(** A label of 256 letters. *)
Definition long_label : string :=
  String.string_of_list_ascii (replicate 256 "x"%char).

Definition alice_renames_long : Request :=
  as_caller "user-a" "cred-a" (Some long_label) (request "/passkeys/update").

(** The same request from a client whose address the headers do not
    give: [getClientIP] then answers the text [unknown]. *)
Definition from_address (address : string) (r : Request) : Request :=
  {| endpoint := endpoint r; clientIP := address; origin := origin r;
     caller := caller r; rpId := rpId r; rpName := rpName r;
     email := email r; challengeId := challengeId r;
     authResponse := authResponse r;
     authenticatorName := authenticatorName r;
     credentialId := credentialId r |}.

Definition start_login_alice : Request :=
  with_email "alice@example.com" (request "/login/start").

(** The finish-call for the challenge that [start_register_alice] creates
    under [env]. *)
Definition finish_register_started : Request :=
  with_challenge "ch-new" (Some (response_of "cred-n" "nonce-9" 0))
    (request "/register/finish").

(** A registration whose authenticator reports the id of a credential that
    is already stored. *)
Definition finish_register_again : Request :=
  with_challenge "ch-reg" (Some (response_of "cred-a" "nonce-1" 0))
    (request "/register/finish").

(** Seven begin-calls from one address within one minute. *)
Definition burst : list (Env * Request) := replicate 7 (env, start_register_alice).

Definition forwarded : Headers :=
  {| x_forwarded_for := Some " 203.0.113.7 , 10.0.0.1";
     x_real_ip := Some "10.0.0.2"; cf_connecting_ip := None |}.

Definition key_bytes : list Z := [165; 1; 2; 3; 0; 255; 16; 15].

End Journeys.

(* ===================================================================== *)
(** ** Properties of the client error mapper *)
(* ===================================================================== *)

Module ClientErrorsFacts.
Import Js ClientErrors.

Lemma createError_isPasskeyError code message cause :
  isPasskeyError (createError code message cause) = true.
Proof. reflexivity. Qed.

Lemma elem_of_codes (code : string) :
  code ∈ [ "NOT_SUPPORTED"; "CANCELLED"; "TIMEOUT"; "INVALID_STATE";
           "SECURITY_ERROR"; "NETWORK_ERROR"; "UNKNOWN_ERROR" ] →
  code ∈ PasskeyErrorCode.
Proof. unfold PasskeyErrorCode. set_solver. Qed.

Lemma eqb_false_recognized name :
  String.eqb name "NotSupportedError" = false →
  String.eqb name "NotAllowedError" = false →
  String.eqb name "InvalidStateError" = false →
  String.eqb name "SecurityError" = false →
  String.eqb name "AbortError" = false →
  String.eqb name "TypeError" = false →
  name ∉ recognized_names.
Proof. rewrite !String.eqb_neq. unfold recognized_names. set_solver. Qed.

(** The first three conjuncts of a case of the switch that returns
    [createError code _ error]. *)
Ltac returns_code code :=
  eexists code, _; split; [reflexivity|];
  split; [apply elem_of_codes; set_solver|];
  split; [reflexivity|].

(** A recognised name does not fall through. *)
Ltac recognized :=
  let H := fresh in
  intros [H|[? H]];
  [exfalso; apply H; unfold recognized_names; set_solver | discriminate].

(** C10, as amended. [mapWebAuthnError] is total: every input value is
    mapped to an object [{ code, message, cause }] whose code is one of the
    [PasskeyErrorCode] strings and whose message is a string, so that
    [isPasskeyError] holds of it. The message is non-empty except when the
    input is an [Error] with an empty message that falls through to the
    final case, whose message is passed on unchanged. An input that falls
    through (not an [Error], an unrecognised name, or a TypeError without
    "fetch") gets UNKNOWN_ERROR; a NotAllowedError gets TIMEOUT when its
    lower-cased message includes "timeout" and CANCELLED otherwise. *)
Theorem mapWebAuthnError_total (error : value) :
  ∃ code message,
    mapWebAuthnError error = createError code message error
    ∧ code ∈ PasskeyErrorCode
    ∧ isPasskeyError (mapWebAuthnError error) = true
    ∧ (message = EmptyString →
         ∃ name, error = Error name EmptyString ∧ falls_through error)
    ∧ (falls_through error → code = "UNKNOWN_ERROR")
    ∧ (∀ m, error = Error "NotAllowedError" m →
         code = if includes (toLowerCase m) "timeout" then "TIMEOUT" else "CANCELLED").
Proof.
  destruct error as [| |b|n|str|name message|fields];
    try (returns_code "UNKNOWN_ERROR";
         split; [discriminate|]; split; [done|]; intros ?; discriminate).
  unfold mapWebAuthnError, falls_through.
  destruct (String.eqb name "NotSupportedError") eqn:E1.
  { apply String.eqb_eq in E1 as ->. returns_code "NOT_SUPPORTED".
    split; [discriminate|]. split; [recognized|intros ?; discriminate]. }
  destruct (String.eqb name "NotAllowedError") eqn:E2.
  { apply String.eqb_eq in E2 as ->.
    destruct (includes (toLowerCase message) "timeout") eqn:T;
      [returns_code "TIMEOUT" | returns_code "CANCELLED"];
      (split; [discriminate|]); (split; [recognized|]);
      intros m [= <-]; by rewrite T. }
  destruct (String.eqb name "InvalidStateError") eqn:E3.
  { apply String.eqb_eq in E3 as ->. returns_code "INVALID_STATE".
    split; [discriminate|]. split; [recognized|intros ?; discriminate]. }
  destruct (String.eqb name "SecurityError") eqn:E4.
  { apply String.eqb_eq in E4 as ->. returns_code "SECURITY_ERROR".
    split; [discriminate|]. split; [recognized|intros ?; discriminate]. }
  destruct (String.eqb name "AbortError") eqn:E5.
  { apply String.eqb_eq in E5 as ->. returns_code "CANCELLED".
    split; [discriminate|]. split; [recognized|intros ?; discriminate]. }
  destruct (String.eqb name "TypeError") eqn:E6.
  { apply String.eqb_eq in E6 as ->.
    destruct (includes (toLowerCase message) "fetch") eqn:F.
    - returns_code "NETWORK_ERROR".
      split; [discriminate|]. split; [|intros ?; discriminate].
      intros [H|[_ H]]; [|discriminate].
      exfalso; apply H; unfold recognized_names; set_solver.
    - returns_code "UNKNOWN_ERROR".
      split; [|split; [done|intros ?; discriminate]].
      intros ->. exists "TypeError". split; [done|]. by right. }
  returns_code "UNKNOWN_ERROR".
  split; [|split; [done|]].
  - intros ->. exists name. split; [done|]. left.
    by apply eqb_false_recognized.
  - intros m [= -> _]. discriminate.
Qed.

(** The cases of errors.test.ts. *)
Example mapWebAuthnError_timeout :
  mapWebAuthnError (Error "NotAllowedError" "A timeout occurred during the request")
  = createError "TIMEOUT" "The operation timed out. Please try again."
      (Error "NotAllowedError" "A timeout occurred during the request").
Proof. reflexivity. Qed.

Example mapWebAuthnError_timeout_capitals :
  mapWebAuthnError (Error "NotAllowedError" "TIMEOUT")
  = createError "TIMEOUT" "The operation timed out. Please try again."
      (Error "NotAllowedError" "TIMEOUT").
Proof. reflexivity. Qed.

Example mapWebAuthnError_denied :
  mapWebAuthnError (Error "NotAllowedError" "User denied")
  = createError "CANCELLED" "The operation was cancelled."
      (Error "NotAllowedError" "User denied").
Proof. reflexivity. Qed.

Example mapWebAuthnError_fetch :
  mapWebAuthnError (Error "TypeError" "Failed to fetch")
  = createError "NETWORK_ERROR"
      "Network request failed. Please check your connection."
      (Error "TypeError" "Failed to fetch").
Proof. reflexivity. Qed.

Example mapWebAuthnError_unknown :
  mapWebAuthnError (Error "Error" "Something went wrong")
  = createError "UNKNOWN_ERROR" "Something went wrong"
      (Error "Error" "Something went wrong").
Proof. reflexivity. Qed.

Example mapWebAuthnError_string :
  mapWebAuthnError (Str "string error")
  = createError "UNKNOWN_ERROR" "An unknown error occurred." (Str "string error").
Proof. reflexivity. Qed.

Example isPasskeyError_cases :
  isPasskeyError Null = false
  ∧ isPasskeyError (Str "error") = false
  ∧ isPasskeyError (Error "Error" "Test") = false
  ∧ isPasskeyError (Object [("message", Str "Test")]) = false
  ∧ isPasskeyError (Object [("code", Number 123); ("message", Str "Test")]) = false
  ∧ isPasskeyError (Object [("code", Str "NOT_SUPPORTED"); ("message", Str "Test")])
    = true.
Proof. repeat split. Qed.

(** C10 fails as stated: an [Error] with the default name and an empty
    message is mapped to an error whose message is the empty string. *)
Lemma mapWebAuthnError_empty_message :
  mapWebAuthnError (Error "Error" EmptyString)
  = createError "UNKNOWN_ERROR" EmptyString (Error "Error" EmptyString)
  ∧ ¬ (∃ m, message_of (mapWebAuthnError (Error "Error" EmptyString)) = Str m
            ∧ m ≠ EmptyString).
Proof.
  split; [reflexivity|].
  intros (m & Hm & Hne). cbn in Hm. by injection Hm as <-.
Qed.

End ClientErrorsFacts.

(* ===================================================================== *)
(** ** Properties of the rate limiter *)
(* ===================================================================== *)

Module RateLimitFacts.
Import RateLimit.

Lemma varchar_cons c s n :
  varchar (S n) (String c s) = String c <$> varchar n s.
Proof. reflexivity. Qed.

Lemma varchar_full s :
  varchar 0 s = if spaces s then Some EmptyString else None.
Proof. by destruct s. Qed.

(** A value that fits a [VARCHAR(n)] column is stored as it is. *)
Lemma varchar_fits n s :
  (String.length s <=? n)%nat = true → varchar n s = Some s.
Proof.
  revert n. induction s as [|c s IH]; intros n Hn; [by destruct n|].
  destruct n as [|n]; [done|]. rewrite varchar_cons, IH; done.
Qed.

(** What the column stores has at most [n] characters. *)
Lemma varchar_length n s s' :
  varchar n s = Some s' → (String.length s' ≤ n)%nat.
Proof.
  revert n s'. induction s as [|c s IH]; intros n s' Hs.
  - destruct n; injection Hs as <-; cbn; lia.
  - destruct n as [|n].
    + rewrite varchar_full in Hs. destruct (spaces _); [|done].
      injection Hs as <-. cbn. lia.
    + rewrite varchar_cons in Hs.
      destruct (varchar n s) as [t|] eqn:Ht; [|done].
      injection Hs as <-. cbn. apply IH in Ht. lia.
Qed.

(** A value of more than [n] characters, the first beyond them not a
    space, is refused. *)
Lemma varchar_refused n s :
  (n < String.length s)%nat →
  String.get n s ≠ Some " "%char →
  varchar n s = None.
Proof.
  revert n. induction s as [|c s IH]; intros n Hn Hc; [cbn in Hn; lia|].
  destruct n as [|n].
  - rewrite varchar_full. cbn in *.
    destruct (Ascii.eqb c " ") eqn:E; [|done].
    apply Ascii.eqb_eq in E. by subst.
  - rewrite varchar_cons, IH; [done|cbn in Hn; lia|done].
Qed.

Lemma is_INTEGER_spec n : is_INTEGER n = true ↔ INT_MIN ≤ n ≤ INT_MAX.
Proof. unfold is_INTEGER. rewrite andb_true_iff, !Z.leb_le. done. Qed.

Section Window.

Variables (ident : string) (ty : identifier_type) (ep : string) (K : Z).
Variable w : Z.
Hypothesis ep_fits : endpoint_fits ep = true.
Hypothesis K_fits : is_INTEGER K = true.

Abbreviation count_in := (RateLimit.count_in ident ty ep w).

(** One call adds one to the window's count and compares the new count
    with the ceiling; at the INTEGER bound it raises and changes
    nothing. *)
Lemma check_increments tbl now :
  date_trunc_minute now = w →
  check_passkey_rate_limit tbl now ident ty ep K =
    if INT_MAX <? count_in tbl + 1 then (tbl, None)
    else (<[(ident, ty, ep, w) := count_in tbl + 1]> tbl,
          Some (K <? count_in tbl + 1)).
Proof.
  intros Hw. unfold check_passkey_rate_limit, RateLimit.count_in.
  rewrite (varchar_fits _ _ ep_fits), Hw, K_fits. cbn [negb].
  destruct (tbl !! (ident, ty, ep, w)) as [c|]; reflexivity.
Qed.

Lemma attempts_length tbl times :
  length (attempts tbl times ident ty ep K) = length times.
Proof.
  revert tbl. induction times as [|now rest IH]; intros tbl; [done|].
  cbn [attempts].
  destruct (check_passkey_rate_limit tbl now ident ty ep K) as [tbl' r].
  cbn. by rewrite IH.
Qed.

(** With [c] attempts already counted, the attempt at index [i] of the
    run computes the count [c + i + 1]. *)
Lemma attempts_lookup times :
  ∀ tbl (i : nat) r,
    Forall (λ now, date_trunc_minute now = w) times →
    attempts tbl times ident ty ep K !! i = Some r →
    (count_in tbl + Z.of_nat i + 1 ≤ INT_MAX →
       r = Some (K <? count_in tbl + Z.of_nat i + 1))
    ∧ (INT_MAX < count_in tbl + Z.of_nat i + 1 → r = None).
Proof.
  induction times as [|now rest IH]; intros tbl i r Hall Hr; [done|].
  apply Forall_cons in Hall as [Hnow Hrest].
  cbn [attempts] in Hr. rewrite (check_increments _ _ Hnow) in Hr.
  destruct (INT_MAX <? count_in tbl + 1) eqn:Hov.
  - apply Z.ltb_lt in Hov.
    destruct i as [|i]; cbn in Hr.
    + injection Hr as <-. split; [lia|done].
    + destruct (IH tbl i r Hrest Hr) as [_ Hnone].
      split; [lia|]. intros _. apply Hnone. lia.
  - apply Z.ltb_ge in Hov.
    destruct i as [|i]; cbn in Hr.
    + injection Hr as <-. split; [|lia].
      intros _. do 2 f_equal. lia.
    + destruct (IH _ i r Hrest Hr) as [Hsome Hnone].
      assert (count_in (<[(ident, ty, ep, w) := count_in tbl + 1]> tbl)
              = count_in tbl + 1) as Hc.
      { unfold RateLimit.count_in at 1. by rewrite lookup_insert_eq. }
      rewrite Hc in Hsome, Hnone.
      split.
      * intros Hle. rewrite Hsome by lia. do 2 f_equal. lia.
      * intros Hgt. apply Hnone. lia.
Qed.

End Window.

(** C5. In a window that has no row yet, with a ceiling [K] in INTEGER
    range, every attempt of a run gets an answer, and the answer to attempt
    number [n + 1] (index [n]) comes from comparing the count after the
    increment, [n + 1], with [K]: attempts 1 to [K] are allowed, and every
    later one, first of all attempt [K + 1], is rejected by the handler's
    test [error || data], with [data = true] as long as the count fits an
    INTEGER. *)
Theorem fresh_window_ceiling (tbl : table) (times : list Z) (w : Z)
    (ident : string) (ty : identifier_type) (ep : string) (K : Z) :
  0 ≤ K ≤ INT_MAX →
  endpoint_fits ep = true →
  Forall (λ now, date_trunc_minute now = w) times →
  tbl !! (ident, ty, ep, w) = None →
  length (attempts tbl times ident ty ep K) = length times
  ∧ ∀ (n : nat) r,
      attempts tbl times ident ty ep K !! n = Some r →
      (Z.of_nat n + 1 ≤ K → r = Some false)
      ∧ (K < Z.of_nat n + 1 → rejected r = true)
      ∧ (K < Z.of_nat n + 1 ≤ INT_MAX → r = Some true).
Proof.
  intros HK Hep Hall Hfresh. split; [apply attempts_length|].
  intros n r Hr.
  assert (is_INTEGER K = true) as HKfits.
  { apply is_INTEGER_spec. unfold INT_MIN. lia. }
  destruct (attempts_lookup ident ty ep K w Hep HKfits times tbl n r Hall Hr)
    as [Hsome Hnone].
  unfold RateLimit.count_in in Hsome, Hnone. rewrite Hfresh in Hsome, Hnone.
  cbn [default] in Hsome, Hnone.
  split; [|split].
  - intros Hle. rewrite Hsome by lia. f_equal. apply Z.ltb_ge. lia.
  - intros Hgt. destruct (Z_le_gt_dec (0 + Z.of_nat n + 1) INT_MAX) as [Hfit|Hover].
    + rewrite Hsome by lia. cbn. apply Z.ltb_lt. lia.
    + rewrite Hnone by lia. reflexivity.
  - intros [Hgt Hfit]. rewrite Hsome by lia. f_equal. apply Z.ltb_lt. lia.
Qed.

(** Ceiling 2 and three attempts within one minute, from an empty table. *)
Lemma fresh_window_ceiling_witness :
  length (attempts ∅ [60000; 60001; 119999] "10.0.0.1" ip "/register/start" 2)
  = length [60000; 60001; 119999]
  ∧ ∀ (n : nat) r,
      attempts ∅ [60000; 60001; 119999] "10.0.0.1" ip "/register/start" 2 !! n
      = Some r →
      (Z.of_nat n + 1 ≤ 2 → r = Some false)
      ∧ (2 < Z.of_nat n + 1 → rejected r = true)
      ∧ (2 < Z.of_nat n + 1 ≤ INT_MAX → r = Some true).
Proof.
  apply (fresh_window_ceiling ∅ [60000; 60001; 119999] 60000
           "10.0.0.1" ip "/register/start" 2).
  - unfold INT_MAX. lia.
  - reflexivity.
  - repeat constructor.
  - reflexivity.
Defined.

(** The same run, evaluated: allowed, allowed, rejected. *)
Example three_attempts_ceiling_two :
  attempts ∅ [60000; 60001; 119999] "10.0.0.1" ip "/register/start" 2
  = [Some false; Some false; Some true].
Proof. vm_compute. reflexivity. Qed.

End RateLimitFacts.

(* ===================================================================== *)
(** ** Properties of the edge function *)
(* ===================================================================== *)

Module EdgeFunctionFacts.
Import EdgeFunction.

Ltac unfold_try :=
  unfold mbind, Try_bind, mret, Try_ret, lift, throw, read, write,
    createUser, insert_credential in *.

Section Facts.

Variable inet_in : string → bool.
Variable listUsers : list User → list User.
Variable valid_email : string → bool.
Variable verifyRegistrationResponse :
  option AuthenticatorResponse → string → string → string →
  outcome VerifiedRegistrationResponse.
Variable verifyAuthenticationResponse :
  AuthenticatorResponse → string → string → string →
  string → string → Z → outcome VerifiedAuthenticationResponse.
Variable generateLink : option string → option (option string).

Abbreviation register_start := (register_start inet_in).
Abbreviation login_start := (login_start inet_in listUsers).
Abbreviation passkeys_remove := (passkeys_remove inet_in).
Abbreviation passkeys_update := (passkeys_update inet_in).
Abbreviation log_passkey_audit_event := (log_passkey_audit_event inet_in).
Abbreviation find_user_by_email := (find_user_by_email listUsers).
Abbreviation no_credentials_for := (no_credentials_for listUsers).
Abbreviation serve :=
  (serve inet_in listUsers valid_email verifyRegistrationResponse verifyAuthenticationResponse generateLink).
Abbreviation run :=
  (run inet_in listUsers valid_email verifyRegistrationResponse verifyAuthenticationResponse generateLink).
Abbreviation register_finish :=
  (register_finish inet_in listUsers valid_email verifyRegistrationResponse generateLink).
Abbreviation login_finish :=
  (login_finish inet_in verifyAuthenticationResponse generateLink).
Abbreviation register_finish_try :=
  (register_finish_try inet_in listUsers valid_email verifyRegistrationResponse generateLink).
Abbreviation login_finish_try :=
  (login_finish_try inet_in verifyAuthenticationResponse generateLink).

(** *** The dispatch *)

Lemma serve_register_start s env req :
  endpoint req = "/register/start" →
  serve s env req = register_start s env req.
Proof. intros H. unfold EdgeFunction.serve. by rewrite H. Qed.

Lemma serve_register_finish s env req :
  endpoint req = "/register/finish" →
  serve s env req = register_finish s env req.
Proof. intros H. unfold EdgeFunction.serve. by rewrite H. Qed.

Lemma serve_login_start s env req :
  endpoint req = "/login/start" →
  serve s env req = login_start s env req.
Proof. intros H. unfold EdgeFunction.serve. by rewrite H. Qed.

Lemma serve_login_finish s env req :
  endpoint req = "/login/finish" →
  serve s env req = login_finish s env req.
Proof. intros H. unfold EdgeFunction.serve. by rewrite H. Qed.

Lemma serve_passkeys_remove s env req :
  endpoint req = "/passkeys/remove" →
  serve s env req = passkeys_remove s req.
Proof. intros H. unfold EdgeFunction.serve. by rewrite H. Qed.

Lemma serve_passkeys_update s env req :
  endpoint req = "/passkeys/update" →
  serve s env req = passkeys_update s req.
Proof. intros H. unfold EdgeFunction.serve. by rewrite H. Qed.

(** *** What the [try] blocks leave alone *)

Lemma register_finish_try_challenges env req challenge s :
  passkey_challenges (register_finish_try env req challenge s).1
  = passkey_challenges s.
Proof.
  unfold EdgeFunction.register_finish_try. unfold_try.
  repeat case_match; simplify_eq/=; done.
Qed.

Lemma login_finish_try_challenges env req challenge r id cred s :
  passkey_challenges (login_finish_try env req challenge r id cred s).1
  = passkey_challenges s.
Proof.
  unfold EdgeFunction.login_finish_try. unfold_try.
  repeat case_match; simplify_eq/=; done.
Qed.

(** *** Consuming a challenge *)

Lemma register_finish_challenges s env req :
  passkey_challenges (register_finish s env req).1
  = delete (challengeId req) (passkey_challenges s).
Proof.
  unfold EdgeFunction.register_finish.
  destruct (select_challenge s (challengeId req) registration) as [ch|]; [|done].
  destruct (ch_expires_at ch <? now env); [done|].
  pose proof (register_finish_try_challenges env req ch
                (delete_challenge s (challengeId req))) as H.
  destruct (register_finish_try env req ch _) as [s' [e|a]]; cbn in *; done.
Qed.

Lemma login_finish_challenges s env req :
  passkey_challenges (login_finish s env req).1
  = delete (challengeId req) (passkey_challenges s).
Proof.
  unfold EdgeFunction.login_finish.
  destruct (select_challenge s (challengeId req) authentication) as [ch|]; [|done].
  destruct (ch_expires_at ch <? now env); [done|].
  destruct (authResponse req) as [r|]; [|done].
  destruct (passkey_credentials (delete_challenge s (challengeId req)) !! ar_id r)
    as [cred|]; [|done].
  pose proof (login_finish_try_challenges env req ch r (ar_id r) cred
                (delete_challenge s (challengeId req))) as H.
  destruct (login_finish_try env req ch r (ar_id r) cred _) as [s' [e|a]];
    cbn in *; done.
Qed.

Lemma serve_finish_challenges s env req :
  is_finish (endpoint req) →
  passkey_challenges (serve s env req).1
  = delete (challengeId req) (passkey_challenges s).
Proof.
  intros [H|H]; unfold EdgeFunction.serve; rewrite H; cbn.
  - apply register_finish_challenges.
  - apply login_finish_challenges.
Qed.

(** A finish-call on a store without the challenge. *)
Lemma serve_finish_absent s env req :
  is_finish (endpoint req) →
  passkey_challenges s !! challengeId req = None →
  (serve s env req).2 = ok (error "CHALLENGE_MISMATCH" "Invalid or expired challenge").
Proof.
  intros [H|H] Habs; unfold EdgeFunction.serve; rewrite H; cbn.
  - unfold EdgeFunction.register_finish, select_challenge. by rewrite Habs.
  - unfold EdgeFunction.login_finish, select_challenge. by rewrite Habs.
Qed.

(** *** Creating a challenge *)

Lemma insert_challenge_other s id row c :
  id ≠ c →
  passkey_challenges (insert_challenge s id row).1 !! c = passkey_challenges s !! c.
Proof.
  intros Hne. unfold insert_challenge.
  case_match; cbn; [done|]. by rewrite lookup_insert_ne.
Qed.

(** A request leaves an identity absent unless it draws that very
    identity for a new challenge row. *)
Lemma serve_absent_preserved s env req c :
  uuid env ≠ c →
  passkey_challenges s !! c = None →
  passkey_challenges (serve s env req).1 !! c = None.
Proof.
  intros Hne Habs. unfold EdgeFunction.serve.
  repeat case_match.
  - unfold EdgeFunction.register_start.
    destruct (check_passkey_rate_limit _ _ _ _ _ _) as [limits blocked].
    destruct (rejected blocked); [done|].
    match goal with
    | |- context [insert_challenge ?s0 ?id ?row] =>
        pose proof (insert_challenge_other s0 id row c Hne) as Hins;
        destruct (insert_challenge s0 id row) as [s1 [k|]]
    end; cbn in *; by rewrite Hins.
  - rewrite register_finish_challenges.
    destruct (decide (challengeId req = c)) as [->|Hc].
    + apply lookup_delete_eq.
    + by rewrite lookup_delete_ne.
  - unfold EdgeFunction.login_start.
    destruct (check_passkey_rate_limit _ _ _ _ _ _) as [limits blocked].
    destruct (rejected blocked); [done|].
    repeat case_match; try done;
      match goal with
      | H : insert_challenge ?s0 ?id ?row = _ |- _ =>
          pose proof (insert_challenge_other s0 id row c Hne) as Hins;
          rewrite H in Hins
      end; cbn in *; by rewrite Hins.
  - rewrite login_finish_challenges.
    destruct (decide (challengeId req = c)) as [->|Hc].
    + apply lookup_delete_eq.
    + by rewrite lookup_delete_ne.
  - unfold passkeys_list. by case_match.
  - unfold EdgeFunction.passkeys_remove, delete_credential. by repeat case_match.
  - unfold EdgeFunction.passkeys_update, update_credential. by repeat case_match; simplify_eq/=.
  - done.
Qed.

Lemma run_absent_preserved trace : ∀ s c,
  Forall (λ er, uuid er.1 ≠ c) trace →
  passkey_challenges s !! c = None →
  passkey_challenges (run s trace) !! c = None.
Proof.
  induction trace as [|[env req] rest IH]; intros s c Hall Habs; [done|].
  apply Forall_cons in Hall as [Hne Hrest]. cbn [EdgeFunction.run].
  apply IH; [done|]. by apply serve_absent_preserved.
Qed.

(** *** Single use *)

(** C1. After a finish-call, of either ceremony and whatever its outcome,
    the challenge it names is not in the store. A second finish-call
    with that identity answers CHALLENGE_MISMATCH: at once (the empty
    trace) and after any run of further requests, none of which draws
    the same identity again for a new row. *)
Theorem challenge_single_use s env req :
  is_finish (endpoint req) →
  passkey_challenges (serve s env req).1 !! challengeId req = None
  ∧ ∀ trace env' req',
      Forall (λ er, uuid er.1 ≠ challengeId req) trace →
      is_finish (endpoint req') →
      challengeId req' = challengeId req →
      (serve (run (serve s env req).1 trace) env' req').2
      = ok (error "CHALLENGE_MISMATCH" "Invalid or expired challenge").
Proof.
  intros Hfin.
  assert (passkey_challenges (serve s env req).1 !! challengeId req = None) as Hgone.
  { rewrite serve_finish_challenges by done. apply lookup_delete_eq. }
  split; [done|].
  intros trace env' req' Hfresh Hfin' Hid.
  apply serve_finish_absent; [done|].
  rewrite Hid. by apply run_absent_preserved.
Qed.

(** C9. A finish-call on the endpoint of the other ceremony answers
    CHALLENGE_MISMATCH and all the same removes the challenge, since the
    delete filters on the identity alone; a later finish-call on either
    endpoint, the challenge's own included, answers CHALLENGE_MISMATCH
    too. *)
Theorem wrong_kind_consumes s env req ch :
  passkey_challenges s !! challengeId req = Some ch →
  (endpoint req = "/login/finish" ∧ ch_type ch = registration)
  ∨ (endpoint req = "/register/finish" ∧ ch_type ch = authentication) →
  (serve s env req).2 = ok (error "CHALLENGE_MISMATCH" "Invalid or expired challenge")
  ∧ passkey_challenges (serve s env req).1
    = delete (challengeId req) (passkey_challenges s)
  ∧ ∀ env' req',
      is_finish (endpoint req') →
      challengeId req' = challengeId req →
      (serve (serve s env req).1 env' req').2
      = ok (error "CHALLENGE_MISMATCH" "Invalid or expired challenge").
Proof.
  intros Hch Hkind.
  assert (is_finish (endpoint req)) as Hfin.
  { destruct Hkind as [[-> _]|[-> _]]; [by right|by left]. }
  split; [|split].
  - destruct Hkind as [[Hep Hty]|[Hep Hty]];
      unfold EdgeFunction.serve; rewrite Hep; cbn.
    + unfold EdgeFunction.login_finish, select_challenge.
      rewrite Hch, Hty. by case_decide.
    + unfold EdgeFunction.register_finish, select_challenge.
      rewrite Hch, Hty. by case_decide.
  - by apply serve_finish_challenges.
  - intros env' req' Hfin' Hid.
    apply serve_finish_absent; [done|].
    rewrite Hid, serve_finish_challenges by done. apply lookup_delete_eq.
Qed.

(** *** Expired challenges *)

(** Finishing a registration on an expired registration challenge:
    CHALLENGE_EXPIRED, the challenge removed, one [challenge_expired]
    row appended. *)
Lemma register_finish_expired s env req ch :
  select_challenge s (challengeId req) registration = Some ch →
  ch_expires_at ch < now env →
  register_finish s env req
  = (log_passkey_audit_event (delete_challenge s (challengeId req))
       {| event_type := challenge_expired; p_user_id := None;
          p_credential_id := None; p_email := ch_email ch;
          p_ip_address := Some (clientIP req);
          p_origin := None; p_error_message := None |},
     ok (error "CHALLENGE_EXPIRED" "Challenge has expired")).
Proof.
  intros Hsel Hexp. unfold EdgeFunction.register_finish. rewrite Hsel.
  apply Z.ltb_lt in Hexp. by rewrite Hexp.
Qed.

(** Finishing an authentication on an expired authentication challenge:
    CHALLENGE_EXPIRED, the challenge removed, and nothing logged. *)
Lemma login_finish_expired s env req ch :
  select_challenge s (challengeId req) authentication = Some ch →
  ch_expires_at ch < now env →
  login_finish s env req
  = (delete_challenge s (challengeId req),
     ok (error "CHALLENGE_EXPIRED" "Challenge has expired")).
Proof.
  intros Hsel Hexp. unfold EdgeFunction.login_finish. rewrite Hsel.
  apply Z.ltb_lt in Hexp. by rewrite Hexp.
Qed.

(** *** The signature counter *)

(** When the verifier throws or does not verify, the [try] block throws
    with the store as it was. *)
Lemma login_finish_try_not_verified env req ch r id cred s :
  match verifyAuthenticationResponse r (ch_challenge ch) (origin req)
          (rpId req) id (cr_public_key cred) (cr_counter cred) with
  | Returns v => va_verified v = false
  | Throws _ => True
  end →
  ∃ e, login_finish_try env req ch r id cred s = (s, Throws e).
Proof.
  intros H. unfold EdgeFunction.login_finish_try. unfold_try.
  destruct (verifyAuthenticationResponse _ _ _ _ _ _ _) as [e|v]; [by eexists|].
  rewrite H. by eexists.
Qed.

(** When the verifier verifies, the first write of the [try] block is
    the counter update, and the credentials are not written again. *)
Lemma login_finish_try_verified env req ch r id cred s v :
  verifyAuthenticationResponse r (ch_challenge ch) (origin req)
    (rpId req) id (cr_public_key cred) (cr_counter cred) = Returns v →
  va_verified v = true →
  passkey_credentials (login_finish_try env req ch r id cred s).1
  = alter (with_counter (va_newCounter v) (now env)) id (passkey_credentials s).
Proof.
  intros Hv Hok. unfold EdgeFunction.login_finish_try. unfold_try.
  rewrite Hv, Hok. by case_match.
Qed.

(** The counter is written only after the verifier has reported
    success, and then with the counter it reports. *)
Lemma counter_update_only_after_success s env req :
  endpoint req = "/login/finish" →
  passkey_credentials (serve s env req).1 ≠ passkey_credentials s →
  ∃ ch r cred v,
    select_challenge s (challengeId req) authentication = Some ch
    ∧ authResponse req = Some r
    ∧ passkey_credentials s !! ar_id r = Some cred
    ∧ verifyAuthenticationResponse r (ch_challenge ch) (origin req)
        (rpId req) (ar_id r) (cr_public_key cred) (cr_counter cred) = Returns v
    ∧ va_verified v = true
    ∧ passkey_credentials (serve s env req).1
      = alter (with_counter (va_newCounter v) (now env)) (ar_id r)
          (passkey_credentials s).
Proof.
  intros Hep. unfold EdgeFunction.serve. rewrite Hep. cbn.
  unfold EdgeFunction.login_finish.
  destruct (select_challenge s (challengeId req) authentication) as [ch|];
    [|done].
  destruct (ch_expires_at ch <? now env); [done|].
  destruct (authResponse req) as [r|]; [|done].
  change (passkey_credentials (delete_challenge s (challengeId req)))
    with (passkey_credentials s).
  destruct (passkey_credentials s !! ar_id r) as [cred|] eqn:Hcred; [|done].
  destruct (verifyAuthenticationResponse r (ch_challenge ch) (origin req)
              (rpId req) (ar_id r) (cr_public_key cred) (cr_counter cred))
    as [e|v] eqn:Hv.
  - destruct (login_finish_try_not_verified env req ch r (ar_id r) cred
                (delete_challenge s (challengeId req))) as [e' He'].
    { by rewrite Hv. }
    rewrite He'. done.
  - destruct (va_verified v) eqn:Hok.
    + intros _. exists ch, r, cred, v. repeat (split; [done|]).
      pose proof (login_finish_try_verified env req ch r (ar_id r) cred
                    (delete_challenge s (challengeId req)) v Hv Hok) as H.
      destruct (login_finish_try env req ch r (ar_id r) cred _) as [s' [e|a]];
        cbn in *; done.
    + destruct (login_finish_try_not_verified env req ch r (ar_id r) cred
                  (delete_challenge s (challengeId req))) as [e' He'].
      { by rewrite Hv. }
      rewrite He'. done.
Qed.

(** The row that [.update({ counter, last_used_at })] leaves. *)
Lemma with_counter_fields newCounter now c :
  with_counter newCounter now c
  = {| cr_user_id := cr_user_id c;
       cr_webauthn_user_id := cr_webauthn_user_id c;
       cr_public_key := cr_public_key c;
       cr_counter := newCounter;
       cr_device_type := cr_device_type c;
       cr_backed_up := cr_backed_up c;
       cr_transports := cr_transports c;
       cr_authenticator_name := cr_authenticator_name c;
       cr_created_at := cr_created_at c;
       cr_last_used_at := Some now |}.
Proof. reflexivity. Qed.

(** C2, as amended. The handler compares no counters: it hands the stored
    counter of the credential that the response names to the verifier and
    follows the verdict. For a finish-authentication call that gets as far
    as the verifier: when the verifier throws or reports no success, the
    answer is VERIFICATION_FAILED and the stored credentials, counter and
    last-used time included, are as they were; when it reports success,
    the row gets the counter that the verifier reports and the current
    time, whatever counter the response carries. For any
    finish-authentication call, the stored credentials change only after
    the verifier has reported success. *)
Theorem counter_check_delegated s env req ch r cred :
  endpoint req = "/login/finish" →
  select_challenge s (challengeId req) authentication = Some ch →
  now env ≤ ch_expires_at ch →
  authResponse req = Some r →
  passkey_credentials s !! ar_id r = Some cred →
  (match verifyAuthenticationResponse r (ch_challenge ch) (origin req)
           (rpId req) (ar_id r) (cr_public_key cred) (cr_counter cred) with
   | Returns v => va_verified v = false
   | Throws _ => True
   end →
   (serve s env req).2
   = ok (error "VERIFICATION_FAILED" "Authentication verification failed")
   ∧ passkey_credentials (serve s env req).1 = passkey_credentials s)
  ∧ (∀ v,
       verifyAuthenticationResponse r (ch_challenge ch) (origin req)
         (rpId req) (ar_id r) (cr_public_key cred) (cr_counter cred)
       = Returns v →
       va_verified v = true →
       passkey_credentials (serve s env req).1 !! ar_id r
       = Some {| cr_user_id := cr_user_id cred;
                 cr_webauthn_user_id := cr_webauthn_user_id cred;
                 cr_public_key := cr_public_key cred;
                 cr_counter := va_newCounter v;
                 cr_device_type := cr_device_type cred;
                 cr_backed_up := cr_backed_up cred;
                 cr_transports := cr_transports cred;
                 cr_authenticator_name := cr_authenticator_name cred;
                 cr_created_at := cr_created_at cred;
                 cr_last_used_at := Some (now env) |})
  ∧ (∀ s0 env0 req0,
       endpoint req0 = "/login/finish" →
       passkey_credentials (serve s0 env0 req0).1 ≠ passkey_credentials s0 →
       ∃ ch0 r0 cred0 v,
         authResponse req0 = Some r0
         ∧ passkey_credentials s0 !! ar_id r0 = Some cred0
         ∧ verifyAuthenticationResponse r0 (ch_challenge ch0) (origin req0)
             (rpId req0) (ar_id r0) (cr_public_key cred0) (cr_counter cred0)
           = Returns v
         ∧ va_verified v = true).
Proof.
  intros Hep Hsel Hlive Hr Hcred.
  assert (serve s env req
          = match login_finish_try env req ch r (ar_id r) cred
                    (delete_challenge s (challengeId req)) with
            | (s', Returns result) => (s', ok result)
            | (s', Throws e) =>
                (log_passkey_audit_event s'
                   {| event_type := authentication_failed;
                      p_user_id := None;
                      p_credential_id := Some (ar_id r);
                      p_email := None;
                      p_ip_address := Some (clientIP req);
                      p_origin := None; p_error_message := Some e |},
                 ok (error "VERIFICATION_FAILED"
                       "Authentication verification failed"))
            end) as Hserve.
  { rewrite serve_login_finish by done.
    unfold EdgeFunction.login_finish. rewrite Hsel.
    apply Z.ltb_ge in Hlive. rewrite Hlive, Hr.
    change (passkey_credentials (delete_challenge s (challengeId req)))
      with (passkey_credentials s).
    by rewrite Hcred. }
  split; [|split].
  - intros Hno.
    destruct (login_finish_try_not_verified env req ch r (ar_id r) cred
                (delete_challenge s (challengeId req)) Hno) as [e He].
    rewrite Hserve, He. done.
  - intros v Hv Hok.
    pose proof (login_finish_try_verified env req ch r (ar_id r) cred
                  (delete_challenge s (challengeId req)) v Hv Hok) as Htry.
    rewrite Hserve.
    destruct (login_finish_try env req ch r (ar_id r) cred _) as [s' [e|a]];
      cbn [fst snd passkey_credentials EdgeFunction.log_passkey_audit_event]
        in *;
      rewrite Htry, lookup_alter_eq;
      change (passkey_credentials (delete_challenge s (challengeId req)))
        with (passkey_credentials s);
      by rewrite Hcred.
  - intros s0 env0 req0 Hep0 Hchg.
    destruct (counter_update_only_after_success s0 env0 req0 Hep0 Hchg)
      as (ch0 & r0 & cred0 & v & _ & ? & ? & ? & ? & _).
    by exists ch0, r0, cred0, v.
Qed.

(** *** Rate limiting in the handler *)

Lemma register_finish_try_rate_limits env req challenge s :
  passkey_rate_limits (register_finish_try env req challenge s).1
  = passkey_rate_limits s.
Proof.
  unfold EdgeFunction.register_finish_try. unfold_try.
  repeat case_match; simplify_eq/=; done.
Qed.

Lemma login_finish_try_rate_limits env req challenge r id cred s :
  passkey_rate_limits (login_finish_try env req challenge r id cred s).1
  = passkey_rate_limits s.
Proof.
  unfold EdgeFunction.login_finish_try. unfold_try.
  repeat case_match; simplify_eq/=; done.
Qed.

Lemma insert_challenge_rate_limits s id row :
  passkey_rate_limits (insert_challenge s id row).1 = passkey_rate_limits s.
Proof. unfold insert_challenge. by case_match. Qed.

Lemma start_rate_limits s env req :
  is_start (endpoint req) →
  passkey_rate_limits (serve s env req).1 = (ip_check s env req).1.
Proof.
  unfold ip_check.
  intros [Hep|Hep];
    [rewrite serve_register_start by done|rewrite serve_login_start by done].
  - unfold EdgeFunction.register_start.
    destruct (check_passkey_rate_limit _ _ _ _ _ _) as [limits blocked].
    destruct (rejected blocked); [done|].
    match goal with
    | |- context [insert_challenge ?s0 ?id ?row] =>
        pose proof (insert_challenge_rate_limits s0 id row) as Hins;
        destruct (insert_challenge s0 id row) as [s1 [k|]]
    end; cbn in *; done.
  - unfold EdgeFunction.login_start.
    destruct (check_passkey_rate_limit _ _ _ _ _ _) as [limits blocked].
    destruct (rejected blocked); [done|].
    repeat case_match; try done;
      match goal with
      | H : insert_challenge ?s0 ?id ?row = _ |- _ =>
          pose proof (insert_challenge_rate_limits s0 id row) as Hins;
          rewrite H in Hins
      end; cbn in *; done.
Qed.

Lemma start_rejected s env req :
  is_start (endpoint req) →
  rejected (ip_check s env req).2 = true →
  serve s env req
  = (set_rate_limits s (ip_check s env req).1,
     ok (error "RATE_LIMITED" "Too many requests")).
Proof.
  unfold ip_check.
  intros [Hep|Hep];
    [rewrite serve_register_start by done|rewrite serve_login_start by done].
  - unfold EdgeFunction.register_start.
    destruct (check_passkey_rate_limit _ _ _ _ _ _) as [limits blocked].
    cbn. by intros ->.
  - unfold EdgeFunction.login_start.
    destruct (check_passkey_rate_limit _ _ _ _ _ _) as [limits blocked].
    cbn. by intros ->.
Qed.

Lemma not_start_rate_limits s env req :
  ¬ is_start (endpoint req) →
  passkey_rate_limits (serve s env req).1 = passkey_rate_limits s.
Proof.
  intros Hns. unfold EdgeFunction.serve.
  destruct (String.eqb (endpoint req) "/register/start") eqn:E1.
  { apply String.eqb_eq in E1. exfalso. apply Hns. by left. }
  destruct (String.eqb (endpoint req) "/register/finish") eqn:E2.
  { unfold EdgeFunction.register_finish.
    destruct (select_challenge _ _ _) as [ch|]; [|done].
    destruct (_ <? _); [done|].
    pose proof (register_finish_try_rate_limits env req ch
                  (delete_challenge s (challengeId req))) as H.
    destruct (register_finish_try env req ch _) as [s' [e|a]]; cbn in *; done. }
  destruct (String.eqb (endpoint req) "/login/start") eqn:E3.
  { apply String.eqb_eq in E3. exfalso. apply Hns. by right. }
  destruct (String.eqb (endpoint req) "/login/finish") eqn:E4.
  { unfold EdgeFunction.login_finish.
    destruct (select_challenge _ _ _) as [ch|]; [|done].
    destruct (_ <? _); [done|].
    destruct (authResponse req) as [r|]; [|done].
    destruct (_ !! ar_id r) as [cred|]; [|done].
    pose proof (login_finish_try_rate_limits env req ch r (ar_id r) cred
                  (delete_challenge s (challengeId req))) as H.
    destruct (login_finish_try env req ch r (ar_id r) cred _) as [s' [e|a]];
      cbn in *; done. }
  repeat case_match; try done.
  - unfold passkeys_list. by case_match.
  - unfold EdgeFunction.passkeys_remove, delete_credential. by repeat case_match.
  - unfold EdgeFunction.passkeys_update, update_credential. by repeat case_match; simplify_eq/=.
Qed.


(** No request reads or writes a row of kind [email]: the email-scoped
    windows stay as they are. *)
Lemma email_windows_untouched s env req ident ep w :
  passkey_rate_limits (serve s env req).1 !! (ident, RateLimit.email, ep, w)
  = passkey_rate_limits s !! (ident, RateLimit.email, ep, w).
Proof.
  destruct (decide (is_start (endpoint req))) as [Hst|Hns].
  - rewrite start_rate_limits by done.
    unfold ip_check, check_passkey_rate_limit.
    repeat case_match; cbn; try done; by rewrite lookup_insert_ne.
  - by rewrite not_start_rate_limits.
Qed.

(** *** Credential queries *)

Lemma select_credentials_nil s (P : string → Credential → bool) :
  (∀ id c, passkey_credentials s !! id = Some c → P id c = false) →
  select_credentials s P = [].
Proof.
  intros H. unfold select_credentials.
  assert (Forall (λ kv, P kv.1 kv.2 = false)
            (map_to_list (passkey_credentials s))) as Hall.
  { apply Forall_forall. intros [id c] Hin%elem_of_map_to_list. by apply H. }
  induction Hall as [|kv l Hkv _ IH]; [done|].
  cbn. by rewrite Hkv.
Qed.

Lemma select_credentials_set_rate_limits s limits P :
  select_credentials (set_rate_limits s limits) P = select_credentials s P.
Proof. reflexivity. Qed.

(** *** Begin registration: the exclusion list *)

(** The exclusion list of a begin-registration answer is read off the
    credentials whose user handle equals the handle just drawn, at most
    one of them; the email plays no part in it. *)
Lemma register_start_exclusion s env req options id :
  endpoint req = "/register/start" →
  (serve s env req).2 = ok (success (RegisterStarted options id)) →
  ro_excludeCredentials options
  = map fst (take 1 (select_credentials s
               (λ _ c, String.eqb (cr_webauthn_user_id c) (webauthnUserId env)))).
Proof.
  intros Hep. rewrite serve_register_start by done. unfold EdgeFunction.register_start.
  destruct (check_passkey_rate_limit _ _ _ _ _ _) as [limits blocked].
  destruct (rejected blocked); [done|].
  rewrite select_credentials_set_rate_limits.
  destruct (insert_challenge _ _ _) as [s1 [k|]]; cbn; [|done].
  by intros [= <- _].
Qed.

(** With a handle that no stored credential carries, the list is
    empty, whatever the account of the email holds. *)
Lemma register_start_exclusion_fresh s env req options id :
  endpoint req = "/register/start" →
  (∀ k c, passkey_credentials s !! k = Some c →
          cr_webauthn_user_id c ≠ webauthnUserId env) →
  (serve s env req).2 = ok (success (RegisterStarted options id)) →
  ro_excludeCredentials options = [].
Proof.
  intros Hep Hfresh Hresp.
  rewrite (register_start_exclusion s env req options id Hep Hresp).
  rewrite select_credentials_nil; [done|].
  intros k c Hk. apply String.eqb_neq. by eapply Hfresh.
Qed.

(** *** Begin authentication without credentials *)


(** *** Credential management across accounts *)

(** Removing a credential of another account: nothing is deleted, yet a
    [passkey_removed] row is logged and the answer is a success. *)
Lemma remove_cross_account s env req a row :
  endpoint req = "/passkeys/remove" →
  caller req = Some a →
  passkey_credentials s !! credentialId req = Some row →
  cr_user_id row ≠ a →
  serve s env req
  = (log_passkey_audit_event s
       {| event_type := passkey_removed; p_user_id := Some a;
          p_credential_id := Some (credentialId req); p_email := None;
          p_ip_address := Some (clientIP req);
          p_origin := None; p_error_message := None |},
     ok (success Removed)).
Proof.
  intros Hep Hcaller Hrow Hne. rewrite serve_passkeys_remove by done.
  unfold EdgeFunction.passkeys_remove, delete_credential. rewrite Hcaller, Hrow.
  apply String.eqb_neq in Hne. by rewrite Hne.
Qed.

(** Renaming a credential of another account: nothing changes and the
    answer is CREDENTIAL_NOT_FOUND. *)
Lemma update_cross_account s env req a row :
  endpoint req = "/passkeys/update" →
  caller req = Some a →
  passkey_credentials s !! credentialId req = Some row →
  cr_user_id row ≠ a →
  serve s env req = (s, ok (error "CREDENTIAL_NOT_FOUND" "Passkey not found")).
Proof.
  intros Hep Hcaller Hrow Hne. rewrite serve_passkeys_update by done.
  unfold EdgeFunction.passkeys_update, update_credential. rewrite Hcaller, Hrow.
  apply String.eqb_neq in Hne. rewrite Hne. by destruct (authenticatorName req).
Qed.

End Facts.

End EdgeFunctionFacts.

(* ===================================================================== *)
(** ** Scenarios: the handler on concrete stores *)
(* ===================================================================== *)

Module Scenarios.
Import EdgeFunction EdgeFunctionFacts Samples.

(** *** C1, C9, C2, C8, C4: instances *)

(** C1 at a finish-authentication call that succeeds. *)
Lemma challenge_single_use_witness :
  is_finish (endpoint finish_login_fresh)
  ∧ passkey_challenges (handle store env finish_login_fresh).1
      !! challengeId finish_login_fresh = None
  ∧ ∀ trace env' req',
      Forall (λ er, uuid er.1 ≠ challengeId finish_login_fresh) trace →
      is_finish (endpoint req') →
      challengeId req' = challengeId finish_login_fresh →
      (handle (run inet_in listUsers valid_email verifyRegistration verifyAuthentication generateLink
                 (handle store env finish_login_fresh).1 trace) env' req').2
      = ok (error "CHALLENGE_MISMATCH" "Invalid or expired challenge").
Proof.
  assert (is_finish (endpoint finish_login_fresh)) as Hfin.
  { right. reflexivity. }
  split; [exact Hfin|].
  exact (challenge_single_use inet_in listUsers valid_email verifyRegistration verifyAuthentication
           generateLink store env finish_login_fresh Hfin).
Defined.

(** The first finish-call of that instance succeeds; the second one, with
    the same identity and the same response, is refused. *)
Example second_finish_is_refused :
  body (handle store env finish_login_fresh).2
  = success (LoginFinished (Some "token-alice@example.com")
               (Some "alice@example.com"))
  ∧ body (handle (handle store env finish_login_fresh).1 env finish_login_fresh).2
    = error "CHALLENGE_MISMATCH" "Invalid or expired challenge".
Proof. split; vm_compute; reflexivity. Qed.

(** C9 at a finish-authentication call that names a pending registration
    challenge. *)
Lemma wrong_kind_consumes_witness :
  passkey_challenges store !! challengeId finish_login_on_registration
  = Some (challenge_of registration "nonce-1" 400000)
  ∧ (handle store env finish_login_on_registration).2
    = ok (error "CHALLENGE_MISMATCH" "Invalid or expired challenge")
  ∧ passkey_challenges (handle store env finish_login_on_registration).1
    = delete (challengeId finish_login_on_registration) (passkey_challenges store)
  ∧ ∀ env' req',
      is_finish (endpoint req') →
      challengeId req' = challengeId finish_login_on_registration →
      (handle (handle store env finish_login_on_registration).1 env' req').2
      = ok (error "CHALLENGE_MISMATCH" "Invalid or expired challenge").
Proof.
  assert (passkey_challenges store !! challengeId finish_login_on_registration
          = Some (challenge_of registration "nonce-1" 400000)) as Hch.
  { reflexivity. }
  split; [exact Hch|].
  apply (wrong_kind_consumes inet_in listUsers valid_email verifyRegistration verifyAuthentication
           generateLink store env finish_login_on_registration _ Hch).
  left. split; reflexivity.
Defined.

(** Without the stray call, the registration challenge of that instance
    can be finished; after it, it cannot. *)
Example stray_finish_spoils_registration :
  body (handle store env finish_register).2
  = success (RegisterFinished (Some "token-alice@example.com")
               (Some {| pk_id := "cred-n"; pk_authenticatorName := None;
                        pk_deviceType := multiDevice; pk_backedUp := false;
                        pk_createdAt := 200000; pk_lastUsedAt := None |}))
  ∧ body (handle (handle store env finish_login_on_registration).1
            env finish_register).2
    = error "CHALLENGE_MISMATCH" "Invalid or expired challenge".
Proof. split; vm_compute; reflexivity. Qed.

(** C2, as amended, at a response whose counter, 7, equals the stored
    counter: the verifier refuses it. *)
Lemma counter_check_delegated_witness :
  (handle store env finish_login_stale).2
  = ok (error "VERIFICATION_FAILED" "Authentication verification failed")
  ∧ passkey_credentials (handle store env finish_login_stale).1
    = passkey_credentials store.
Proof.
  refine (proj1 (counter_check_delegated inet_in listUsers valid_email
                   verifyRegistration verifyAuthentication generateLink
                   store env finish_login_stale
                   (challenge_of authentication "nonce-2" 400000)
                   (response_of "cred-a" "nonce-2" 7)
                   (credential_of "user-a" "handle-a" "Alice's key" 7)
                   _ _ _ _ _) _);
    first [reflexivity | by vm_compute].
Defined.

(** C2 as stated fails where the verifier accepts a counter that is not
    above the stored one, as the verifier of the handler does when both
    are 0: Bob's credential is stored with counter 0, the response carries
    counter 0, and the call is a success that writes the row. *)
Lemma equal_counters_accepted :
  ar_signCount (response_of "cred-b" "nonce-2" 0)
  ≤ cr_counter (credential_of "user-b" "handle-b" "Bob's key" 0)
  ∧ passkey_credentials store !! "cred-b"
    = Some (credential_of "user-b" "handle-b" "Bob's key" 0)
  ∧ (handle store env finish_login_zero).2
    = ok (success (LoginFinished (Some "token-bob@example.com")
                     (Some "bob@example.com")))
  ∧ passkey_credentials (handle store env finish_login_zero).1 !! "cred-b"
    ≠ passkey_credentials store !! "cred-b"
  ∧ cr_last_used_at
      <$> passkey_credentials (handle store env finish_login_zero).1 !! "cred-b"
    = Some (Some 200000).
Proof.
  split; [cbn; lia|]. split; [reflexivity|].
  split; [by vm_compute|]. split; [by vm_compute|by vm_compute].
Qed.

(** The same call with a counter above the stored one is verified, and
    only then is the counter written. *)
Example fresh_counter_accepted :
  cr_counter <$> passkey_credentials (handle store env finish_login_fresh).1 !! "cred-a"
  = Some 8
  ∧ cr_counter <$> passkey_credentials (handle store env finish_login_stale).1 !! "cred-a"
    = Some 7.
Proof. split; vm_compute; reflexivity. Qed.



(** *** C4 and C8 as stated: counterexamples *)



(** *** C3, C6, C7: the handler at the failing inputs *)

(** C3. Finishing an authentication on an expired authentication
    challenge answers CHALLENGE_EXPIRED and leaves the audit log without
    any [challenge_expired] row, whereas the same situation on the
    registration endpoint logs exactly one. *)
Theorem login_finish_expired_logs_nothing :
  (handle store env finish_login_expired).2
  = ok (error "CHALLENGE_EXPIRED" "Challenge has expired")
  ∧ count_events challenge_expired
      (passkey_audit_log (handle store env finish_login_expired).1) = 0%nat
  ∧ (handle store env finish_register_expired).2
    = ok (error "CHALLENGE_EXPIRED" "Challenge has expired")
  ∧ count_events challenge_expired
      (passkey_audit_log (handle store env finish_register_expired).1) = 1%nat.
Proof. repeat split; vm_compute; reflexivity. Qed.

(** C6. Alice asks to remove Bob's credential: the credential stays, but
    the answer is a success and a [passkey_removed] row is logged for it.
    Her attempt to rename it answers CREDENTIAL_NOT_FOUND and changes
    nothing. *)
Theorem remove_cross_account_reports_success :
  passkey_credentials (handle store env alice_removes_bobs).1
  = passkey_credentials store
  ∧ (handle store env alice_removes_bobs).2 = ok (success Removed)
  ∧ count_events passkey_removed
      (passkey_audit_log (handle store env alice_removes_bobs).1) = 1%nat
  ∧ handle store env alice_renames_bobs
    = (store, ok (error "CREDENTIAL_NOT_FOUND" "Passkey not found")).
Proof.
  unfold handle.
  rewrite (remove_cross_account inet_in listUsers valid_email verifyRegistration verifyAuthentication
             generateLink store env alice_removes_bobs "user-a"
             (credential_of "user-b" "handle-b" "Bob's key" 0))
    by (reflexivity || discriminate).
  rewrite (update_cross_account inet_in listUsers valid_email verifyRegistration verifyAuthentication
             generateLink store env alice_renames_bobs "user-a"
             (credential_of "user-b" "handle-b" "Bob's key" 0))
    by (reflexivity || discriminate).
  repeat split.
Qed.

(** C7. Alice's account exists and owns the credential cred-a; a
    begin-registration call for her email is answered with an empty
    exclusion list. *)
Theorem register_start_excludes_nothing :
  find_user_by_email listUsers store (email start_register_alice) = Some alice
  ∧ cr_user_id <$> passkey_credentials store !! "cred-a" = Some (u_id alice)
  ∧ ∃ options id,
      (handle store env start_register_alice).2
      = ok (success (RegisterStarted options id))
      ∧ ro_excludeCredentials options = [].
Proof.
  split; [reflexivity|]. split; [reflexivity|].
  eexists _, _. split; vm_compute; reflexivity.
Qed.

End Scenarios.

(* ===================================================================== *)
(** ** Invariants of the handler *)
(* ===================================================================== *)

Module HandlerInvariants.
Import EdgeFunction EdgeFunctionFacts Housekeeping.

Lemma appended_refl n l : appended n l l.
Proof. exists []. split; [by rewrite app_nil_r|cbn; lia]. Qed.

Lemma appended_snoc n l l' ev :
  appended n l l' → appended (S n) l (l' ++ [ev]).
Proof.
  intros (evs & -> & Hn). exists (evs ++ [ev]).
  split; [by rewrite app_assoc|]. rewrite length_app. cbn. lia.
Qed.

Lemma appended_mono n m l l' : (n ≤ m)%nat → appended n l l' → appended m l l'.
Proof. intros Hnm (evs & -> & Hn). exists evs. split; [done|lia]. Qed.

(** A call of [log_passkey_audit_event] adds its row or, when it fails,
    nothing. *)
Lemma appended_if n l l' ev (b : bool) :
  appended n l l' → appended (S n) l (if b then l' ++ [ev] else l').
Proof.
  intros H. destruct b; [by apply appended_snoc|].
  by apply (appended_mono n); [lia|].
Qed.

Section Invariants.

Variable inet_in : string → bool.
Variable listUsers : list User → list User.
Variable valid_email : string → bool.
Variable verifyRegistrationResponse :
  option AuthenticatorResponse → string → string → string →
  outcome VerifiedRegistrationResponse.
Variable verifyAuthenticationResponse :
  AuthenticatorResponse → string → string → string →
  string → string → Z → outcome VerifiedAuthenticationResponse.
Variable generateLink : option string → option (option string).

Abbreviation register_start := (register_start inet_in).
Abbreviation login_start := (login_start inet_in listUsers).
Abbreviation passkeys_remove := (passkeys_remove inet_in).
Abbreviation passkeys_update := (passkeys_update inet_in).
Abbreviation log_passkey_audit_event := (log_passkey_audit_event inet_in).
Abbreviation find_user_by_email := (find_user_by_email listUsers).
Abbreviation no_credentials_for := (no_credentials_for listUsers).
Abbreviation serve :=
  (serve inet_in listUsers valid_email verifyRegistrationResponse verifyAuthenticationResponse generateLink).
Abbreviation register_finish_try :=
  (register_finish_try inet_in listUsers valid_email verifyRegistrationResponse generateLink).
Abbreviation login_finish_try :=
  (login_finish_try inet_in verifyAuthenticationResponse generateLink).

(** *** The audit log *)

Lemma register_finish_try_log env req ch s :
  appended 1 (passkey_audit_log s)
    (passkey_audit_log (register_finish_try env req ch s).1).
Proof.
  unfold EdgeFunction.register_finish_try. unfold_try.
  repeat case_match; simplify_eq/=;
    first [apply appended_refl | apply appended_if, appended_refl].
Qed.

Lemma login_finish_try_log env req ch r id cred s :
  appended 1 (passkey_audit_log s)
    (passkey_audit_log (login_finish_try env req ch r id cred s).1).
Proof.
  unfold EdgeFunction.login_finish_try. unfold_try.
  repeat case_match; simplify_eq/=;
    first [apply appended_refl | apply appended_if, appended_refl].
Qed.

Lemma insert_challenge_log s id row :
  passkey_audit_log (insert_challenge s id row).1 = passkey_audit_log s.
Proof. unfold insert_challenge. by case_match. Qed.

(** X1. The audit log is append-only: a request leaves every row of the log in
    place and adds at most two rows at its end. *)
Theorem audit_log_append_only s env req :
  appended 2 (passkey_audit_log s) (passkey_audit_log (serve s env req).1).
Proof.
  unfold EdgeFunction.serve. repeat case_match.
  - unfold EdgeFunction.register_start.
    destruct (check_passkey_rate_limit _ _ _ _ _ _) as [limits blocked].
    destruct (rejected blocked); [apply appended_refl|].
    match goal with
    | |- context [insert_challenge ?s0 ?id ?row] =>
        pose proof (insert_challenge_log s0 id row) as Hins;
        destruct (insert_challenge s0 id row) as [s1 [k|]]
    end; cbn in *; rewrite Hins;
      apply (appended_mono 1); [lia| |lia|]; apply appended_if, appended_refl.
  - unfold register_finish.
    destruct (select_challenge _ _ _) as [ch|]; [|apply appended_refl].
    destruct (_ <? _).
    { apply (appended_mono 1); [lia|]. apply appended_if, appended_refl. }
    pose proof (register_finish_try_log env req ch
                  (delete_challenge s (challengeId req))) as Htry.
    destruct (register_finish_try env req ch _) as [s' [e|a]]; cbn in *.
    + by apply appended_if.
    + by apply (appended_mono 1); [lia|].
  - unfold EdgeFunction.login_start.
    destruct (check_passkey_rate_limit _ _ _ _ _ _) as [limits blocked].
    destruct (rejected blocked); [apply appended_refl|].
    repeat case_match; try apply appended_refl;
      match goal with
      | H : insert_challenge ?s0 ?id ?row = _ |- _ =>
          pose proof (insert_challenge_log s0 id row) as Hins;
          rewrite H in Hins
      end; cbn in *; rewrite Hins;
      apply (appended_mono 1); try lia; apply appended_if, appended_refl.
  - unfold login_finish.
    destruct (select_challenge _ _ _) as [ch|]; [|apply appended_refl].
    destruct (_ <? _); [apply appended_refl|].
    destruct (authResponse req) as [r|]; [|apply appended_refl].
    destruct (_ !! ar_id r) as [cred|]; [|apply appended_refl].
    pose proof (login_finish_try_log env req ch r (ar_id r) cred
                  (delete_challenge s (challengeId req))) as Htry.
    destruct (login_finish_try env req ch r (ar_id r) cred _) as [s' [e|a]];
      cbn in *.
    + by apply appended_if.
    + by apply (appended_mono 1); [lia|].
  - unfold passkeys_list. case_match; apply appended_refl.
  - unfold EdgeFunction.passkeys_remove, delete_credential.
    repeat case_match; try apply appended_refl;
      apply (appended_mono 1); try lia; apply appended_if, appended_refl.
  - unfold EdgeFunction.passkeys_update, update_credential.
    repeat case_match; simplify_eq/=; try apply appended_refl;
      apply (appended_mono 1); try lia; apply appended_if, appended_refl.
  - apply appended_refl.
Qed.

(** *** The dispatch, as a proof rule *)

Lemma serve_cases (P : Store * Response → Prop) s env req :
  (endpoint req = "/register/start" → P (register_start s env req)) →
  (endpoint req = "/register/finish" →
   P (register_finish inet_in listUsers valid_email verifyRegistrationResponse generateLink s env req)) →
  (endpoint req = "/login/start" → P (login_start s env req)) →
  (endpoint req = "/login/finish" →
   P (login_finish inet_in verifyAuthenticationResponse generateLink s env req)) →
  (endpoint req = "/passkeys/list" → P (passkeys_list s req)) →
  (endpoint req = "/passkeys/remove" → P (passkeys_remove s req)) →
  (endpoint req = "/passkeys/update" → P (passkeys_update s req)) →
  P (s, ok (error "NOT_FOUND" ("Unknown endpoint: " +:+ endpoint req))) →
  P (serve s env req).
Proof.
  intros. unfold EdgeFunction.serve.
  repeat case_match; try done;
    match goal with
    | H : String.eqb _ _ = true |- _ => apply String.eqb_eq in H; auto
    end.
Qed.

(** *** Creating a challenge *)

Lemma insert_challenge_Some s id row s' k :
  insert_challenge s id row = (s', Some k) →
  k = id
  ∧ passkey_challenges s !! id = None
  ∧ (∀ j rj, passkey_challenges s !! j = Some rj →
             ch_challenge rj ≠ ch_challenge row)
  ∧ s' = set_challenges s (<[id := row]> (passkey_challenges s)).
Proof.
  unfold insert_challenge.
  destruct (bool_decide _) eqn:Hkey; [done|].
  destruct (existsb _ _) eqn:Hnonce; [done|]. cbn.
  intros [= <- <-]. split; [done|].
  apply bool_decide_eq_false in Hkey.
  split; [by apply eq_None_not_Some|]. split; [|done].
  intros j rj Hj Heq.
  assert (existsb (λ kv, String.eqb (ch_challenge kv.2) (ch_challenge row))
            (map_to_list (passkey_challenges s)) = true) as Htrue.
  { apply existsb_exists. exists (j, rj). split.
    - apply list_elem_of_In. by apply elem_of_map_to_list.
    - cbn. by apply String.eqb_eq. }
  congruence.
Qed.

Lemma insert_challenge_None s id row s' :
  insert_challenge s id row = (s', None) → s' = s.
Proof. unfold insert_challenge. case_match; cbn; congruence. Qed.

(** What a request does to the challenge table: nothing, or it removes the
    row a finish-call names, or it adds one row under a free identity whose
    nonce no stored row carries. *)
Lemma serve_challenge_table s env req :
  passkey_challenges (serve s env req).1 = passkey_challenges s
  ∨ (is_finish (endpoint req)
     ∧ passkey_challenges (serve s env req).1
       = delete (challengeId req) (passkey_challenges s))
  ∨ (is_start (endpoint req)
     ∧ ∃ row,
         passkey_challenges s !! uuid env = None
         ∧ (∀ j rj, passkey_challenges s !! j = Some rj →
                    ch_challenge rj ≠ ch_challenge row)
         ∧ passkey_challenges (serve s env req).1
           = <[uuid env := row]> (passkey_challenges s)).
Proof.
  destruct (decide (is_finish (endpoint req))) as [Hfin|Hnf].
  { right. left. split; [done|].
    by apply (serve_finish_challenges inet_in listUsers valid_email verifyRegistrationResponse
                verifyAuthenticationResponse generateLink). }
  unfold EdgeFunction.serve.
  destruct (String.eqb (endpoint req) "/register/start") eqn:E1.
  { apply String.eqb_eq in E1. unfold EdgeFunction.register_start.
    destruct (check_passkey_rate_limit _ _ _ _ _ _) as [limits blocked].
    destruct (rejected blocked); [by left|].
    match goal with
    | |- context [insert_challenge ?s0 ?id ?row] =>
        destruct (insert_challenge s0 id row) as [s1 [k|]] eqn:Hins
    end.
    - apply insert_challenge_Some in Hins as (-> & Hfree & Hnonce & ->).
      right. right. split; [by left|]. eexists. cbn. eauto.
    - apply insert_challenge_None in Hins as ->. by left. }
  destruct (String.eqb (endpoint req) "/register/finish") eqn:E2.
  { apply String.eqb_eq in E2. exfalso. apply Hnf. by left. }
  destruct (String.eqb (endpoint req) "/login/start") eqn:E3.
  { apply String.eqb_eq in E3. unfold EdgeFunction.login_start.
    destruct (check_passkey_rate_limit _ _ _ _ _ _) as [limits blocked].
    destruct (rejected blocked); [by left|].
    repeat case_match; try (by left);
      match goal with
      | H : insert_challenge ?s0 ?id ?row = (_, Some _) |- _ =>
          apply insert_challenge_Some in H as (-> & Hfree & Hnonce & ->);
          right; right; split; [by right|]; eexists; cbn; eauto
      | H : insert_challenge ?s0 ?id ?row = (_, None) |- _ =>
          apply insert_challenge_None in H as ->; by left
      end. }
  destruct (String.eqb (endpoint req) "/login/finish") eqn:E4.
  { apply String.eqb_eq in E4. exfalso. apply Hnf. by right. }
  left. repeat case_match; try done.
  - unfold passkeys_list. by case_match.
  - unfold EdgeFunction.passkeys_remove, delete_credential. by repeat case_match.
  - unfold EdgeFunction.passkeys_update, update_credential. by repeat case_match; simplify_eq/=.
Qed.

(** X2. A pending challenge is never altered: after any request its row is
    as it was, or it is gone because the request was a finish-call naming
    it. *)
Theorem challenge_rows_stable s env req id row :
  passkey_challenges s !! id = Some row →
  passkey_challenges (serve s env req).1 !! id = Some row
  ∨ (passkey_challenges (serve s env req).1 !! id = None
     ∧ is_finish (endpoint req) ∧ challengeId req = id).
Proof.
  intros Hrow.
  destruct (serve_challenge_table s env req)
    as [->|[[Hfin ->]|[Hst (new & Hfree & _ & ->)]]].
  - by left.
  - destruct (decide (challengeId req = id)) as [Heq|Hne].
    + right. subst id. by rewrite lookup_delete_eq.
    + left. by rewrite lookup_delete_ne.
  - left. rewrite lookup_insert_ne; [done|]. intros Heq. congruence.
Qed.

(** X3. The nonces of the stored challenges stay pairwise distinct. *)
Theorem nonces_stay_unique s env req :
  nonces_unique s → nonces_unique (serve s env req).1.
Proof.
  intros Huniq.
  destruct (serve_challenge_table s env req)
    as [Heq|[[Hfin Heq]|[Hst (new & Hfree & Hnonce & Heq)]]];
    unfold nonces_unique; rewrite Heq; intros i j ri rj Hi Hj Hn.
  - by eapply Huniq.
  - apply lookup_delete_Some in Hi as [_ Hi].
    apply lookup_delete_Some in Hj as [_ Hj]. by eapply Huniq.
  - apply lookup_insert_Some in Hi as [[<- <-]|[Hine Hi]];
      apply lookup_insert_Some in Hj as [[<- <-]|[Hjne Hj]].
    + done.
    + exfalso. by eapply Hnonce.
    + exfalso. by eapply Hnonce.
    + by eapply Huniq.
Qed.

(** *** Accounts *)

(** The users after the [try] block of finish-registration: the same, or
    one more, for an email that the listing did not show and that no user
    had. *)
Lemma register_finish_try_users env req ch s :
  auth_users (register_finish_try env req ch s).1 = auth_users s
  ∨ ∃ e,
      ch_email ch = Some e
      ∧ find_user_by_email s (Some e) = None
      ∧ (e ∉ u_email <$> auth_users s)
      ∧ auth_users (register_finish_try env req ch s).1
        = auth_users s ++ [{| u_id := new_user_id env; u_email := e |}].
Proof.
  unfold EdgeFunction.register_finish_try. unfold_try.
  destruct (verifyRegistrationResponse _ _ _ _) as [msg|v]; [by left|].
  destruct (vr_verified v); [|by left].
  destruct (vr_registrationInfo v) as [info|]; [|by left].
  destruct (find_user_by_email s (ch_email ch)) as [u|] eqn:Hfind.
  { left. repeat case_match; simplify_eq/=; done. }
  destruct (ch_email ch) as [e|] eqn:He; [|by left].
  destruct (valid_email e); cbn [andb]; [|by left].
  destruct (bool_decide (e ∈ u_email <$> auth_users s)) eqn:Hdup;
    cbn [negb]; [by left|].
  apply bool_decide_eq_false in Hdup.
  right. exists e. split; [done|]. split; [done|]. split; [done|].
  repeat case_match; simplify_eq/=; done.
Qed.

Lemma login_finish_try_users env req ch r id cred s :
  auth_users (login_finish_try env req ch r id cred s).1 = auth_users s.
Proof.
  unfold EdgeFunction.login_finish_try. unfold_try.
  repeat case_match; simplify_eq/=; done.
Qed.

Lemma insert_challenge_users s id row :
  auth_users (insert_challenge s id row).1 = auth_users s.
Proof. unfold insert_challenge. by case_match. Qed.

(** X4. Accounts only grow, one at a time: a request leaves the users as they
    are, or (a finish-registration only) adds one user for an email that no
    user had, so that emails stay unique. *)
Theorem accounts_only_grow s env req :
  emails_unique s →
  emails_unique (serve s env req).1
  ∧ (auth_users (serve s env req).1 = auth_users s
     ∨ (endpoint req = "/register/finish"
        ∧ ∃ e,
            find_user_by_email s (Some e) = None
            ∧ auth_users (serve s env req).1
              = auth_users s ++ [{| u_id := new_user_id env; u_email := e |}])).
Proof.
  intros Huniq.
  assert (auth_users (serve s env req).1 = auth_users s
          ∨ (endpoint req = "/register/finish"
             ∧ ∃ e,
                 find_user_by_email s (Some e) = None
                 ∧ (e ∉ u_email <$> auth_users s)
                 ∧ auth_users (serve s env req).1
                   = auth_users s ++ [{| u_id := new_user_id env; u_email := e |}]))
    as Hcases.
  { unfold EdgeFunction.serve.
    destruct (String.eqb (endpoint req) "/register/start") eqn:E1.
    { left. unfold EdgeFunction.register_start.
      destruct (check_passkey_rate_limit _ _ _ _ _ _) as [limits blocked].
      destruct (rejected blocked); [done|].
      match goal with
      | |- context [insert_challenge ?s0 ?id ?row] =>
          pose proof (insert_challenge_users s0 id row) as Hins;
          destruct (insert_challenge s0 id row) as [s1 [k|]]
      end; cbn in *; done. }
    destruct (String.eqb (endpoint req) "/register/finish") eqn:E2.
    { apply String.eqb_eq in E2. unfold register_finish.
      destruct (select_challenge _ _ _) as [ch|]; [|by left].
      destruct (_ <? _); [by left|].
      pose proof (register_finish_try_users env req ch
                    (delete_challenge s (challengeId req))) as Htry.
      destruct (register_finish_try env req ch _) as [s' [msg|a]]; cbn in *;
        (destruct Htry as [Htry|(e & _ & Hnone & Hnew & Htry)];
         [by left|right; split; [done|]; by exists e]). }
    left.
    destruct (String.eqb (endpoint req) "/login/start") eqn:E3.
    { unfold EdgeFunction.login_start.
      destruct (check_passkey_rate_limit _ _ _ _ _ _) as [limits blocked].
      destruct (rejected blocked); [done|].
      repeat case_match; try done;
        match goal with
        | H : insert_challenge ?s0 ?id ?row = _ |- _ =>
            pose proof (insert_challenge_users s0 id row) as Hins;
            rewrite H in Hins
        end; cbn in *; done. }
    destruct (String.eqb (endpoint req) "/login/finish") eqn:E4.
    { unfold login_finish.
      destruct (select_challenge _ _ _) as [ch|]; [|done].
      destruct (_ <? _); [done|].
      destruct (authResponse req) as [r|]; [|done].
      destruct (_ !! ar_id r) as [cred|]; [|done].
      pose proof (login_finish_try_users env req ch r (ar_id r) cred
                    (delete_challenge s (challengeId req))) as Htry.
      destruct (login_finish_try env req ch r (ar_id r) cred _) as [s' [msg|a]];
        cbn in *; done. }
    repeat case_match; try done.
    - unfold passkeys_list. by case_match.
    - unfold EdgeFunction.passkeys_remove, delete_credential. by repeat case_match.
    - unfold EdgeFunction.passkeys_update, update_credential. by repeat case_match; simplify_eq/=. }
  split.
  - unfold emails_unique in *.
    destruct Hcases as [->|(_ & e & Hnone & Hnew & ->)]; [done|].
    rewrite fmap_app. apply NoDup_app. split; [done|]. split.
    + intros x Hx Hin. cbn in Hin. by apply list_elem_of_singleton in Hin as ->.
    + cbn. apply NoDup_singleton.
  - destruct Hcases as [?|(Hep & e & Hnone & _ & Husers)]; [by left|].
    right. split; [done|]. by exists e.
Qed.

(** *** Credentials *)

Lemma register_finish_try_credentials env req ch s id c :
  passkey_credentials s !! id = Some c →
  passkey_credentials (register_finish_try env req ch s).1 !! id = Some c.
Proof.
  intros Hc. unfold EdgeFunction.register_finish_try. unfold_try.
  repeat case_match; simplify_eq/=; try done;
    rewrite lookup_insert_ne; try done; congruence.
Qed.

Lemma login_finish_try_credentials env req ch r id' cred s :
  passkey_credentials (login_finish_try env req ch r id' cred s).1
  = passkey_credentials s
  ∨ ∃ newCounter,
      passkey_credentials (login_finish_try env req ch r id' cred s).1
      = alter (with_counter newCounter (now env)) id' (passkey_credentials s).
Proof.
  unfold EdgeFunction.login_finish_try. unfold_try.
  repeat case_match; simplify_eq/=; eauto.
Qed.

Lemma insert_challenge_credentials s id row :
  passkey_credentials (insert_challenge s id row).1 = passkey_credentials s.
Proof. unfold insert_challenge. by case_match. Qed.

Lemma credential_kept req id c after :
  after = Some c → credential_kept_or_removed_by_owner req id c after.
Proof. by intros ->. Qed.

(** X5. A stored credential never changes owner, key, handle or creation
    time, and it leaves the store only through the remove endpoint called
    by its owner for that credential. *)
Theorem credential_owner_stable s env req id c :
  passkey_credentials s !! id = Some c →
  credential_kept_or_removed_by_owner req id c
    (passkey_credentials (serve s env req).1 !! id).
Proof.
  intros Hc. apply serve_cases; intros.
  - apply credential_kept. unfold EdgeFunction.register_start.
    destruct (check_passkey_rate_limit _ _ _ _ _ _) as [limits blocked].
    destruct (rejected blocked); [done|].
    match goal with
    | |- context [insert_challenge ?s0 ?id0 ?row] =>
        pose proof (insert_challenge_credentials s0 id0 row) as Hins;
        destruct (insert_challenge s0 id0 row) as [s1 [k|]]
    end; cbn in *; by rewrite Hins.
  - apply credential_kept. unfold register_finish.
    destruct (select_challenge _ _ _) as [ch|]; [|done].
    destruct (_ <? _); [done|].
    pose proof (register_finish_try_credentials env req ch
                  (delete_challenge s (challengeId req)) id c Hc) as Htry.
    destruct (register_finish_try env req ch _) as [s' [msg|a]]; cbn in *; done.
  - apply credential_kept. unfold EdgeFunction.login_start.
    destruct (check_passkey_rate_limit _ _ _ _ _ _) as [limits blocked].
    destruct (rejected blocked); [done|].
    repeat case_match; try done;
      match goal with
      | H : insert_challenge ?s0 ?id0 ?row = _ |- _ =>
          pose proof (insert_challenge_credentials s0 id0 row) as Hins;
          rewrite H in Hins
      end; cbn in *; by rewrite Hins.
  - unfold login_finish.
    destruct (select_challenge _ _ _) as [ch|]; [|by apply credential_kept].
    destruct (_ <? _); [by apply credential_kept|].
    destruct (authResponse req) as [r|]; [|by apply credential_kept].
    destruct (_ !! ar_id r) as [cred|]; [|by apply credential_kept].
    pose proof (login_finish_try_credentials env req ch r (ar_id r) cred
                  (delete_challenge s (challengeId req))) as Htry.
    destruct (login_finish_try env req ch r (ar_id r) cred _) as [s' [msg|a]];
      cbn in *;
      (destruct Htry as [->|[n ->]]; [by apply credential_kept|];
       rewrite lookup_alter; case_decide; subst; rewrite Hc; cbn; done).
  - apply credential_kept. unfold passkeys_list. by case_match.
  - unfold EdgeFunction.passkeys_remove, delete_credential.
    destruct (caller req) as [a|] eqn:Hcaller; [|by apply credential_kept].
    destruct (passkey_credentials s !! credentialId req) as [row|] eqn:Hrow;
      [|by apply credential_kept].
    destruct (String.eqb (cr_user_id row) a) eqn:Hown;
      [|by apply credential_kept].
    apply String.eqb_eq in Hown. cbn.
    destruct (decide (credentialId req = id)) as [Heq|Hne].
    + rewrite Heq, lookup_delete_eq. cbn.
      rewrite Heq, Hc in Hrow. injection Hrow as <-. by subst a.
    + rewrite lookup_delete_ne by done. by apply credential_kept.
  - unfold EdgeFunction.passkeys_update, update_credential.
    destruct (caller req) as [a|]; [|by apply credential_kept].
    destruct (passkey_credentials s !! credentialId req) as [row|] eqn:Hrow;
      [|by destruct (authenticatorName req); apply credential_kept].
    destruct (authenticatorName req) as [name|]; [|by apply credential_kept].
    destruct (String.eqb (cr_user_id row) a); [|by apply credential_kept].
    destruct (varchar 255 name) as [label|]; [|by apply credential_kept].
    cbn. destruct (decide (credentialId req = id)) as [Heq|Hne].
    + rewrite Heq, lookup_insert_eq. cbn.
      rewrite Heq, Hc in Hrow. by injection Hrow as <-.
    + rewrite lookup_insert_ne by done. by apply credential_kept.
  - by apply credential_kept.
Qed.

End Invariants.

End HandlerInvariants.

(* ===================================================================== *)
(** ** Behaviour of the endpoints *)
(* ===================================================================== *)

Module HandlerBehaviour.
Import EdgeFunction EdgeFunctionFacts Housekeeping HandlerInvariants.

Lemma created_desc_total : Total created_desc.
Proof. intros a b. unfold created_desc. lia. Qed.

Lemma created_desc_trans : Transitive created_desc.
Proof. intros a b c. unfold created_desc. lia. Qed.

Lemma filter_NoDup_fst {A B} (f : A * B → bool) (l : list (A * B)) :
  NoDup l.*1 → NoDup (List.filter f l).*1.
Proof.
  induction l as [|x l IH]; cbn; [done|].
  rewrite NoDup_cons. intros [Hx Hl].
  destruct (f x); cbn; [|by apply IH].
  apply NoDup_cons. split; [|by apply IH].
  intros Hin. apply Hx.
  apply list_elem_of_fmap in Hin as (y & -> & Hy).
  apply list_elem_of_In, filter_In in Hy as [Hy _].
  apply list_elem_of_fmap. exists y. split; [done|]. by apply list_elem_of_In.
Qed.

(** The rows a credential query returns are the stored rows that satisfy
    the filter, each once. *)
Lemma elem_of_select_credentials s P id c :
  (id, c) ∈ select_credentials s P
  ↔ passkey_credentials s !! id = Some c ∧ P id c = true.
Proof.
  unfold select_credentials.
  rewrite list_elem_of_In, filter_In, <- list_elem_of_In, elem_of_map_to_list.
  done.
Qed.

Lemma select_credentials_NoDup s P : NoDup (select_credentials s P).*1.
Proof. apply filter_NoDup_fst, NoDup_fst_map_to_list. Qed.

Section Behaviour.

Variable inet_in : string → bool.
Variable listUsers : list User → list User.
Variable valid_email : string → bool.
Variable verifyRegistrationResponse :
  option AuthenticatorResponse → string → string → string →
  outcome VerifiedRegistrationResponse.
Variable verifyAuthenticationResponse :
  AuthenticatorResponse → string → string → string →
  string → string → Z → outcome VerifiedAuthenticationResponse.
Variable generateLink : option string → option (option string).

Abbreviation register_start := (register_start inet_in).
Abbreviation login_start := (login_start inet_in listUsers).
Abbreviation passkeys_remove := (passkeys_remove inet_in).
Abbreviation passkeys_update := (passkeys_update inet_in).
Abbreviation log_passkey_audit_event := (log_passkey_audit_event inet_in).
Abbreviation find_user_by_email := (find_user_by_email listUsers).
Abbreviation no_credentials_for := (no_credentials_for listUsers).
Abbreviation serve :=
  (serve inet_in listUsers valid_email verifyRegistrationResponse verifyAuthenticationResponse generateLink).
Abbreviation register_finish_try :=
  (register_finish_try inet_in listUsers valid_email verifyRegistrationResponse generateLink).
Abbreviation login_finish_try :=
  (login_finish_try inet_in verifyAuthenticationResponse generateLink).

(** *** Listing *)

(** X6. For an authenticated caller the list endpoint changes nothing and
    answers with the caller's credentials, all of them and no others, each
    once, newest first. *)
Theorem passkeys_list_own s env req a :
  endpoint req = "/passkeys/list" →
  caller req = Some a →
  ∃ rows,
    serve s env req
    = (s, ok (success (Passkeys (map (λ kv, to_passkey kv.1 kv.2) rows))))
    ∧ (∀ id c, (id, c) ∈ rows
               ↔ passkey_credentials s !! id = Some c ∧ cr_user_id c = a)
    ∧ NoDup rows.*1
    ∧ StronglySorted created_desc rows.
Proof.
  intros Hep Hcaller.
  exists (merge_sort created_desc
            (select_credentials s (λ _ c, String.eqb (cr_user_id c) a))).
  split; [|split; [|split]].
  - unfold EdgeFunction.serve. rewrite Hep. cbn.
    unfold passkeys_list. by rewrite Hcaller.
  - intros id c. rewrite merge_sort_Permutation, elem_of_select_credentials.
    by rewrite String.eqb_eq.
  - rewrite merge_sort_Permutation. apply select_credentials_NoDup.
  - pose proof created_desc_total. pose proof created_desc_trans.
    apply StronglySorted_merge_sort; apply _.
Qed.

(** *** Logging *)

(** A call of [log_passkey_audit_event] with the client address: its row
    is added when PostgreSQL reads the address as an inet value; if not,
    the call fails and the log stays as it is. The other tables are not
    touched. *)
Lemma log_event_log s ev ip :
  p_ip_address ev = Some ip →
  passkey_audit_log (log_passkey_audit_event s ev)
  = passkey_audit_log s ++ (if inet_in ip then [ev] else []).
Proof.
  intros Hip. cbn. unfold ip_address_accepted. rewrite Hip.
  destruct (inet_in ip); [done|by rewrite app_nil_r].
Qed.

(** *** A verified authentication *)


(** *** The registration ceremony *)

(** What a successful begin-registration has stored and returned. *)
Lemma register_start_creates s env req s1 options id :
  endpoint req = "/register/start" →
  serve s env req = (s1, ok (success (RegisterStarted options id))) →
  id = uuid env
  ∧ ro_challenge options = nonce env
  ∧ passkey_challenges s !! id = None
  ∧ passkey_challenges s1 !! id
    = Some {| ch_challenge := nonce env; ch_email := email req;
              ch_webauthn_user_id := Some (webauthnUserId env);
              ch_type := registration;
              ch_expires_at := now env + 300000 |}
  ∧ passkey_credentials s1 = passkey_credentials s
  ∧ auth_users s1 = auth_users s.
Proof.
  intros Hep.
  rewrite (serve_register_start inet_in listUsers valid_email
             verifyRegistrationResponse verifyAuthenticationResponse
             generateLink) by done.
  unfold EdgeFunction.register_start.
  destruct (check_passkey_rate_limit _ _ _ _ _ _) as [limits blocked].
  destruct (rejected blocked); [done|].
  match goal with
  | |- context [insert_challenge ?s0 ?id0 ?row] =>
      destruct (insert_challenge s0 id0 row) as [s' [k|]] eqn:Hins
  end; [|done].
  apply insert_challenge_Some in Hins as (-> & Hfree & _ & ->).
  intros [= <- <- <-]. cbn. rewrite lookup_insert_eq. done.
Qed.

(** X8. A begin-registration followed by the finish-call for the ceremony it
    returned. Later than five minutes after the begin, the answer is
    CHALLENGE_EXPIRED and a [challenge_expired] row is logged. Up to and
    including five minutes, the verifier is asked about the nonce that was
    issued, the origin and the relying-party id of the finishing request;
    when it throws or does not verify, the answer is VERIFICATION_FAILED
    and a [registration_failed] row with the email of the begin-call and
    the verifier's message is logged. Either way the challenge is gone,
    credentials and users are as before, and the row is logged only when
    the client address of the finish-call is an inet value. *)
Theorem registration_ceremony s env1 req1 s1 options id env2 req2 :
  endpoint req1 = "/register/start" →
  serve s env1 req1 = (s1, ok (success (RegisterStarted options id))) →
  endpoint req2 = "/register/finish" →
  challengeId req2 = id →
  passkey_challenges (serve s1 env2 req2).1
  = delete id (passkey_challenges s1)
  ∧ (now env1 + 300000 < now env2 →
     (serve s1 env2 req2).2
     = ok (error "CHALLENGE_EXPIRED" "Challenge has expired")
     ∧ passkey_credentials (serve s1 env2 req2).1 = passkey_credentials s1
     ∧ auth_users (serve s1 env2 req2).1 = auth_users s1
     ∧ passkey_audit_log (serve s1 env2 req2).1
       = passkey_audit_log s1
         ++ (if inet_in (clientIP req2) then
               [{| event_type := challenge_expired; p_user_id := None;
                   p_credential_id := None; p_email := email req1;
                   p_ip_address := Some (clientIP req2);
                   p_origin := None; p_error_message := None |}]
             else []))
  ∧ (now env2 ≤ now env1 + 300000 →
     ∀ message,
       match verifyRegistrationResponse (authResponse req2)
               (nonce env1) (origin req2) (rpId req2) with
       | Throws e => e = message
       | Returns v =>
           (vr_verified v = false ∨ vr_registrationInfo v = None)
           ∧ message = "Verification failed"
       end →
       (serve s1 env2 req2).2
       = ok (error "VERIFICATION_FAILED" "Registration verification failed")
       ∧ passkey_credentials (serve s1 env2 req2).1 = passkey_credentials s1
       ∧ auth_users (serve s1 env2 req2).1 = auth_users s1
       ∧ passkey_audit_log (serve s1 env2 req2).1
         = passkey_audit_log s1
           ++ (if inet_in (clientIP req2) then
                 [{| event_type := registration_failed; p_user_id := None;
                     p_credential_id := None; p_email := email req1;
                     p_ip_address := Some (clientIP req2);
                     p_origin := None; p_error_message := Some message |}]
               else [])).
Proof.
  intros Hep1 Hstart Hep2 Hid.
  destruct (register_start_creates s env1 req1 s1 options id Hep1 Hstart)
    as (_ & Hnonce & _ & Hrow & Hcreds & Husers).
  split.
  { rewrite <- Hid. apply serve_finish_challenges. by left. }
  rewrite (serve_register_finish inet_in listUsers valid_email
             verifyRegistrationResponse verifyAuthenticationResponse
             generateLink) by done.
  unfold register_finish, select_challenge. rewrite Hid, Hrow.
  cbn [ch_type]. rewrite decide_True by done.
  cbn [ch_expires_at ch_email ch_challenge].
  split.
  - intros Hlate. apply Z.ltb_lt in Hlate. rewrite Hlate.
    cbn [fst snd]. repeat (split; [done|]).
    by rewrite (log_event_log _ _ (clientIP req2)) by reflexivity.
  - intros Hlive message Hverdict. apply Z.ltb_ge in Hlive. rewrite Hlive.
    unfold EdgeFunction.register_finish_try. unfold_try.
    cbn [ch_expires_at ch_email ch_challenge].
    assert (∀ e,
      (EdgeFunction.log_passkey_audit_event inet_in (delete_challenge s1 id)
         {| event_type := registration_failed; p_user_id := None;
            p_credential_id := None; p_email := email req1;
            p_ip_address := Some (clientIP req2);
            p_origin := None; p_error_message := Some e |},
       ok (error "VERIFICATION_FAILED" "Registration verification failed")).2
      = ok (error "VERIFICATION_FAILED" "Registration verification failed")
      ∧ passkey_credentials
          (EdgeFunction.log_passkey_audit_event inet_in (delete_challenge s1 id)
             {| event_type := registration_failed; p_user_id := None;
                p_credential_id := None; p_email := email req1;
                p_ip_address := Some (clientIP req2);
                p_origin := None; p_error_message := Some e |}) = passkey_credentials s1
      ∧ auth_users
          (EdgeFunction.log_passkey_audit_event inet_in (delete_challenge s1 id)
             {| event_type := registration_failed; p_user_id := None;
                p_credential_id := None; p_email := email req1;
                p_ip_address := Some (clientIP req2);
                p_origin := None; p_error_message := Some e |}) = auth_users s1
      ∧ passkey_audit_log
          (EdgeFunction.log_passkey_audit_event inet_in (delete_challenge s1 id)
             {| event_type := registration_failed; p_user_id := None;
                p_credential_id := None; p_email := email req1;
                p_ip_address := Some (clientIP req2);
                p_origin := None; p_error_message := Some e |})
        = passkey_audit_log s1
          ++ (if inet_in (clientIP req2) then
                [{| event_type := registration_failed; p_user_id := None;
                    p_credential_id := None; p_email := email req1;
                    p_ip_address := Some (clientIP req2);
                    p_origin := None; p_error_message := Some e |}]
              else [])) as Hfail.
    { intros e0. repeat (split; [done|]).
      by rewrite (log_event_log _ _ (clientIP req2)) by reflexivity. }
    destruct (verifyRegistrationResponse _ _ _ _) as [e0|v0];
      [subst; apply Hfail|].
    destruct Hverdict as [[Hv|Hv] ->]; rewrite Hv; [apply Hfail|].
    destruct (vr_verified v0); apply Hfail.
Qed.

(** *** A verified registration *)

(** A label of at most 255 characters is stored as it is. *)
Lemma label_fits (label : option string) :
  (∀ name, label = Some name → (String.length name ≤ 255)%nat) →
  nullable_varchar 255 (or_else label None) = Some (or_else label None).
Proof.
  intros Hfits. unfold or_else, truthy.
  destruct label as [name|]; [|done].
  destruct (String.eqb name EmptyString); [done|]. cbn.
  rewrite RateLimitFacts.varchar_fits; [done|].
  apply Nat.leb_le. by apply Hfits.
Qed.

(** X9. When the verifier accepts a finish-registration for a credential
    identity that is not stored yet, with a label of at most 255
    characters, the credential is bound to an account for the challenge's
    email. If the listing of users shows a user with that email, the row
    belongs to that user and the users are as before. If it shows none
    and the provider creates a user (the email is valid and no user has
    it), the row belongs to the new user. In both cases the row carries
    the challenge's handle and the verifier's key, counter and flags, and
    the answer is a success with the new passkey if link data comes back
    and VERIFICATION_FAILED, with the credential stored all the same, if
    none does. If the listing shows none and the provider creates no
    user, nothing is stored and the answer is VERIFICATION_FAILED. *)
Theorem register_finish_binds_account s env req ch v info e handle :
  endpoint req = "/register/finish" →
  select_challenge s (challengeId req) registration = Some ch →
  now env ≤ ch_expires_at ch →
  verifyRegistrationResponse (authResponse req) (ch_challenge ch)
    (origin req) (rpId req) = Returns v →
  vr_verified v = true →
  vr_registrationInfo v = Some info →
  ch_email ch = Some e →
  ch_webauthn_user_id ch = Some handle →
  passkey_credentials s !! ri_id info = None →
  (∀ name, authenticatorName req = Some name → (String.length name ≤ 255)%nat) →
  let row (owner : string) :=
    {| cr_user_id := owner;
       cr_webauthn_user_id := handle;
       cr_public_key := ri_publicKey info;
       cr_counter := ri_counter info;
       cr_device_type := ri_deviceType info;
       cr_backed_up := ri_backedUp info;
       cr_transports := ri_transports info;
       cr_authenticator_name := or_else (authenticatorName req) None;
       cr_created_at := now env;
       cr_last_used_at := None |} in
  let answer :=
    match generateLink (Some e) with
    | Some hashed_token =>
        ok (success (RegisterFinished hashed_token
              (Some {| pk_id := ri_id info;
                       pk_authenticatorName :=
                         or_else (authenticatorName req) None;
                       pk_deviceType := ri_deviceType info;
                       pk_backedUp := ri_backedUp info;
                       pk_createdAt := now env;
                       pk_lastUsedAt := None |})))
    | None =>
        ok (error "VERIFICATION_FAILED" "Registration verification failed")
    end in
  (∀ u, find_user_by_email s (Some e) = Some u →
        auth_users (serve s env req).1 = auth_users s
        ∧ passkey_credentials (serve s env req).1
          = <[ri_id info := row (u_id u)]> (passkey_credentials s)
        ∧ (serve s env req).2 = answer)
  ∧ (find_user_by_email s (Some e) = None →
     valid_email e = true →
     (e ∉ u_email <$> auth_users s) →
     auth_users (serve s env req).1
     = auth_users s ++ [{| u_id := new_user_id env; u_email := e |}]
     ∧ passkey_credentials (serve s env req).1
       = <[ri_id info := row (new_user_id env)]> (passkey_credentials s)
     ∧ (serve s env req).2 = answer)
  ∧ (find_user_by_email s (Some e) = None →
     valid_email e = false ∨ e ∈ (u_email <$> auth_users s) →
     auth_users (serve s env req).1 = auth_users s
     ∧ passkey_credentials (serve s env req).1 = passkey_credentials s
     ∧ (serve s env req).2
       = ok (error "VERIFICATION_FAILED" "Registration verification failed")).
Proof.
  intros Hep Hsel Hlive Hv Hok Hinfo He Hhandle Hfree Hlabel row answer.
  subst row answer.
  rewrite (serve_register_finish inet_in listUsers valid_email
             verifyRegistrationResponse verifyAuthenticationResponse
             generateLink) by done.
  unfold register_finish. rewrite Hsel.
  apply Z.ltb_ge in Hlive. rewrite Hlive.
  unfold EdgeFunction.register_finish_try. unfold_try.
  rewrite Hv, Hok, Hinfo, He, Hhandle, (label_fits _ Hlabel). cbn [fst snd].
  change (EdgeFunction.find_user_by_email listUsers
            (delete_challenge s (challengeId req)) (Some e))
    with (find_user_by_email s (Some e)).
  split; [|split].
  - intros u Hfind. rewrite Hfind.
    cbn [passkey_credentials delete_challenge set_challenges].
    rewrite Hfree. by destruct (generateLink (Some e)) as [token|].
  - intros Hfind Hvalid Hnew. rewrite Hfind, Hvalid.
    rewrite bool_decide_eq_false_2 by done. cbn [andb negb].
    cbn [passkey_credentials delete_challenge set_challenges set_users
         auth_users].
    rewrite Hfree. by destruct (generateLink (Some e)) as [token|].
  - intros Hfind Hrefused. rewrite Hfind.
    cbn [auth_users delete_challenge set_challenges].
    assert (valid_email e && negb (bool_decide (e ∈ u_email <$> auth_users s))
            = false) as ->.
    { destruct Hrefused as [->|Hdup]; [done|].
      rewrite bool_decide_eq_true_2 by done. apply andb_false_r. }
    done.
Qed.

(** X10. When the verifier accepts a finish-registration for a credential
    identity that is already stored, the stored credentials are left as
    they are, whoever owns the row. When an account for the challenge's
    email is found or created and link data comes back, the answer is
    still a success, only without a passkey; when the listing shows no
    user with that email and the provider creates none, the answer is
    VERIFICATION_FAILED. *)
Theorem register_finish_keeps_existing s env req ch v info e existing :
  endpoint req = "/register/finish" →
  select_challenge s (challengeId req) registration = Some ch →
  now env ≤ ch_expires_at ch →
  verifyRegistrationResponse (authResponse req) (ch_challenge ch)
    (origin req) (rpId req) = Returns v →
  vr_verified v = true →
  vr_registrationInfo v = Some info →
  ch_email ch = Some e →
  passkey_credentials s !! ri_id info = Some existing →
  passkey_credentials (serve s env req).1 = passkey_credentials s
  ∧ (is_Some (find_user_by_email s (Some e))
     ∨ (valid_email e = true ∧ (e ∉ u_email <$> auth_users s)) →
     (serve s env req).2
     = match generateLink (Some e) with
       | Some hashed_token => ok (success (RegisterFinished hashed_token None))
       | None =>
           ok (error "VERIFICATION_FAILED" "Registration verification failed")
       end)
  ∧ (find_user_by_email s (Some e) = None →
     valid_email e = false ∨ e ∈ (u_email <$> auth_users s) →
     (serve s env req).2
     = ok (error "VERIFICATION_FAILED" "Registration verification failed")
     ∧ auth_users (serve s env req).1 = auth_users s).
Proof.
  intros Hep Hsel Hlive Hv Hok Hinfo He Htaken.
  rewrite (serve_register_finish inet_in listUsers valid_email
             verifyRegistrationResponse verifyAuthenticationResponse
             generateLink) by done.
  unfold register_finish. rewrite Hsel.
  apply Z.ltb_ge in Hlive. rewrite Hlive.
  unfold EdgeFunction.register_finish_try. unfold_try.
  rewrite Hv, Hok, Hinfo, He. cbn [fst snd].
  change (EdgeFunction.find_user_by_email listUsers
            (delete_challenge s (challengeId req)) (Some e))
    with (find_user_by_email s (Some e)).
  destruct (find_user_by_email s (Some e)) as [u|] eqn:Hfind.
  - cbn [passkey_credentials delete_challenge set_challenges set_users].
    rewrite Htaken.
    destruct (generateLink (Some e)) as [token|]; cbn;
      (split; [done|]); (split; [done|]); done.
  - cbn [auth_users delete_challenge set_challenges].
    destruct (valid_email e) eqn:Hvalid; cbn [andb];
      [destruct (bool_decide (e ∈ u_email <$> auth_users s)) eqn:Hdup;
       cbn [negb]|].
    + apply bool_decide_eq_true in Hdup.
      cbn. split; [done|]. split; [|done].
      intros [[u Hu]|[_ Hnew]]; done.
    + apply bool_decide_eq_false in Hdup.
      cbn [passkey_credentials delete_challenge set_challenges set_users].
      rewrite Htaken.
      destruct (generateLink (Some e)) as [token|]; cbn;
        (split; [done|]); (split; [done|]); intros _ [?|?]; done.
    + cbn. split; [done|]. split; [|done].
      intros [[u Hu]|[? _]]; done.
Qed.

(** *** Begin authentication *)

(** X11. A successful begin-authentication stores one authentication challenge
    under the identity it returns, with the nonce of the options and an
    expiry five minutes ahead. With a non-empty email the allow-list is
    the credentials of the user with that email, all of them and no others,
    and there is at least one; without an email the options carry no
    allow-list. *)
Theorem login_start_allow_list s env req options id :
  endpoint req = "/login/start" →
  (serve s env req).2 = ok (success (LoginStarted options id)) →
  id = uuid env
  ∧ ao_challenge options = nonce env
  ∧ passkey_challenges (serve s env req).1 !! id
    = Some {| ch_challenge := nonce env; ch_email := email req;
              ch_webauthn_user_id := None; ch_type := authentication;
              ch_expires_at := now env + 300000 |}
  ∧ if truthy (email req) then
      ∃ u ids,
        find_user_by_email s (email req) = Some u
        ∧ ao_allowCredentials options = Some ids
        ∧ ids ≠ []
        ∧ NoDup ids
        ∧ ∀ k, k ∈ ids
               ↔ ∃ c, passkey_credentials s !! k = Some c
                      ∧ cr_user_id c = u_id u
    else ao_allowCredentials options = None.
Proof.
  intros Hep.
  rewrite (serve_login_start inet_in listUsers valid_email verifyRegistrationResponse
             verifyAuthenticationResponse generateLink) by done.
  unfold EdgeFunction.login_start.
  destruct (check_passkey_rate_limit _ _ _ _ _ _) as [limits blocked].
  destruct (rejected blocked); [done|].
  destruct (truthy (email req)).
  - change (find_user_by_email (set_rate_limits s limits) (email req))
      with (find_user_by_email s (email req)).
    destruct (find_user_by_email s (email req)) as [u|]; [|done].
    rewrite select_credentials_set_rate_limits.
    destruct (select_credentials s _) as [|kv rows] eqn:Hrows; [done|].
    match goal with
    | |- context [insert_challenge ?s0 ?id0 ?row] =>
        destruct (insert_challenge s0 id0 row) as [s' [k|]] eqn:Hins
    end; [|done].
    apply insert_challenge_Some in Hins as (-> & _ & _ & ->).
    intros [= <- <-]. cbn. rewrite lookup_insert_eq.
    do 3 (split; [done|]).
    exists u, (kv.1 :: rows.*1). split; [done|]. split; [done|].
    split; [done|]. split.
    + change (kv.1 :: rows.*1) with ((kv :: rows).*1). rewrite <- Hrows.
      apply select_credentials_NoDup.
    + intros k. change (kv.1 :: rows.*1) with ((kv :: rows).*1).
      rewrite <- Hrows, list_elem_of_fmap. split.
      * intros ([k' c] & -> & Hin).
        apply elem_of_select_credentials in Hin as [Hc Hown].
        exists c. split; [done|]. by apply String.eqb_eq.
      * intros (c & Hc & Hown). exists (k, c). split; [done|].
        apply elem_of_select_credentials. split; [done|].
        by apply String.eqb_eq.
  - match goal with
    | |- context [insert_challenge ?s0 ?id0 ?row] =>
        destruct (insert_challenge s0 id0 row) as [s' [k|]] eqn:Hins
    end; [|done].
    apply insert_challenge_Some in Hins as (-> & _ & _ & ->).
    intros [= <- <-]. cbn. by rewrite lookup_insert_eq.
Qed.

End Behaviour.

End HandlerBehaviour.

(* ===================================================================== *)
(** ** Runs of requests, credential management, cleanup *)
(* ===================================================================== *)

Module HandlerRuns.
Import EdgeFunction EdgeFunctionFacts Housekeeping HandlerInvariants
  HandlerBehaviour.

Section Runs.

Variable inet_in : string → bool.
Variable listUsers : list User → list User.
Variable valid_email : string → bool.
Variable verifyRegistrationResponse :
  option AuthenticatorResponse → string → string → string →
  outcome VerifiedRegistrationResponse.
Variable verifyAuthenticationResponse :
  AuthenticatorResponse → string → string → string →
  string → string → Z → outcome VerifiedAuthenticationResponse.
Variable generateLink : option string → option (option string).

Abbreviation register_start := (register_start inet_in).
Abbreviation login_start := (login_start inet_in listUsers).
Abbreviation passkeys_remove := (passkeys_remove inet_in).
Abbreviation passkeys_update := (passkeys_update inet_in).
Abbreviation log_passkey_audit_event := (log_passkey_audit_event inet_in).
Abbreviation find_user_by_email := (find_user_by_email listUsers).
Abbreviation no_credentials_for := (no_credentials_for listUsers).
Abbreviation serve :=
  (serve inet_in listUsers valid_email verifyRegistrationResponse verifyAuthenticationResponse generateLink).
Abbreviation responses :=
  (responses inet_in listUsers valid_email verifyRegistrationResponse verifyAuthenticationResponse generateLink).
Abbreviation register_finish_try :=
  (register_finish_try inet_in listUsers valid_email verifyRegistrationResponse generateLink).
Abbreviation login_finish_try :=
  (login_finish_try inet_in verifyAuthenticationResponse generateLink).

(** *** The limiter in front of the begin endpoints *)

Lemma is_start_fits ep : is_start ep → endpoint_fits ep = true.
Proof. by intros [->| ->]. Qed.

(** A begin-call that the limiter lets through is not answered
    RATE_LIMITED. *)
Lemma start_allowed s env req :
  is_start (endpoint req) →
  rejected (ip_check s env req).2 = false →
  error_code (serve s env req).2 ≠ Some "RATE_LIMITED".
Proof.
  unfold ip_check.
  intros [Hep|Hep];
    [rewrite (serve_register_start inet_in listUsers valid_email verifyRegistrationResponse
                verifyAuthenticationResponse generateLink) by done
    |rewrite (serve_login_start inet_in listUsers valid_email verifyRegistrationResponse
                verifyAuthenticationResponse generateLink) by done].
  - unfold EdgeFunction.register_start.
    destruct (check_passkey_rate_limit _ _ _ _ _ _) as [limits blocked].
    cbn [snd]. intros ->.
    by destruct (insert_challenge _ _ _) as [s1 [k|]].
  - unfold EdgeFunction.login_start.
    destruct (check_passkey_rate_limit _ _ _ _ _ _) as [limits blocked].
    cbn [snd]. intros ->.
    repeat case_match; done.
Qed.

Lemma begin_calls_from trace : ∀ s ident ep w (n : nat) r,
  is_start ep →
  Forall (λ er, endpoint er.2 = ep ∧ clientIP er.2 = ident
                ∧ date_trunc_minute (now er.1) = w) trace →
  responses s trace !! n = Some r →
  (count_in ident ip ep w (passkey_rate_limits s) + Z.of_nat n + 1 ≤ 5 →
     error_code r ≠ Some "RATE_LIMITED")
  ∧ (5 < count_in ident ip ep w (passkey_rate_limits s) + Z.of_nat n + 1 →
     r = ok (error "RATE_LIMITED" "Too many requests")).
Proof.
  induction trace as [|[env req] rest IH]; intros s ident ep w n r Hst Hall Hr;
    [done|].
  apply Forall_cons in Hall as [(Hep & Hip & Hw) Hrest]. cbn in Hep, Hip, Hw.
  assert (is_start (endpoint req)) as Hst' by by rewrite Hep.
  pose proof (start_rate_limits inet_in listUsers valid_email verifyRegistrationResponse
                verifyAuthenticationResponse generateLink s env req Hst')
    as Hlimits.
  pose proof (start_rejected inet_in listUsers valid_email verifyRegistrationResponse
                verifyAuthenticationResponse generateLink s env req Hst')
    as Hrej.
  pose proof (start_allowed s env req Hst') as Hallow.
  unfold ip_check in *. rewrite Hep, Hip in *.
  rewrite (RateLimitFacts.check_increments ident ip ep
             RATE_LIMITS_ip_maxAttempts w (is_start_fits ep Hst) eq_refl
             _ _ Hw) in *.
  cbn [Housekeeping.responses] in Hr.
  destruct (serve s env req) as [s' r0] eqn:Hserve. cbn [fst snd] in *.
  unfold RATE_LIMITS_ip_maxAttempts in *.
  destruct (INT_MAX <? count_in ident ip ep w (passkey_rate_limits s) + 1)
    eqn:Hov; cbn [fst snd rejected] in *.
  - apply Z.ltb_lt in Hov. unfold INT_MAX in Hov.
    destruct n as [|n]; cbn in Hr.
    + injection Hr as <-. split; [lia|]. intros _.
      by injection (Hrej eq_refl) as _ ->.
    + destruct (IH s' ident ep w n r Hst Hrest Hr) as [_ Hblocked].
      rewrite Hlimits in Hblocked. split; [lia|]. intros _.
      apply Hblocked. lia.
  - destruct n as [|n]; cbn in Hr.
    + injection Hr as <-.
      destruct (5 <? count_in ident ip ep w (passkey_rate_limits s) + 1)
        eqn:Hk.
      * apply Z.ltb_lt in Hk. split; [lia|]. intros _.
        by injection (Hrej eq_refl) as _ ->.
      * apply Z.ltb_ge in Hk. split; [|lia]. intros _. by apply Hallow.
    + destruct (IH s' ident ep w n r Hst Hrest Hr) as [Hok Hblocked].
      assert (count_in ident ip ep w (passkey_rate_limits s')
              = count_in ident ip ep w (passkey_rate_limits s) + 1) as Hc.
      { rewrite Hlimits. unfold count_in at 1. by rewrite lookup_insert_eq. }
      rewrite Hc in Hok, Hblocked.
      split; intros ?; [apply Hok|apply Hblocked]; lia.
Qed.

(** X12. From one address, on one begin endpoint and within one minute that has
    no row yet, the first five calls are not answered RATE_LIMITED,
    whatever else they answer, and every later call is. *)
Theorem begin_calls_ceiling s trace ident ep w :
  is_start ep →
  Forall (λ er, endpoint er.2 = ep ∧ clientIP er.2 = ident
                ∧ date_trunc_minute (now er.1) = w) trace →
  passkey_rate_limits s !! (ident, ip, ep, w) = None →
  ∀ (n : nat) r,
    responses s trace !! n = Some r →
    (Z.of_nat n < 5 → error_code r ≠ Some "RATE_LIMITED")
    ∧ (5 ≤ Z.of_nat n → r = ok (error "RATE_LIMITED" "Too many requests")).
Proof.
  intros Hst Hall Hfresh n r Hr.
  destruct (begin_calls_from trace s ident ep w n r Hst Hall Hr) as [Hok Hbl].
  unfold count_in in Hok, Hbl. rewrite Hfresh in Hok, Hbl. cbn in Hok, Hbl.
  split; intros ?; [apply Hok|apply Hbl]; lia.
Qed.

(** *** Managing one's own credentials *)

(** X13. When its owner removes a credential, the row is deleted and
    nothing else is, a [passkey_removed] row is logged when the client
    address is an inet value (and none otherwise), the answer is a
    success, and from then on a finish-authentication that presents the
    credential on a live challenge answers CREDENTIAL_NOT_FOUND without
    consulting the verifier. *)
Theorem owner_remove_effective s env req a c :
  endpoint req = "/passkeys/remove" →
  caller req = Some a →
  passkey_credentials s !! credentialId req = Some c →
  cr_user_id c = a →
  (serve s env req).2 = ok (success Removed)
  ∧ passkey_credentials (serve s env req).1
    = delete (credentialId req) (passkey_credentials s)
  ∧ passkey_challenges (serve s env req).1 = passkey_challenges s
  ∧ passkey_rate_limits (serve s env req).1 = passkey_rate_limits s
  ∧ auth_users (serve s env req).1 = auth_users s
  ∧ passkey_audit_log (serve s env req).1
    = passkey_audit_log s
      ++ (if inet_in (clientIP req) then
            [{| event_type := passkey_removed; p_user_id := Some a;
                p_credential_id := Some (credentialId req); p_email := None;
                p_ip_address := Some (clientIP req);
                p_origin := None; p_error_message := None |}]
          else [])
  ∧ ∀ env' req' r ch,
      endpoint req' = "/login/finish" →
      authResponse req' = Some r →
      ar_id r = credentialId req →
      select_challenge (serve s env req).1 (challengeId req') authentication
      = Some ch →
      now env' ≤ ch_expires_at ch →
      (serve (serve s env req).1 env' req').2
      = ok (error "CREDENTIAL_NOT_FOUND" "Credential not found").
Proof.
  intros Hep Hcaller Hc Hown.
  assert (serve s env req
          = (log_passkey_audit_event
               (set_credentials s
                  (delete (credentialId req) (passkey_credentials s)))
               {| event_type := passkey_removed; p_user_id := Some a;
                  p_credential_id := Some (credentialId req); p_email := None;
                  p_ip_address := Some (clientIP req);
                  p_origin := None; p_error_message := None |},
             ok (success Removed))) as Hserve.
  { rewrite (serve_passkeys_remove inet_in listUsers valid_email
               verifyRegistrationResponse verifyAuthenticationResponse
               generateLink) by done.
    unfold EdgeFunction.passkeys_remove, delete_credential.
    rewrite Hcaller, Hc.
    apply String.eqb_eq in Hown. by rewrite Hown. }
  rewrite Hserve. cbn [fst snd].
  repeat (split; [done|]). split.
  { by rewrite (log_event_log inet_in _ _ (clientIP req)) by reflexivity. }
  intros env' req' r ch Hep' Hr Hid Hsel Hlive.
  rewrite (serve_login_finish inet_in listUsers valid_email
             verifyRegistrationResponse verifyAuthenticationResponse
             generateLink) by done.
  unfold login_finish. rewrite Hsel.
  apply Z.ltb_ge in Hlive. rewrite Hlive, Hr. cbn.
  by rewrite Hid, lookup_delete_eq.
Qed.

(** X14. When its owner renames a credential with a label of at most 255
    characters, the row gets the new label and keeps every other column,
    no other row changes, a [passkey_updated] row is logged when the
    client address is an inet value (and none otherwise), the answer
    carries the updated row, and the owner's next listing shows the
    credential under the new label. A label of more than 255 characters
    whose 256th is not a space does not fit the column: nothing changes
    and the answer to the owner is CREDENTIAL_NOT_FOUND. *)
Theorem owner_update_renames s env req a c name :
  endpoint req = "/passkeys/update" →
  caller req = Some a →
  passkey_credentials s !! credentialId req = Some c →
  cr_user_id c = a →
  authenticatorName req = Some name →
  let renamed :=
    {| cr_user_id := cr_user_id c;
       cr_webauthn_user_id := cr_webauthn_user_id c;
       cr_public_key := cr_public_key c;
       cr_counter := cr_counter c;
       cr_device_type := cr_device_type c;
       cr_backed_up := cr_backed_up c;
       cr_transports := cr_transports c;
       cr_authenticator_name := Some name;
       cr_created_at := cr_created_at c;
       cr_last_used_at := cr_last_used_at c |} in
  ((String.length name ≤ 255)%nat →
   (serve s env req).2 = ok (success (Updated (credentialId req) renamed))
   ∧ passkey_credentials (serve s env req).1
     = <[credentialId req := renamed]> (passkey_credentials s)
   ∧ passkey_audit_log (serve s env req).1
     = passkey_audit_log s
       ++ (if inet_in (clientIP req) then
             [{| event_type := passkey_updated; p_user_id := Some a;
                 p_credential_id := Some (credentialId req); p_email := None;
                 p_ip_address := Some (clientIP req);
                 p_origin := None; p_error_message := None |}]
           else [])
   ∧ ∀ env' req',
       endpoint req' = "/passkeys/list" →
       caller req' = Some a →
       ∃ passkeys,
         (serve (serve s env req).1 env' req').2
         = ok (success (Passkeys passkeys))
         ∧ {| pk_id := credentialId req;
              pk_authenticatorName := Some name;
              pk_deviceType := cr_device_type c;
              pk_backedUp := cr_backed_up c;
              pk_createdAt := cr_created_at c;
              pk_lastUsedAt := cr_last_used_at c |} ∈ passkeys
         ∧ ∀ p, p ∈ passkeys → pk_id p = credentialId req →
                pk_authenticatorName p = Some name)
  ∧ ((255 < String.length name)%nat →
     String.get 255 name ≠ Some " "%char →
     serve s env req
     = (s, ok (error "CREDENTIAL_NOT_FOUND" "Passkey not found"))).
Proof.
  intros Hep Hcaller Hc Hown Hname renamed.
  rewrite (serve_passkeys_update inet_in listUsers valid_email
             verifyRegistrationResponse verifyAuthenticationResponse
             generateLink) by done.
  unfold EdgeFunction.passkeys_update, update_credential.
  rewrite Hcaller, Hc, Hname.
  apply String.eqb_eq in Hown. rewrite Hown.
  split.
  - intros Hfits.
    rewrite RateLimitFacts.varchar_fits by by apply Nat.leb_le.
    change (with_authenticator_name name c) with renamed.
    cbn [fst snd].
    split; [done|]. split; [done|]. split.
    { by rewrite (log_event_log inet_in _ _ (clientIP req)) by reflexivity. }
    intros env' req' Hep' Hcaller'.
    unfold EdgeFunction.serve. rewrite Hep'.
    cbn [String.eqb Ascii.eqb Bool.eqb].
    unfold passkeys_list. rewrite Hcaller'. cbn [snd].
    eexists. split; [done|]. split.
    + apply list_elem_of_fmap. exists (credentialId req, renamed).
      split; [done|].
      rewrite merge_sort_Permutation. apply elem_of_select_credentials.
      cbn. rewrite lookup_insert_eq. split; [done|]. exact Hown.
    + intros p Hp Hid.
      apply list_elem_of_fmap in Hp as ([id c'] & -> & Hin).
      rewrite merge_sort_Permutation in Hin.
      apply elem_of_select_credentials in Hin as [Hin _].
      cbn in Hin, Hid. subst id. rewrite lookup_insert_eq in Hin.
      by simplify_eq.
  - intros Hlong Hchar.
    by rewrite RateLimitFacts.varchar_refused.
Qed.

(** *** Cleanup of expired challenges *)

(** X15. Cleanup deletes the challenges whose expiry lies before the given time
    and only those, reports how many it deleted, and leaves the other
    tables alone. *)
Theorem cleanup_removes_expired_only s t :
  (∀ id row,
     passkey_challenges (cleanup_expired_passkey_challenges s t).1 !! id
     = Some row
     ↔ passkey_challenges s !! id = Some row ∧ t ≤ ch_expires_at row)
  ∧ (cleanup_expired_passkey_challenges s t).2
    = Z.of_nat (size (passkey_challenges s))
      - Z.of_nat (size (passkey_challenges
                          (cleanup_expired_passkey_challenges s t).1))
  ∧ 0 ≤ (cleanup_expired_passkey_challenges s t).2
  ∧ passkey_credentials (cleanup_expired_passkey_challenges s t).1
    = passkey_credentials s
  ∧ passkey_audit_log (cleanup_expired_passkey_challenges s t).1
    = passkey_audit_log s
  ∧ passkey_rate_limits (cleanup_expired_passkey_challenges s t).1
    = passkey_rate_limits s.
Proof.
  unfold cleanup_expired_passkey_challenges. cbn.
  split; [|split; [|split; [lia|done]]].
  - intros id row. rewrite map_lookup_filter_Some. cbn.
    split; intros [? ?]; split; [done|lia|done|lia].
  - pose proof (map_filter_union_complement
                  (λ kv : string * Challenge, ch_expires_at kv.2 < t)
                  (passkey_challenges s)) as Hunion.
    pose proof (map_disjoint_filter_complement
                  (λ kv : string * Challenge, ch_expires_at kv.2 < t)
                  (passkey_challenges s)) as Hdisj.
    rewrite <- Hunion at 2. rewrite map_size_disj_union by done. lia.
Qed.

(** The [try] blocks do not read the challenge table. *)
Lemma register_finish_try_frame env req ch s m :
  register_finish_try env req ch (set_challenges s m)
  = (set_challenges (register_finish_try env req ch s).1 m,
     (register_finish_try env req ch s).2).
Proof.
  unfold EdgeFunction.register_finish_try, EdgeFunction.find_user_by_email.
  unfold_try.
  cbn. repeat case_match; simplify_eq/=; try done; congruence.
Qed.

Lemma login_finish_try_frame env req ch r id cred s m :
  login_finish_try env req ch r id cred (set_challenges s m)
  = (set_challenges (login_finish_try env req ch r id cred s).1 m,
     (login_finish_try env req ch r id cred s).2).
Proof.
  unfold EdgeFunction.login_finish_try, getUserById. unfold_try.
  cbn. repeat case_match; simplify_eq/=; done.
Qed.

(** A finish-call's answer depends on the challenge table only through the
    row it selects. *)
Lemma finish_response_frame s m env req :
  is_finish (endpoint req) →
  select_challenge (set_challenges s m) (challengeId req) registration
  = select_challenge s (challengeId req) registration →
  select_challenge (set_challenges s m) (challengeId req) authentication
  = select_challenge s (challengeId req) authentication →
  (serve (set_challenges s m) env req).2 = (serve s env req).2
  ∧ passkey_credentials (serve (set_challenges s m) env req).1
    = passkey_credentials (serve s env req).1.
Proof.
  intros [Hep|Hep] Hreg Hauth.
  - rewrite !(serve_register_finish inet_in listUsers valid_email verifyRegistrationResponse
                verifyAuthenticationResponse generateLink) by done.
    unfold register_finish. rewrite Hreg.
    destruct (select_challenge s (challengeId req) registration) as [ch|];
      [|done].
    destruct (_ <? _); [done|].
    change (delete_challenge (set_challenges s m) (challengeId req))
      with (set_challenges (delete_challenge s (challengeId req))
              (delete (challengeId req) m)).
    rewrite register_finish_try_frame.
    by destruct (register_finish_try env req ch _) as [s' [e|a]].
  - rewrite !(serve_login_finish inet_in listUsers valid_email verifyRegistrationResponse
                verifyAuthenticationResponse generateLink) by done.
    unfold login_finish. rewrite Hauth.
    destruct (select_challenge s (challengeId req) authentication) as [ch|];
      [|done].
    destruct (_ <? _); [done|].
    destruct (authResponse req) as [r|]; [|done].
    change (passkey_credentials
              (delete_challenge (set_challenges s m) (challengeId req)))
      with (passkey_credentials (delete_challenge s (challengeId req))).
    destruct (_ !! ar_id r) as [cred|]; [|done].
    change (delete_challenge (set_challenges s m) (challengeId req))
      with (set_challenges (delete_challenge s (challengeId req))
              (delete (challengeId req) m)).
    rewrite login_finish_try_frame.
    by destruct (login_finish_try env req ch r (ar_id r) cred _) as [s' [e|a]].
Qed.

(** X16. Cleanup and the finish endpoints. A finish-call made no earlier than
    a cleanup gets the answer it would have got without the cleanup, and
    writes the same credentials, with one exception: where it would have
    answered CHALLENGE_EXPIRED for a challenge that the cleanup deleted, it
    now answers CHALLENGE_MISMATCH. *)
Theorem cleanup_then_finish s t env req :
  is_finish (endpoint req) →
  t ≤ now env →
  passkey_credentials
    (serve (cleanup_expired_passkey_challenges s t).1 env req).1
  = passkey_credentials (serve s env req).1
  ∧ ((serve (cleanup_expired_passkey_challenges s t).1 env req).2
     = (serve s env req).2
     ∨ ((serve s env req).2
        = ok (error "CHALLENGE_EXPIRED" "Challenge has expired")
        ∧ (serve (cleanup_expired_passkey_challenges s t).1 env req).2
          = ok (error "CHALLENGE_MISMATCH" "Invalid or expired challenge")
        ∧ ∃ row, passkey_challenges s !! challengeId req = Some row
                 ∧ ch_expires_at row < t)).
Proof.
  intros Hfin Ht.
  unfold cleanup_expired_passkey_challenges. cbn [fst].
  set (m := filter (λ kv, ¬ ch_expires_at kv.2 < t) (passkey_challenges s)).
  destruct (passkey_challenges s !! challengeId req) as [row|] eqn:Hrow.
  - destruct (decide (ch_expires_at row < t)) as [Hold|Hlive].
    + assert (m !! challengeId req = None) as Hgone.
      { apply map_lookup_filter_None. right. intros x Hx. cbn.
        rewrite Hrow in Hx. injection Hx as <-. by intros []. }
      assert ((ch_expires_at row <? now env) = true) as Hexp
        by (apply Z.ltb_lt; lia).
      destruct Hfin as [Hep|Hep].
      * rewrite !(serve_register_finish inet_in listUsers valid_email verifyRegistrationResponse
                    verifyAuthenticationResponse generateLink) by done.
        unfold register_finish, select_challenge. cbn. rewrite Hgone, Hrow.
        case_decide; rewrite ?Hexp; cbn; eauto 10.
      * rewrite !(serve_login_finish inet_in listUsers valid_email verifyRegistrationResponse
                    verifyAuthenticationResponse generateLink) by done.
        unfold login_finish, select_challenge. cbn. rewrite Hgone, Hrow.
        case_decide; rewrite ?Hexp; cbn; eauto 10.
    + assert (m !! challengeId req = Some row) as Hkept.
      { apply map_lookup_filter_Some. by split. }
      destruct (finish_response_frame s m env req Hfin) as [Hresp Hcreds].
      * unfold select_challenge. cbn. by rewrite Hkept, Hrow.
      * unfold select_challenge. cbn. by rewrite Hkept, Hrow.
      * split; [done|by left].
  - assert (m !! challengeId req = None) as Hgone.
    { apply map_lookup_filter_None. by left. }
    destruct (finish_response_frame s m env req Hfin) as [Hresp Hcreds].
    + unfold select_challenge. cbn. by rewrite Hgone, Hrow.
    + unfold select_challenge. cbn. by rewrite Hgone, Hrow.
    + split; [done|by left].
Qed.

End Runs.

End HandlerRuns.

(* ===================================================================== *)
(** ** More on the rate limiter *)
(* ===================================================================== *)

Module RateLimitWindows.
Import RateLimit.

(** The window of a call is the minute that contains its time. *)
Lemma date_trunc_minute_spec now :
  date_trunc_minute now ≤ now < date_trunc_minute now + 60000
  ∧ date_trunc_minute now `mod` 60000 = 0.
Proof.
  unfold date_trunc_minute.
  pose proof (Z.mod_pos_bound now 60000 ltac:(lia)) as Hb.
  split; [lia|].
  rewrite Zminus_mod, Z.mod_mod, Z.sub_diag by lia. done.
Qed.

Lemma date_trunc_minute_later w now :
  w `mod` 60000 = 0 → w + 60000 ≤ now → w + 60000 ≤ date_trunc_minute now.
Proof.
  intros Hw Hnow.
  destruct (date_trunc_minute_spec now) as [Hb Hm].
  pose proof (Z.div_mod w 60000 ltac:(lia)) as Hdw.
  pose proof (Z.div_mod (date_trunc_minute now) 60000 ltac:(lia)) as Hdn.
  rewrite Hw in Hdw. rewrite Hm in Hdn.
  set (q := w `div` 60000) in *.
  set (q' := date_trunc_minute now `div` 60000) in *.
  clearbody q q'. generalize dependent (date_trunc_minute now).
  intros d Hb Hm Hdn. lia.
Qed.

(** An endpoint is counted under the text its column stores. *)
Lemma check_stored_endpoint tbl now ident ty ep stored K :
  varchar 50 ep = Some stored →
  endpoint_fits stored = true
  ∧ check_passkey_rate_limit tbl now ident ty ep K
    = check_passkey_rate_limit tbl now ident ty stored K.
Proof.
  intros Hst.
  assert (endpoint_fits stored = true) as Hfit.
  { apply Nat.leb_le. by eapply RateLimitFacts.varchar_length. }
  split; [done|]. unfold check_passkey_rate_limit.
  by rewrite Hst, (RateLimitFacts.varchar_fits _ _ Hfit).
Qed.

Lemma attempts_stored_endpoint times tbl ident ty ep stored K :
  varchar 50 ep = Some stored →
  attempts tbl times ident ty ep K = attempts tbl times ident ty stored K.
Proof.
  intros Hst. revert tbl.
  induction times as [|now rest IH]; intros tbl; [done|].
  cbn [attempts].
  rewrite (proj2 (check_stored_endpoint tbl now ident ty ep stored K Hst)).
  destruct (check_passkey_rate_limit tbl now ident ty stored K) as [tbl' r].
  by rewrite IH.
Qed.

(** A call that raises on every attempt answers nothing, ever. *)
Lemma attempts_raise times tbl ident ty ep K :
  (∀ tbl now, check_passkey_rate_limit tbl now ident ty ep K = (tbl, None)) →
  ∀ (j : nat) rj, attempts tbl times ident ty ep K !! j = Some rj → rj = None.
Proof.
  intros Hraise. revert tbl.
  induction times as [|now rest IH]; intros tbl j rj Hj; [done|].
  cbn [attempts] in Hj. rewrite Hraise in Hj.
  destruct j as [|j]; cbn in Hj; [by injection Hj as <-|].
  by eapply IH.
Qed.

(** X17. A call for an endpoint of at most 50 characters touches no window
    but its own: the counts kept for other identifiers, for the other
    identifier kind, for other endpoints and for other minutes are as
    before, and the count of its own window does not go down. With a
    ceiling outside the INTEGER range the call writes nothing at all. *)
Theorem check_touches_own_window tbl now ident ty ep K key :
  endpoint_fits ep = true →
  key ≠ (ident, ty, ep, date_trunc_minute now) →
  (check_passkey_rate_limit tbl now ident ty ep K).1 !! key = tbl !! key
  ∧ count_in ident ty ep (date_trunc_minute now) tbl
    ≤ count_in ident ty ep (date_trunc_minute now)
        (check_passkey_rate_limit tbl now ident ty ep K).1
  ∧ (¬ INT_MIN ≤ K ≤ INT_MAX →
     check_passkey_rate_limit tbl now ident ty ep K = (tbl, None)).
Proof.
  intros Hfit Hne. unfold check_passkey_rate_limit, count_in.
  rewrite (RateLimitFacts.varchar_fits _ _ Hfit).
  destruct (is_INTEGER K) eqn:HK; cbn [negb fst].
  - apply RateLimitFacts.is_INTEGER_spec in HK.
    destruct (tbl !! (ident, ty, ep, date_trunc_minute now)) as [c|] eqn:Hrow;
      destruct (INT_MAX <? _); cbn [fst]; rewrite ?Hrow;
      try (split; [done|split; [lia|done]]);
      rewrite lookup_insert_eq, lookup_insert_ne by done; cbn;
      (split; [done|split; [lia|done]]).
  - split; [done|]. split; [lia|done].
Qed.

(** X18. Within one window, rejection is final: once an attempt of a run is
    rejected, every later attempt of the run is rejected too, whatever the
    count the window started from. *)
Theorem rejection_is_final tbl times w ident ty ep K (i j : nat) ri rj :
  Forall (λ now, date_trunc_minute now = w) times →
  attempts tbl times ident ty ep K !! i = Some ri →
  attempts tbl times ident ty ep K !! j = Some rj →
  (i ≤ j)%nat →
  rejected ri = true → rejected rj = true.
Proof.
  intros Hall Hi Hj Hij Hri.
  destruct (varchar 50 ep) as [stored|] eqn:Hst.
  - rewrite (attempts_stored_endpoint _ _ _ _ _ _ _ Hst) in Hi, Hj.
    destruct (check_stored_endpoint tbl 0 ident ty ep stored K Hst)
      as [Hfit _].
    destruct (is_INTEGER K) eqn:HK.
    + destruct (RateLimitFacts.attempts_lookup ident ty stored K w Hfit HK
                  times tbl i ri Hall Hi) as [Hsi Hni].
      destruct (RateLimitFacts.attempts_lookup ident ty stored K w Hfit HK
                  times tbl j rj Hall Hj) as [Hsj Hnj].
      destruct (Z_le_gt_dec (count_in ident ty stored w tbl + Z.of_nat j + 1)
                  INT_MAX) as [Hfj|Hoj].
      * rewrite Hsj by done. rewrite Hsi in Hri by lia. cbn in *.
        apply Z.ltb_lt in Hri. apply Z.ltb_lt. lia.
      * rewrite Hnj by lia. done.
    + rewrite (attempts_raise times tbl ident ty stored K) with (j := j) (rj := rj);
        [done| |done].
      intros tbl' now. unfold check_passkey_rate_limit.
      rewrite (RateLimitFacts.varchar_fits _ _ Hfit), HK. done.
  - rewrite (attempts_raise times tbl ident ty ep K) with (j := j) (rj := rj);
      [done| |done].
    intros tbl' now. unfold check_passkey_rate_limit. by rewrite Hst.
Qed.

(** X19. Rejection lasts at most a minute: if every row kept for an identifier
    on an endpoint belongs to the minute of time [t0] or an earlier one,
    then a call made sixty seconds after the start of that minute or later
    opens a new window and is allowed, for any ceiling of at least one
    that is an INTEGER. *)
Theorem allowed_again_next_minute tbl t0 now ident ty ep K :
  endpoint_fits ep = true →
  1 ≤ K ≤ INT_MAX →
  (∀ w c, tbl !! (ident, ty, ep, w) = Some c → w ≤ date_trunc_minute t0) →
  date_trunc_minute t0 + 60000 ≤ now →
  (check_passkey_rate_limit tbl now ident ty ep K).2 = Some false
  ∧ (check_passkey_rate_limit tbl now ident ty ep K).1
      !! (ident, ty, ep, date_trunc_minute now) = Some 1.
Proof.
  intros Hfit HK Hpast Hnow.
  assert (tbl !! (ident, ty, ep, date_trunc_minute now) = None) as Hfresh.
  { destruct (tbl !! (ident, ty, ep, date_trunc_minute now)) as [c|] eqn:Hrow;
      [|done].
    apply Hpast in Hrow.
    pose proof (date_trunc_minute_later (date_trunc_minute t0) now
                  (proj2 (date_trunc_minute_spec t0)) Hnow). lia. }
  assert (is_INTEGER K = true) as HKfits.
  { apply RateLimitFacts.is_INTEGER_spec. unfold INT_MIN. lia. }
  unfold check_passkey_rate_limit.
  rewrite (RateLimitFacts.varchar_fits _ _ Hfit), Hfresh, HKfits. cbn.
  split; [|by rewrite lookup_insert_eq].
  f_equal. apply Z.ltb_ge. lia.
Qed.

End RateLimitWindows.

(* ===================================================================== *)
(** ** Properties of trimming and of the regular-expression matcher *)
(* ===================================================================== *)

Module JsTextFacts.
Import JsText.

#[local] Arguments String.append !_ _ / : simpl nomatch.

Lemma append_nil_r (s : string) : s +:+ EmptyString = s.
Proof. induction s; cbn; congruence. Qed.

Lemma append_assoc (s1 s2 s3 : string) :
  (s1 +:+ s2) +:+ s3 = s1 +:+ (s2 +:+ s3).
Proof. induction s1; cbn; congruence. Qed.

Lemma append_eq_nil (s1 s2 : string) :
  s1 +:+ s2 = EmptyString → s1 = EmptyString ∧ s2 = EmptyString.
Proof. destruct s1; cbn; [done|discriminate]. Qed.

Lemma length_append (s1 s2 : string) :
  String.length (s1 +:+ s2) = (String.length s1 + String.length s2)%nat.
Proof. induction s1; cbn; congruence. Qed.

Lemma all_chars_append p s1 s2 :
  all_chars p (s1 +:+ s2) = all_chars p s1 && all_chars p s2.
Proof. induction s1; cbn; [done|]. rewrite IHs1. by destruct (p a). Qed.

Lemma all_chars_impl (p q : ascii → bool) s :
  (∀ c, p c = true → q c = true) →
  all_chars p s = true → all_chars q s = true.
Proof.
  intros Hpq. induction s as [|c s IH]; cbn; [done|].
  intros [Hc Hs]%andb_true_iff. rewrite (Hpq _ Hc). cbn. auto.
Qed.

Lemma strip_trailing_nil p s :
  strip_trailing p s = EmptyString ↔ all_chars p s = true.
Proof.
  induction s as [|c s IH]; cbn; [done|].
  destruct (strip_trailing p s) eqn:Hs.
  - destruct (p c); cbn; [|split; discriminate].
    split; [intros _; by apply IH|done].
  - split; [discriminate|]. intros [_ Hall]%andb_true_iff.
    apply IH in Hall. discriminate.
Qed.

Lemma strip_trailing_id p s :
  all_chars (λ c, negb (p c)) s = true → strip_trailing p s = s.
Proof.
  induction s as [|c s IH]; cbn; [done|].
  intros [Hc Hs]%andb_true_iff. rewrite (IH Hs).
  apply negb_true_iff in Hc. rewrite Hc. by destruct s.
Qed.

Lemma trimStart_nil s :
  trimStart s = EmptyString ↔ all_chars is_whitespace s = true.
Proof.
  induction s as [|c s IH]; cbn; [done|].
  destruct (is_whitespace c); cbn; [done|]. split; discriminate.
Qed.

Lemma trimStart_head s c t :
  trimStart s = String c t → is_whitespace c = false.
Proof.
  induction s as [|a s IH]; cbn; [discriminate|].
  destruct (is_whitespace a) eqn:Ha; [done|]. congruence.
Qed.

(** [s.trim()] is empty exactly when [s] consists of white space. *)
Lemma trim_nil s :
  trim s = EmptyString ↔ all_chars is_whitespace s = true.
Proof.
  unfold trim, trimEnd. rewrite strip_trailing_nil. split.
  - intros Hall. apply trimStart_nil.
    destruct (trimStart s) as [|c t] eqn:Ht; [done|].
    apply trimStart_head in Ht. cbn in Hall. by rewrite Ht in Hall.
  - intros Hall. apply trimStart_nil in Hall. by rewrite Hall.
Qed.

(** A string without white space is its own trim. *)
Lemma trim_id s :
  all_chars (λ c, negb (is_whitespace c)) s = true → trim s = s.
Proof.
  intros Hall. unfold trim, trimEnd.
  assert (trimStart s = s) as ->.
  { destruct s as [|c s]; cbn in *; [done|].
    apply andb_true_iff in Hall as [Hc _].
    apply negb_true_iff in Hc. by rewrite Hc. }
  by apply strip_trailing_id.
Qed.

Lemma split_first_no_sep sep s :
  all_chars (λ c, negb (Ascii.eqb c sep)) (split_first sep s) = true.
Proof.
  induction s as [|c s IH]; cbn; [done|].
  destruct (Ascii.eqb c sep) eqn:Hc; cbn; [done|]. by rewrite Hc.
Qed.

Lemma trimStart_all p s :
  all_chars p s = true → all_chars p (trimStart s) = true.
Proof.
  induction s as [|c s IH]; cbn; [done|].
  intros [Hc Hs]%andb_true_iff.
  destruct (is_whitespace c); [auto|]. cbn. by rewrite Hc, Hs.
Qed.

Lemma strip_trailing_chars p q s :
  all_chars p s = true → all_chars p (strip_trailing q s) = true.
Proof.
  induction s as [|c s IH]; cbn; [done|].
  intros [Hc Hs]%andb_true_iff. specialize (IH Hs).
  destruct (strip_trailing q s) eqn:Ht.
  - destruct (q c); cbn; [done|]. by rewrite Hc.
  - cbn in *. by rewrite Hc, IH.
Qed.

Lemma trim_all p s : all_chars p s = true → all_chars p (trim s) = true.
Proof. intros. by apply strip_trailing_chars, trimStart_all. Qed.

Lemma strip_trailing_last p s c :
  last_char (strip_trailing p s) = Some c → p c = false.
Proof.
  induction s as [|a s IH]; cbn; [discriminate|].
  destruct (strip_trailing p s) as [|b t] eqn:Ht.
  - destruct (p a) eqn:Ha; cbn; [discriminate|]. congruence.
  - cbn. intros Hl. apply IH. cbn. exact Hl.
Qed.

Lemma strip_trailing_head p s c t :
  strip_trailing p s = String c t → ∃ t', s = String c t'.
Proof.
  destruct s as [|a s]; cbn; [discriminate|].
  destruct (strip_trailing p s); [destruct (p a)|]; intros; simplify_eq; eauto.
Qed.

(** ** The matcher decides the denotation *)

Lemma nullable_matches r : nullable r = true ↔ matches r EmptyString.
Proof.
  split.
  - induction r; cbn; try discriminate; intros Hn.
    + constructor.
    + apply andb_true_iff in Hn as [H1 H2].
      change EmptyString with (EmptyString +:+ EmptyString).
      constructor; auto.
    + apply orb_true_iff in Hn as [H1|H2];
        [apply matches_alt_l|apply matches_alt_r]; auto.
    + constructor.
  - intros Hm. remember EmptyString as s eqn:Hs.
    induction Hm; cbn; try done.
    + apply append_eq_nil in Hs as [-> ->]. rewrite IHHm1, IHHm2; done.
    + rewrite IHHm; done.
    + rewrite IHHm, orb_true_r; done.
Qed.

Lemma deriv_sound c r s : matches (deriv c r) s → matches r (String c s).
Proof.
  revert s. induction r; cbn; intros s Hm.
  - inversion Hm.
  - inversion Hm.
  - destruct (p c) eqn:Hp; inversion Hm; subst. by constructor.
  - assert (∀ s, matches (Cat (deriv c r1) r2) s → matches (Cat r1 r2) (String c s))
      as Hcat.
    { intros s' Hm'. inversion Hm'; subst.
      change (String c (s1 +:+ s2)) with (String c s1 +:+ s2).
      constructor; auto. }
    destruct (nullable r1) eqn:Hn; [|by apply Hcat].
    inversion Hm; subst; [by apply Hcat|].
    change (String c s) with (EmptyString +:+ String c s).
    constructor; [by apply nullable_matches|auto].
  - inversion Hm; subst;
      [apply matches_alt_l|apply matches_alt_r]; auto.
  - inversion Hm; subst.
    change (String c (s1 +:+ s2)) with (String c s1 +:+ s2).
    constructor; auto.
Qed.

Lemma deriv_complete r s0 :
  matches r s0 → ∀ c s, s0 = String c s → matches (deriv c r) s.
Proof.
  induction 1; intros c' s' Heq; cbn.
  - discriminate.
  - simplify_eq. rewrite H. constructor.
  - destruct s1 as [|a s1]; cbn in Heq.
    + subst s2. assert (nullable r1 = true) as -> by by apply nullable_matches.
      apply matches_alt_r. eauto.
    + simplify_eq.
      assert (matches (Cat (deriv c' r1) r2) (s1 +:+ s2))
        by (constructor; eauto).
      destruct (nullable r1); [by apply matches_alt_l|done].
  - apply matches_alt_l; eauto.
  - apply matches_alt_r; eauto.
  - discriminate.
  - destruct s1 as [|a s1]; cbn in Heq.
    + subst s2. by apply IHmatches2.
    + simplify_eq. constructor; eauto.
Qed.

Lemma test_matches r s : test r s = true ↔ matches r s.
Proof.
  revert r. induction s as [|c s IH]; intros r; cbn.
  - apply nullable_matches.
  - rewrite IH. split; [apply deriv_sound|].
    intros Hm. by eapply deriv_complete.
Qed.

Lemma matches_class_inv p s :
  matches (Class p) s ↔ ∃ c, s = String c EmptyString ∧ p c = true.
Proof.
  split.
  - inversion 1; subst; eauto.
  - intros (c & -> & Hp). by constructor.
Qed.

Lemma matches_star_class p s :
  matches (Star (Class p)) s ↔ all_chars p s = true.
Proof.
  split.
  - intros Hm. remember (Star (Class p)) as r eqn:Hr.
    induction Hm; try discriminate; [done|]. simplify_eq.
    apply matches_class_inv in Hm1 as (c & -> & Hp). cbn.
    rewrite Hp. cbn. by apply IHHm2.
  - induction s as [|c s IH]; cbn; [constructor|].
    intros [Hc Hs]%andb_true_iff.
    change (String c s) with (String c EmptyString +:+ s).
    constructor; [by constructor|auto].
Qed.

Lemma matches_plus_class p s :
  matches (Plus (Class p)) s ↔ s ≠ EmptyString ∧ all_chars p s = true.
Proof.
  unfold Plus. split.
  - inversion 1; subst.
    apply matches_class_inv in H2 as (c & -> & Hp).
    apply matches_star_class in H4. cbn. by rewrite Hp.
  - intros [Hne Hall]. destruct s as [|c s]; [done|]. cbn in Hall.
    apply andb_true_iff in Hall as [Hc Hs].
    change (String c s) with (String c EmptyString +:+ s).
    constructor; [by constructor|by apply matches_star_class].
Qed.

Lemma matches_cat_inv r1 r2 s :
  matches (Cat r1 r2) s ↔
  ∃ s1 s2, s = s1 +:+ s2 ∧ matches r1 s1 ∧ matches r2 s2.
Proof.
  split.
  - inversion 1; subst; eauto.
  - intros (s1 & s2 & -> & H1 & H2). by constructor.
Qed.

Lemma matches_char c s :
  matches (Class (Ascii.eqb c)) s ↔ s = String c EmptyString.
Proof.
  rewrite matches_class_inv. split.
  - intros (c' & -> & ->%Ascii.eqb_eq). done.
  - intros ->. exists c. by rewrite Ascii.eqb_refl.
Qed.

End JsTextFacts.

(* ===================================================================== *)
(** ** Properties of the client's validation and message catalog *)
(* ===================================================================== *)

Module ValidationFacts.
Import Js JsText JsTextFacts ClientErrors Validation.

#[local] Arguments String.append !_ _ / : simpl nomatch.

Lemma not_space_or_at_spec c :
  not_space_or_at c = true ↔ is_whitespace c = false ∧ c ≠ "@"%char.
Proof.
  unfold not_space_or_at.
  rewrite andb_true_iff, !negb_true_iff, Ascii.eqb_neq. done.
Qed.

Lemma isValidEmail_matches s :
  isValidEmail s = true ↔ matches EMAIL_REGEX s.
Proof. apply test_matches. Qed.

(** X20. [isValidEmail] accepts exactly the strings of the form
    local@domain.tld in which each of the three parts is a non-empty run
    of characters other than white space and [@]. *)
Theorem isValidEmail_shape (email : string) :
  isValidEmail email = true ↔
  ∃ l d t, email = l +:+ "@" +:+ d +:+ "." +:+ t ∧ plain l ∧ plain d ∧ plain t.
Proof.
  rewrite isValidEmail_matches. unfold EMAIL_REGEX, plain. split.
  - intros Hm.
    apply matches_cat_inv in Hm as (l & ? & -> & Hl & Hm).
    apply matches_cat_inv in Hm as (? & ? & -> & ->%matches_char & Hm).
    apply matches_cat_inv in Hm as (d & ? & -> & Hd & Hm).
    apply matches_cat_inv in Hm as (? & t & -> & ->%matches_char & Ht).
    apply matches_plus_class in Hl, Hd, Ht. by exists l, d, t.
  - intros (l & d & t & -> & Hl & Hd & Ht).
    apply matches_plus_class in Hl, Hd, Ht.
    repeat (apply matches_cat; [done || by apply matches_char|]). done.
Qed.

Lemma plain_no_whitespace s :
  plain s → all_chars (λ c, negb (is_whitespace c)) s = true.
Proof.
  intros [_ Hall]. revert Hall. apply all_chars_impl.
  intros c [Hc _]%not_space_or_at_spec. by rewrite Hc.
Qed.

Lemma isValidEmail_no_whitespace s :
  isValidEmail s = true →
  s ≠ EmptyString ∧ all_chars (λ c, negb (is_whitespace c)) s = true.
Proof.
  intros (l & d & t & -> & Hl & Hd & Ht)%isValidEmail_shape. split.
  - destruct Hl as [Hl _]. destruct l; [done|]. cbn. discriminate.
  - rewrite !all_chars_append.
    rewrite (plain_no_whitespace l), (plain_no_whitespace d),
      (plain_no_whitespace t) by done. reflexivity.
Qed.

(** X21. [validateEmail] answers [valid] exactly for a string that
    [isValidEmail] accepts; such a string has no white space, so it is
    its own trim, and the test for an empty trim never rejects it. *)
Theorem validateEmail_valid (email : value) :
  validateEmail email = valid ↔
  ∃ s, email = Str s ∧ isValidEmail s = true ∧ trim s = s.
Proof.
  split.
  - destruct email; cbn; try discriminate.
    destruct (String.eqb (trim s) EmptyString); [discriminate|].
    destruct (isValidEmail s) eqn:Hv; cbn; [|discriminate].
    intros _. exists s. repeat split; [done|].
    apply trim_id. by apply isValidEmail_no_whitespace.
  - intros (s & -> & Hv & Htrim). cbn. rewrite Htrim, Hv.
    apply isValidEmail_no_whitespace in Hv as [Hne _].
    apply String.eqb_neq in Hne. by rewrite Hne.
Qed.

Lemma trim_eqb_nil s :
  String.eqb (trim s) EmptyString = all_chars is_whitespace s.
Proof.
  apply eq_true_iff_eq. rewrite String.eqb_eq. apply trim_nil.
Qed.

(** X22. [validateCredentialId] and [validateAuthenticatorName] answer
    [valid] exactly for a string with at least one character that is not
    white space, and [validateEmail] reports an empty email exactly for a
    string of white space only. *)
Theorem validate_nonblank (v : value) :
  (validateCredentialId v = valid ↔
   ∃ s, v = Str s ∧ all_chars is_whitespace s = false)
  ∧ (validateAuthenticatorName v = valid ↔
     ∃ s, v = Str s ∧ all_chars is_whitespace s = false)
  ∧ (validateEmail v = invalid "Email cannot be empty" ↔
     ∃ s, v = Str s ∧ all_chars is_whitespace s = true).
Proof.
  repeat split.
  - destruct v; cbn; try discriminate. rewrite trim_eqb_nil.
    destruct (all_chars is_whitespace s) eqn:Hs; [discriminate|]. eauto.
  - intros (s & -> & Hs). cbn. by rewrite trim_eqb_nil, Hs.
  - destruct v; cbn; try discriminate. rewrite trim_eqb_nil.
    destruct (all_chars is_whitespace s) eqn:Hs; [discriminate|]. eauto.
  - intros (s & -> & Hs). cbn. by rewrite trim_eqb_nil, Hs.
  - destruct v; cbn; try discriminate. rewrite trim_eqb_nil.
    destruct (all_chars is_whitespace s) eqn:Hs; [eauto|].
    destruct (isValidEmail s); cbn; discriminate.
  - intros (s & -> & Hs). cbn. by rewrite trim_eqb_nil, Hs.
Qed.

Lemma own_Some_elem key table m :
  own key table = Some m → (key, m) ∈ table.
Proof.
  induction table as [|[k v] rest IH]; cbn; [discriminate|].
  destruct (String.eqb key k) eqn:Hk.
  - apply String.eqb_eq in Hk as ->. intros [= ->]. left.
  - intros. right. auto.
Qed.

Lemma own_None key table :
  own key table = None ↔ key ∉ table.*1.
Proof.
  induction table as [|[k v] rest IH]; cbn.
  - split; [intros _; apply not_elem_of_nil|done].
  - destruct (String.eqb key k) eqn:Hk.
    + apply String.eqb_eq in Hk as ->. split; [discriminate|].
      intros []. left.
    + apply String.eqb_neq in Hk. rewrite not_elem_of_cons, IH. naive_solver.
Qed.

Lemma messages_keys : messages.*1 = PasskeyErrorCode.
Proof. reflexivity. Qed.

(** X23. Every error that [mapWebAuthnError] builds carries a code for
    which [getErrorMessage] has a non-empty text. *)
Theorem mapped_error_has_message (error : value) :
  ∃ code message,
    code_of (mapWebAuthnError error) = Some code
    ∧ code ∈ PasskeyErrorCode
    ∧ getErrorMessage code = Some message
    ∧ message ≠ EmptyString.
Proof.
  assert (∀ code, code ∈ PasskeyErrorCode →
    ∃ message, getErrorMessage code = Some message ∧ message ≠ EmptyString)
    as Hcat.
  { intros code Hc. unfold PasskeyErrorCode in Hc.
    repeat (apply elem_of_cons in Hc as [->|Hc];
            [eexists; split; [vm_compute; reflexivity|discriminate]|]).
    by apply elem_of_nil in Hc. }
  assert (∀ code m cause, code ∈ PasskeyErrorCode →
    ∃ code' message',
      code_of (createError code m cause) = Some code' ∧ code' ∈ PasskeyErrorCode
      ∧ getErrorMessage code' = Some message' ∧ message' ≠ EmptyString) as Hmk.
  { intros code m cause Hc. destruct (Hcat code Hc) as (msg & ? & ?).
    exists code, msg. done. }
  unfold mapWebAuthnError.
  destruct error; try (apply Hmk; unfold PasskeyErrorCode; set_solver).
  repeat case_match; apply Hmk; unfold PasskeyErrorCode; set_solver.
Qed.

(** X24. [getErrorMessage] gives each code of [PasskeyErrorCode] a text of
    its own, distinct from the text of every other code, and gives any
    other name the text of UNKNOWN_ERROR, unless the name is a member that
    the literal inherits from [Object.prototype]: then the value read is
    that member and no string is returned. *)
Theorem getErrorMessage_catalog (code : string) :
  (code ∈ PasskeyErrorCode →
   ∃ message, getErrorMessage code = Some message ∧ message ≠ EmptyString
     ∧ ∀ code', code' ∈ PasskeyErrorCode →
         getErrorMessage code' = Some message → code' = code)
  ∧ (code ∉ PasskeyErrorCode → code ∉ Object_prototype_members →
     getErrorMessage code = getErrorMessage "UNKNOWN_ERROR")
  ∧ (code ∈ Object_prototype_members → getErrorMessage code = None).
Proof.
  repeat split.
  - intros Hc. unfold PasskeyErrorCode in Hc.
    repeat (apply elem_of_cons in Hc as [->|Hc];
      [eexists; split; [vm_compute; reflexivity|]; split; [discriminate|];
       intros code' Hc'; unfold PasskeyErrorCode in Hc';
       repeat (apply elem_of_cons in Hc' as [->|Hc'];
               [vm_compute; congruence|]);
       by apply elem_of_nil in Hc'|]).
    by apply elem_of_nil in Hc.
  - intros Hc Hp. unfold getErrorMessage at 1.
    assert (own code messages = None) as ->
      by (apply own_None; by rewrite messages_keys).
    by rewrite bool_decide_eq_false_2.
  - intros Hc. unfold Object_prototype_members in Hc.
    repeat (apply elem_of_cons in Hc as [->|Hc]; [reflexivity|]).
    by apply elem_of_nil in Hc.
Qed.

End ValidationFacts.

(* ===================================================================== *)
(** ** Properties of the edge function's helpers *)
(* ===================================================================== *)

Module HelpersFacts.
Import JsText JsTextFacts Helpers.

#[local] Arguments String.append !_ _ / : simpl nomatch.

Lemma or_string_nonempty v k : k ≠ EmptyString → or_string v k ≠ EmptyString.
Proof.
  intros Hk. destruct v as [x|]; cbn; [|done].
  destruct (String.eqb x EmptyString) eqn:Hx; [done|].
  by apply String.eqb_neq.
Qed.

Lemma or_string_Some x k : x ≠ EmptyString → or_string (Some x) k = x.
Proof. intros Hx%String.eqb_neq. cbn. by rewrite Hx. Qed.

(** X25. [getClientIP] never returns the empty string. When the first
    entry of x-forwarded-for, trimmed, is not empty, it is the result,
    whatever the other headers say; it contains no comma and neither
    starts nor ends with white space. *)
Theorem getClientIP_forwarded_first (h : Headers) :
  getClientIP h ≠ EmptyString
  ∧ ∀ v, x_forwarded_for h = Some v →
      trim (split_first "," v) ≠ EmptyString →
      getClientIP h = trim (split_first "," v)
      ∧ all_chars (λ c, negb (Ascii.eqb c ",")) (getClientIP h) = true
      ∧ (∀ c, String.get 0 (getClientIP h) = Some c → is_whitespace c = false)
      ∧ (∀ c, last_char (getClientIP h) = Some c → is_whitespace c = false).
Proof.
  split.
  - unfold getClientIP. by repeat apply or_string_nonempty.
  - intros v Hv Hne. unfold getClientIP. rewrite Hv. cbn [fmap option_fmap option_map].
    rewrite or_string_Some by done. split; [done|]. split; [|split].
    + apply trim_all, split_first_no_sep.
    + intros c Hc. unfold trim, trimEnd in Hc.
      destruct (strip_trailing is_whitespace (trimStart (split_first "," v)))
        as [|c' t] eqn:Hs; [discriminate|].
      cbn in Hc. simplify_eq.
      apply strip_trailing_head in Hs as [t' Hs].
      by apply trimStart_head in Hs.
    + intros c Hc. by apply strip_trailing_last in Hc.
Qed.

(** ** Hexadecimal text *)

Lemma hex_loop_shift fuel i a b rest x bs :
  hex_loop fuel (S (S i)) (String a (String b rest)) (x :: bs)
  = x :: hex_loop fuel i rest bs.
Proof.
  revert i bs. induction fuel as [|fuel IH]; intros i bs; [done|].
  cbn [hex_loop].
  change (S (S i) <? String.length (String a (String b rest)))%nat
    with (i <? String.length rest)%nat.
  destruct (i <? String.length rest)%nat; [|done].
  change (S (S i) + 2)%nat with (S (S (i + 2))).
  change (String.substring (S (S i)) 2 (String a (String b rest)))
    with (String.substring i 2 rest).
  replace (S (S i) / 2)%nat with (S (i / 2)).
  - cbn [insert list_insert]. apply IH.
  - replace (S (S i)) with (i + 1 * 2)%nat by lia.
    rewrite Nat.div_add by done. lia.
Qed.

Lemma hex_loop_done fuel i hex bs :
  (String.length hex ≤ i)%nat → hex_loop fuel i hex bs = bs.
Proof.
  intros Hi. destruct fuel; [done|]. cbn [hex_loop].
  by rewrite (proj2 (Nat.ltb_ge _ _)).
Qed.

Lemma hex_loop_fuel fuel1 fuel2 i hex bs :
  (String.length hex ≤ i + fuel1)%nat → (String.length hex ≤ i + fuel2)%nat →
  hex_loop fuel1 i hex bs = hex_loop fuel2 i hex bs.
Proof.
  revert fuel2 i bs. induction fuel1 as [|fuel1 IH]; intros fuel2 i bs H1 H2.
  - rewrite (hex_loop_done fuel2) by lia. done.
  - cbn [hex_loop]. destruct (i <? String.length hex)%nat eqn:Hi.
    + apply Nat.ltb_lt in Hi. destruct fuel2 as [|fuel2]; [lia|].
      cbn [hex_loop]. rewrite (proj2 (Nat.ltb_lt _ _)) by done.
      apply IH; lia.
    + apply Nat.ltb_ge in Hi. by rewrite hex_loop_done.
Qed.

Lemma substring_0_0 s : String.substring 0 0 s = EmptyString.
Proof. by destruct s. Qed.

Lemma hex_loop_S fuel i hex bytes :
  hex_loop (S fuel) i hex bytes
  = if (i <? String.length hex)%nat then
      hex_loop fuel (i + 2) hex
        (<[(i / 2)%nat := ToUint8 (parseInt16 (String.substring i 2 hex))]> bytes)
    else bytes.
Proof. reflexivity. Qed.

Lemma hexToUint8Array_pair a b rest :
  hexToUint8Array (String a (String b rest))
  = ToUint8 (parseInt16 (String a (String b EmptyString)))
    :: hexToUint8Array rest.
Proof.
  unfold hexToUint8Array.
  change (String.length (String a (String b rest)))
    with (S (S (String.length rest))).
  replace (S (S (String.length rest)) / 2)%nat
    with (S (String.length rest / 2)).
  2:{ replace (S (S (String.length rest)))
        with (String.length rest + 1 * 2)%nat by lia.
      rewrite Nat.div_add by done. lia. }
  cbn [replicate]. rewrite hex_loop_S.
  change (0 <? String.length (String a (String b rest)))%nat with true.
  cbv iota.
  change (String.substring 0 2 (String a (String b rest)))
    with (String a (String b (String.substring 0 0 rest))).
  rewrite substring_0_0.
  change (0 / 2)%nat with 0%nat. change (0 + 2)%nat with 2%nat.
  cbn [insert list_insert]. rewrite hex_loop_shift. f_equal.
  apply hex_loop_fuel; lia.
Qed.

Lemma string_pair_ind (P : string → Prop) :
  P EmptyString →
  (∀ a, P (String a EmptyString)) →
  (∀ a b s, P s → P (String a (String b s))) →
  ∀ s, P s.
Proof.
  intros H0 H1 H2. fix IH 1. intros [|a [|b s]]; [done..|].
  apply H2, IH.
Qed.

(** X26. Whatever text [hexToUint8Array] is given, it returns an array
    of half as many bytes as the text has characters, rounded down, each
    entry from 0 to 255: a pair that is no hexadecimal number gives 0, and
    the assignment for a last single character falls outside the array and
    has no effect. *)
Theorem hexToUint8Array_total (hex : string) :
  length (hexToUint8Array hex) = (String.length hex / 2)%nat
  ∧ Forall is_byte (hexToUint8Array hex).
Proof.
  induction hex as [|a|a b rest [IHl IHb]] using string_pair_ind.
  - done.
  - done.
  - rewrite hexToUint8Array_pair. split.
    + cbn [length String.length]. rewrite IHl.
      replace (S (S (String.length rest)))
        with (String.length rest + 1 * 2)%nat by lia.
      rewrite Nat.div_add by done. lia.
    + constructor; [|done]. unfold is_byte, ToUint8.
      destruct (parseInt16 _); [|lia]. apply Z.mod_pos_bound. lia.
Qed.

Lemma byte_text b :
  is_byte b →
  ∃ x y, padStart 2 "0" (toString16 b) = String x (String y EmptyString)
    ∧ ToUint8 (parseInt16 (String x (String y EmptyString))) = b.
Proof.
  intros Hb.
  assert (forallb byte_text_ok (seq 0 256) = true) as Hall
    by (vm_compute; reflexivity).
  rewrite forallb_forall in Hall.
  specialize (Hall (Z.to_nat b)). unfold byte_text_ok in Hall.
  rewrite Z2Nat.id in Hall by (unfold is_byte in Hb; lia).
  destruct (padStart 2 "0" (toString16 b)) as [|x [|y [|]]] eqn:Ht;
    try (discriminate Hall; apply in_seq; unfold is_byte in Hb; lia).
  exists x, y. split; [done|]. apply Z.eqb_eq, Hall.
  apply in_seq. unfold is_byte in Hb. lia.
Qed.

Lemma uint8ArrayToHex_cons b bytes :
  uint8ArrayToHex (b :: bytes)
  = padStart 2 "0" (toString16 b) +:+ uint8ArrayToHex bytes.
Proof. reflexivity. Qed.

Lemma hex_roundtrip_plain bytes :
  Forall is_byte bytes →
  hexToUint8Array (uint8ArrayToHex bytes) = bytes
  ∧ String.length (uint8ArrayToHex bytes) = (2 * length bytes)%nat.
Proof.
  induction 1 as [|b bytes Hb _ [IH IHlen]]; [done|].
  rewrite uint8ArrayToHex_cons.
  destruct (byte_text b Hb) as (x & y & -> & Hxy). cbn [String.append].
  rewrite hexToUint8Array_pair, Hxy, IH. split; [done|].
  cbn [String.length length]. lia.
Qed.

Lemma replace_first_prefix s :
  replace_first "\x" EmptyString ("\x" +:+ s) = s.
Proof. cbn. by destruct s. Qed.

(** X27. A byte array survives the way a public key is stored and read
    back: [uint8ArrayToHex] writes two lower-case hexadecimal digits per
    byte, [hexToUint8Array] reads them back, and the prefix that
    /register/finish puts in front is the one /login/finish removes. *)
Theorem public_key_roundtrip (bytes : list Z) :
  Forall is_byte bytes →
  hexToUint8Array (uint8ArrayToHex bytes) = bytes
  ∧ String.length (uint8ArrayToHex bytes) = (2 * length bytes)%nat
  ∧ load_public_key (store_public_key bytes) = bytes.
Proof.
  intros Hb. destruct (hex_roundtrip_plain bytes Hb) as [Hrt Hlen].
  split; [done|]. split; [done|].
  unfold load_public_key, store_public_key. by rewrite replace_first_prefix.
Qed.

(** ** Base64url text *)

Lemma replace_all_url c s :
  replace_all "/" "_" (replace_all "+" "-" (String c s))
  = String (url c) (replace_all "/" "_" (replace_all "+" "-" s)).
Proof. reflexivity. Qed.

Lemma sextet k :
  0 ≤ k < 64 →
  is_base64url (url (base64_char k)) = true
  ∧ Ascii.eqb "=" (url (base64_char k)) = false.
Proof.
  intros Hk.
  assert (forallb sextet_ok (seq 0 64) = true) as Hall
    by (vm_compute; reflexivity).
  rewrite forallb_forall in Hall.
  specialize (Hall (Z.to_nat k)). unfold sextet_ok in Hall.
  rewrite Z2Nat.id in Hall by lia.
  apply andb_true_iff in Hall as [H1 H2]; [|apply in_seq; lia].
  by apply negb_true_iff in H2.
Qed.

Lemma code_range c : 0 ≤ code c < 256.
Proof. unfold code. pose proof (N_ascii_bounded c). lia. Qed.

Lemma strip_trailing_keep p c s :
  p c = false → strip_trailing p (String c s) = String c (strip_trailing p s).
Proof. intros Hc. cbn. rewrite Hc. by destruct (strip_trailing p s). Qed.

Lemma string_triple_ind (P : string → Prop) :
  P EmptyString →
  (∀ a, P (String a EmptyString)) →
  (∀ a b, P (String a (String b EmptyString))) →
  (∀ a b c s, P s → P (String a (String b (String c s)))) →
  ∀ s, P s.
Proof.
  intros H0 H1 H2 H3. fix IH 1. intros [|a [|b [|c s]]]; [done..|].
  apply H3, IH.
Qed.

Lemma btoa_3 a b c rest :
  btoa (String a (String b (String c rest)))
  = String (base64_char ((65536 * code a + 256 * code b + code c) `div` 262144))
      (String (base64_char (((65536 * code a + 256 * code b + code c) `div` 4096) `mod` 64))
         (String (base64_char (((65536 * code a + 256 * code b + code c) `div` 64) `mod` 64))
            (String (base64_char ((65536 * code a + 256 * code b + code c) `mod` 64))
               (btoa rest)))).
Proof. reflexivity. Qed.

Lemma btoa_2 a b :
  btoa (String a (String b EmptyString))
  = String (base64_char ((4 * (256 * code a + code b)) `div` 4096))
      (String (base64_char (((4 * (256 * code a + code b)) `div` 64) `mod` 64))
         (String (base64_char ((4 * (256 * code a + code b)) `mod` 64))
            (String "=" EmptyString))).
Proof. reflexivity. Qed.

Lemma btoa_1 a :
  btoa (String a EmptyString)
  = String (base64_char ((16 * code a) `div` 64))
      (String (base64_char ((16 * code a) `mod` 64))
         (String "=" (String "=" EmptyString))).
Proof. reflexivity. Qed.

Ltac sextets :=
  repeat match goal with
  | |- context [url (base64_char ?k)] =>
      let H1 := fresh in let H2 := fresh in
      assert (0 ≤ k < 64) as [H1 H2]%sextet
        by (first [apply Z.mod_pos_bound; lia
                  | split; [apply Z.div_pos; lia
                           | apply Z.div_lt_upper_bound; lia]]);
      generalize dependent (url (base64_char k)); intros
  end.

Lemma base64url_of_spec s :
  all_chars is_base64url (base64url_of s) = true
  ∧ String.length (base64url_of s) = ((4 * String.length s + 2) / 3)%nat.
Proof.
  unfold base64url_of.
  induction s as [|a|a b|a b c s [IHc IHl]] using string_triple_ind.
  - done.
  - rewrite btoa_1, !replace_all_url. pose proof (code_range a).
    sextets. rewrite !strip_trailing_keep by done. cbn.
    split; [|done]. by repeat (apply andb_true_iff; split).
  - rewrite btoa_2, !replace_all_url.
    pose proof (code_range a). pose proof (code_range b).
    sextets. rewrite !strip_trailing_keep by done. cbn.
    split; [|done]. by repeat (apply andb_true_iff; split).
  - rewrite btoa_3, !replace_all_url.
    pose proof (code_range a). pose proof (code_range b).
    pose proof (code_range c).
    sextets. rewrite !strip_trailing_keep by done.
    cbn [all_chars String.length]. split.
    + by repeat (apply andb_true_iff; split).
    + rewrite IHl.
      replace (4 * S (S (S (String.length s))) + 2)%nat
        with ((4 * String.length s + 2) + 4 * 3)%nat by lia.
      rewrite Nat.div_add by done. lia.
Qed.

Lemma length_fromCharCode bytes :
  String.length (fromCharCode bytes) = length bytes.
Proof.
  unfold fromCharCode. induction bytes as [|b bytes IH]; [done|].
  cbn [fold_right String.length length]. by rewrite IH.
Qed.

(** X28. The base64url text of a byte array consists of letters, digits,
    [-] and [_] only, without padding, and has ⌈4n/3⌉ characters for n
    bytes: 43 for the 32 random bytes of [generateWebAuthnUserId]. *)
Theorem uint8ArrayToBase64Url_text (bytes : list Z) :
  Forall is_byte bytes →
  all_chars is_base64url (uint8ArrayToBase64Url bytes) = true
  ∧ String.length (uint8ArrayToBase64Url bytes)
    = ((4 * length bytes + 2) / 3)%nat
  ∧ (length bytes = 32%nat →
     String.length (uint8ArrayToBase64Url bytes) = 43%nat).
Proof.
  intros _. destruct (base64url_of_spec (fromCharCode bytes)) as [Hc Hl].
  rewrite length_fromCharCode in Hl. unfold base64url_of in *.
  split; [done|]. split; [done|].
  intros H32. unfold uint8ArrayToBase64Url. rewrite Hl, H32. reflexivity.
Qed.

End HelpersFacts.

(* ===================================================================== *)
(** ** Instances of the properties above *)
(* ===================================================================== *)

Module Walkthroughs.
Import JsText RateLimit EdgeFunction Samples Housekeeping Helpers Journeys.
Import HandlerInvariants HandlerBehaviour HandlerRuns RateLimitWindows
  HelpersFacts.

Ltac closed :=
  first [ reflexivity | discriminate | by left | by right
        | by vm_compute | vm_compute; lia ].

Lemma store_nonces_unique : nonces_unique store.
Proof.
  intros i j ri rj Hi Hj Heq. unfold store in Hi, Hj.
  cbn [passkey_challenges] in Hi, Hj.
  repeat (apply lookup_insert_Some in Hi as [[<- <-]|[_ Hi]]);
    try (by rewrite lookup_empty in Hi);
    repeat (apply lookup_insert_Some in Hj as [[<- <-]|[_ Hj]]);
    try (by rewrite lookup_empty in Hj);
    first [reflexivity | discriminate Heq].
Qed.

Lemma store_emails_unique : emails_unique store.
Proof.
  unfold emails_unique, store. cbn.
  repeat (apply NoDup_cons; split;
          [rewrite ?not_elem_of_cons; repeat split;
           first [discriminate | apply not_elem_of_nil]|]).
  apply NoDup_nil_2.
Qed.

Lemma flooded_windows w c :
  passkey_rate_limits flooded !! ("10.0.0.1", ip, "/register/start", w) = Some c →
  w ≤ date_trunc_minute 200000.
Proof.
  unfold flooded. cbn [passkey_rate_limits set_rate_limits]. intros Hl.
  repeat (apply lookup_insert_Some in Hl as [[Hk _]|[_ Hl]];
          [injection Hk as <-; by vm_compute|]).
  by rewrite lookup_empty in Hl.
Qed.

(** X2 at a finish-call: the other pending challenge stays as it is. *)
Lemma challenge_rows_stable_witness :
  passkey_challenges (handle store env finish_login_fresh).1 !! "ch-reg"
  = Some (challenge_of registration "nonce-1" 400000)
  ∨ (passkey_challenges (handle store env finish_login_fresh).1 !! "ch-reg"
     = None
     ∧ is_finish (endpoint finish_login_fresh)
     ∧ challengeId finish_login_fresh = "ch-reg").
Proof.
  apply (challenge_rows_stable inet_in listUsers valid_email
           verifyRegistration verifyAuthentication
           generateLink store env finish_login_fresh "ch-reg"
           (challenge_of registration "nonce-1" 400000)).
  closed.
Defined.

(** X3 at a begin-call, which stores a new nonce. *)
Lemma nonces_stay_unique_witness :
  nonces_unique store
  ∧ nonces_unique (handle store env start_register_alice).1.
Proof.
  split; [exact store_nonces_unique|].
  exact (nonces_stay_unique inet_in listUsers valid_email
           verifyRegistration verifyAuthentication
           generateLink store env start_register_alice store_nonces_unique).
Defined.

(** X4 at a registration for an email that has an account. *)
Lemma accounts_only_grow_witness :
  emails_unique (handle store env finish_register).1
  ∧ (auth_users (handle store env finish_register).1 = auth_users store
     ∨ (endpoint finish_register = "/register/finish"
        ∧ ∃ e,
            find_user_by_email listUsers store (Some e) = None
            ∧ auth_users (handle store env finish_register).1
              = auth_users store ++ [{| u_id := new_user_id env; u_email := e |}])).
Proof.
  exact (accounts_only_grow inet_in listUsers valid_email
           verifyRegistration verifyAuthentication
           generateLink store env finish_register store_emails_unique).
Defined.

(** X5 at the removal of a credential by its owner. *)
Lemma credential_owner_stable_witness :
  credential_kept_or_removed_by_owner alice_removes_own "cred-a"
    (credential_of "user-a" "handle-a" "Alice's key" 7)
    (passkey_credentials (handle store env alice_removes_own).1 !! "cred-a").
Proof.
  apply (credential_owner_stable inet_in listUsers valid_email
           verifyRegistration verifyAuthentication
           generateLink store env alice_removes_own "cred-a"
           (credential_of "user-a" "handle-a" "Alice's key" 7)).
  closed.
Defined.

(** X6 for Alice. *)
Lemma passkeys_list_own_witness :
  ∃ rows,
    handle store env alice_lists
    = (store, ok (success (Passkeys (map (λ kv, to_passkey kv.1 kv.2) rows))))
    ∧ (∀ id c, (id, c) ∈ rows
               ↔ passkey_credentials store !! id = Some c
                 ∧ cr_user_id c = "user-a")
    ∧ NoDup rows.*1
    ∧ StronglySorted created_desc rows.
Proof.
  apply (passkeys_list_own inet_in listUsers valid_email
           verifyRegistration verifyAuthentication
           generateLink store env alice_lists "user-a"); closed.
Defined.


(** X8: the challenge that a begin-call creates at t = 200000 is refused
    as expired at t = 900000. *)
Lemma registration_ceremony_witness :
  (handle (handle store env start_register_alice).1 much_later
     finish_register_started).2
  = ok (error "CHALLENGE_EXPIRED" "Challenge has expired").
Proof.
  refine (proj1 (proj1 (proj2
            (registration_ceremony inet_in listUsers valid_email
               verifyRegistration verifyAuthentication
               generateLink store env start_register_alice
               (handle store env start_register_alice).1
               (generateRegistrationOptions env "App" "app.example"
                  (Some "alice@example.com") "handle-new" [])
               "ch-new" much_later finish_register_started _ _ _ _)) _));
    closed.
Defined.

(** X9 at a registration of a new credential for Alice's email. *)
Lemma register_finish_binds_account_witness :
  auth_users (handle store env finish_register).1 = auth_users store
  ∧ cr_user_id <$> passkey_credentials (handle store env finish_register).1
                     !! "cred-n"
    = Some "user-a".
Proof.
  destruct (register_finish_binds_account inet_in listUsers valid_email
              verifyRegistration verifyAuthentication generateLink
              store env finish_register
              (challenge_of registration "nonce-1" 400000)
              {| vr_verified := true;
                 vr_registrationInfo :=
                   Some {| ri_id := "cred-n"; ri_publicKey := "a5010203";
                           ri_counter := 0; ri_transports := [];
                           ri_deviceType := multiDevice;
                           ri_backedUp := false |} |}
              {| ri_id := "cred-n"; ri_publicKey := "a5010203";
                 ri_counter := 0; ri_transports := [];
                 ri_deviceType := multiDevice; ri_backedUp := false |}
              "alice@example.com" "handle-a2")
    as (Hfound & _); [closed..|].
  destruct (Hfound {| u_id := "user-a"; u_email := "alice@example.com" |}
              eq_refl) as (Husers & Hcreds & _).
  split; [exact Husers|].
  unfold handle. rewrite Hcreds. cbn [ri_id]. by rewrite lookup_insert_eq.
Defined.

(** X10 at a registration that reports the id of Alice's stored
    credential. *)
Lemma register_finish_keeps_existing_witness :
  passkey_credentials (handle store env finish_register_again).1
  = passkey_credentials store
  ∧ (handle store env finish_register_again).2
    = ok (success (RegisterFinished (Some "token-alice@example.com") None)).
Proof.
  destruct (register_finish_keeps_existing inet_in listUsers valid_email
              verifyRegistration verifyAuthentication generateLink
              store env finish_register_again
              (challenge_of registration "nonce-1" 400000)
              {| vr_verified := true;
                 vr_registrationInfo :=
                   Some {| ri_id := "cred-a"; ri_publicKey := "a5010203";
                           ri_counter := 0; ri_transports := [];
                           ri_deviceType := multiDevice;
                           ri_backedUp := false |} |}
              {| ri_id := "cred-a"; ri_publicKey := "a5010203";
                 ri_counter := 0; ri_transports := [];
                 ri_deviceType := multiDevice; ri_backedUp := false |}
              "alice@example.com"
              (credential_of "user-a" "handle-a" "Alice's key" 7))
    as (Hcreds & Hanswer & _); [closed..|].
  split; [exact Hcreds|].
  exact (Hanswer (or_introl (ex_intro _ _ eq_refl))).
Defined.

(** X11 at a begin-call for Alice, who owns one credential. *)
Lemma login_start_allow_list_witness :
  ∃ u ids,
    find_user_by_email listUsers store (Some "alice@example.com") = Some u
    ∧ Some ["cred-a"] = Some ids
    ∧ ids ≠ []
    ∧ NoDup ids
    ∧ ∀ k, k ∈ ids
           ↔ ∃ c, passkey_credentials store !! k = Some c
                  ∧ cr_user_id c = u_id u.
Proof.
  refine (proj2 (proj2 (proj2
    (login_start_allow_list inet_in listUsers valid_email
           verifyRegistration verifyAuthentication
       generateLink store env start_login_alice
       (generateAuthenticationOptions env "app.example" (Some ["cred-a"]))
       "ch-new" _ _)))); closed.
Defined.

(** X12 at seven begin-calls within one minute: the second is let
    through, the seventh is not. *)
Lemma begin_calls_ceiling_witness :
  (∃ r, responses inet_in listUsers valid_email verifyRegistration
          verifyAuthentication generateLink
          store burst !! 1%nat = Some r
        ∧ error_code r ≠ Some "RATE_LIMITED")
  ∧ responses inet_in listUsers valid_email verifyRegistration
          verifyAuthentication generateLink
      store burst !! 6%nat
    = Some (ok (error "RATE_LIMITED" "Too many requests")).
Proof.
  assert (Forall (λ er, endpoint er.2 = "/register/start"
                        ∧ clientIP er.2 = "10.0.0.1"
                        ∧ date_trunc_minute (now er.1) = 180000) burst)
    as Hburst.
  { apply Forall_replicate. by vm_compute. }
  assert (is_start "/register/start") as Hstart by by left.
  split.
  - eexists. split; [by vm_compute|].
    refine (proj1 (begin_calls_ceiling inet_in listUsers valid_email
           verifyRegistration verifyAuthentication
              generateLink store burst "10.0.0.1" "/register/start" 180000
              Hstart Hburst _ 1%nat _ _) _); closed.
  - destruct (responses inet_in listUsers valid_email verifyRegistration
          verifyAuthentication generateLink
                store burst !! 6%nat) as [r|] eqn:Hr; [|by vm_compute in Hr].
    f_equal.
    refine (proj2 (begin_calls_ceiling inet_in listUsers valid_email
           verifyRegistration verifyAuthentication
              generateLink store burst "10.0.0.1" "/register/start" 180000
              Hstart Hburst _ 6%nat r Hr) _); closed.
Defined.

(** X13: after Alice has removed her credential, an authentication with
    it is refused. *)
Lemma owner_remove_effective_witness :
  (handle store env alice_removes_own).2 = ok (success Removed)
  ∧ (handle (handle store env alice_removes_own).1 later finish_login_fresh).2
    = ok (error "CREDENTIAL_NOT_FOUND" "Credential not found").
Proof.
  destruct (owner_remove_effective inet_in listUsers valid_email
              verifyRegistration verifyAuthentication generateLink
              store env alice_removes_own
              "user-a" (credential_of "user-a" "handle-a" "Alice's key" 7))
    as (Hanswer & _ & _ & _ & _ & _ & Hlater); [closed..|].
  split; [exact Hanswer|].
  apply (Hlater later finish_login_fresh (response_of "cred-a" "nonce-2" 8)
           (challenge_of authentication "nonce-2" 400000)); closed.
Defined.

(** X14: after Alice has renamed her credential, her listing shows the
    new label. *)
Lemma owner_update_renames_witness :
  ∃ passkeys,
    (handle (handle store env alice_renames_own).1 later alice_lists).2
    = ok (success (Passkeys passkeys))
    ∧ to_passkey "cred-a"
        (with_authenticator_name "Laptop"
           (credential_of "user-a" "handle-a" "Alice's key" 7))
      ∈ passkeys
    ∧ ∀ p, p ∈ passkeys → pk_id p = "cred-a" →
           pk_authenticatorName p = Some "Laptop".
Proof.
  destruct (owner_update_renames inet_in listUsers valid_email
              verifyRegistration verifyAuthentication generateLink
              store env alice_renames_own
              "user-a" (credential_of "user-a" "handle-a" "Alice's key" 7)
              "Laptop") as [Hfits _]; [closed..|].
  destruct Hfits as (_ & _ & _ & Hlist); [cbn; lia|].
  exact (Hlist later alice_lists eq_refl eq_refl).
Defined.

(** A label of 256 letters does not fit the column: the owner is told
    that the passkey was not found, and nothing is stored. *)
Example long_label_refused :
  handle store env alice_renames_long
  = (store, ok (error "CREDENTIAL_NOT_FOUND" "Passkey not found")).
Proof. by vm_compute. Qed.

(** A client address that is no inet value: the removal takes effect and
    leaves no audit row. *)
Example remove_unlogged :
  (handle store env (from_address "unknown" alice_removes_own)).2
  = ok (success Removed)
  ∧ passkey_credentials
      (handle store env (from_address "unknown" alice_removes_own)).1
      !! "cred-a" = None
  ∧ passkey_audit_log
      (handle store env (from_address "unknown" alice_removes_own)).1
    = passkey_audit_log store.
Proof. by vm_compute. Qed.

(** X16 at a finish-call for a challenge that cleanup has deleted. *)
Lemma cleanup_then_finish_witness :
  passkey_credentials
    (handle (cleanup_expired_passkey_challenges store 150000).1 env
       finish_login_expired).1
  = passkey_credentials (handle store env finish_login_expired).1
  ∧ ((handle (cleanup_expired_passkey_challenges store 150000).1 env
        finish_login_expired).2
     = (handle store env finish_login_expired).2
     ∨ ((handle store env finish_login_expired).2
        = ok (error "CHALLENGE_EXPIRED" "Challenge has expired")
        ∧ (handle (cleanup_expired_passkey_challenges store 150000).1 env
             finish_login_expired).2
          = ok (error "CHALLENGE_MISMATCH" "Invalid or expired challenge")
        ∧ ∃ row, passkey_challenges store !! challengeId finish_login_expired
                 = Some row
                 ∧ ch_expires_at row < 150000)).
Proof.
  apply (cleanup_then_finish inet_in listUsers valid_email
           verifyRegistration verifyAuthentication
           generateLink store 150000 env finish_login_expired); closed.
Defined.

(** X17 at a call on one endpoint, seen from the window of another. *)
Lemma check_touches_own_window_witness :
  (check_passkey_rate_limit (passkey_rate_limits flooded) 200000
     "10.0.0.1" ip "/register/start" 5).1
    !! ("10.0.0.1", ip, "/login/start", 180000)
  = passkey_rate_limits flooded !! ("10.0.0.1", ip, "/login/start", 180000)
  ∧ count_in "10.0.0.1" ip "/register/start" (date_trunc_minute 200000)
      (passkey_rate_limits flooded)
    ≤ count_in "10.0.0.1" ip "/register/start" (date_trunc_minute 200000)
        (check_passkey_rate_limit (passkey_rate_limits flooded) 200000
           "10.0.0.1" ip "/register/start" 5).1
  ∧ (¬ INT_MIN ≤ 5 ≤ INT_MAX →
     check_passkey_rate_limit (passkey_rate_limits flooded) 200000
       "10.0.0.1" ip "/register/start" 5
     = (passkey_rate_limits flooded, None)).
Proof.
  apply (check_touches_own_window (passkey_rate_limits flooded) 200000
           "10.0.0.1" ip "/register/start" 5
           ("10.0.0.1", ip, "/login/start", 180000)); closed.
Defined.

(** An endpoint of 51 characters that ends in a space is counted in the
    window of its first 50, and a ceiling beyond the INTEGER range is
    answered by an error that writes no row. *)
Example padded_endpoint_counted :
  (check_passkey_rate_limit ∅ 200000 "10.0.0.1" ip
     "/0123456789012345678901234567890123456789012345678 " 5).1
    !! ("10.0.0.1", ip,
        "/0123456789012345678901234567890123456789012345678", 180000)
  = Some 1.
Proof. by vm_compute. Qed.

Example ceiling_out_of_range :
  check_passkey_rate_limit ∅ 200000 "10.0.0.1" ip "/register/start"
    2147483648
  = (∅, None).
Proof. by vm_compute. Qed.

(** X18 with ceiling 2: the third attempt of the minute is rejected, and
    so is the fourth. *)
Lemma rejection_is_final_witness :
  ∃ rj,
    attempts ∅ [60000; 60001; 60002; 119999] "10.0.0.1" ip "/register/start" 2
      !! 3%nat = Some rj
    ∧ rejected rj = true.
Proof.
  destruct (attempts ∅ [60000; 60001; 60002; 119999] "10.0.0.1" ip
              "/register/start" 2 !! 3%nat) as [rj|] eqn:Hj;
    [|by vm_compute in Hj].
  exists rj. split; [reflexivity|].
  apply (rejection_is_final ∅ [60000; 60001; 60002; 119999] 60000
           "10.0.0.1" ip "/register/start" 2 2%nat 3%nat (Some true) rj).
  - repeat constructor.
  - closed.
  - exact Hj.
  - lia.
  - closed.
Defined.

(** X19: the address that has used up the minute of t = 200000 is let
    through at t = 240000. *)
Lemma allowed_again_next_minute_witness :
  (check_passkey_rate_limit (passkey_rate_limits flooded) 240000
     "10.0.0.1" ip "/register/start" 5).2 = Some false
  ∧ (check_passkey_rate_limit (passkey_rate_limits flooded) 240000
       "10.0.0.1" ip "/register/start" 5).1
      !! ("10.0.0.1", ip, "/register/start", date_trunc_minute 240000)
    = Some 1.
Proof.
  apply (allowed_again_next_minute (passkey_rate_limits flooded) 200000
           240000 "10.0.0.1" ip "/register/start" 5).
  - closed.
  - unfold INT_MAX. lia.
  - exact flooded_windows.
  - closed.
Defined.

Lemma key_bytes_are_bytes : Forall is_byte key_bytes.
Proof. repeat constructor; unfold is_byte; lia. Qed.

(** X27 at eight bytes, among them 0, 15, 16 and 255. *)
Lemma public_key_roundtrip_witness :
  hexToUint8Array (uint8ArrayToHex key_bytes) = key_bytes
  ∧ String.length (uint8ArrayToHex key_bytes) = (2 * length key_bytes)%nat
  ∧ load_public_key (store_public_key key_bytes) = key_bytes.
Proof. exact (public_key_roundtrip key_bytes key_bytes_are_bytes). Defined.

(** X28 at the same bytes. *)
Lemma uint8ArrayToBase64Url_text_witness :
  all_chars is_base64url (uint8ArrayToBase64Url key_bytes) = true
  ∧ String.length (uint8ArrayToBase64Url key_bytes)
    = ((4 * length key_bytes + 2) / 3)%nat
  ∧ (length key_bytes = 32%nat →
     String.length (uint8ArrayToBase64Url key_bytes) = 43%nat).
Proof. exact (uint8ArrayToBase64Url_text key_bytes key_bytes_are_bytes). Defined.

End Walkthroughs.

